(** * Verification of the LOESS / STL / RBF kernel regression notebooks

    The development embeds the three algorithms of the repository:

    - [Loess.loess_1d]            (homeworks/STL_ML.ipynb, function [loess_1d]),
    - [STL.fit]                   (homeworks/STL_ML.ipynb, class [SimpleSTL]),
    - [KRR.predict], [KRR.fit]    (class [SimpleRBFKernelRegression]).

    Numbers.  The notebooks compute with binary floating point.  The
    properties studied here are the exact-arithmetic ones: a float of the LOESS
    and STL code is modelled by a rational number in lowest terms ([Qc], every
    operation used there is rational), a float of the kernel code by a real
    number ([R], because of [np.exp]).  Rounding is not modelled.

    Exceptions.  A Python exception is a value of [exn]; a computation that
    may raise returns a [result]. *)

From Stdlib Require Import List ZArith QArith Qcanon Qcabs Qround Lia Bool Arith.
From Stdlib Require Import Permutation Sorted Setoid Morphisms.
From Stdlib Require Import Reals Lra ClassicalEpsilon FunctionalExtensionality.
Import ListNotations.

(** ** Exceptions *)

Inductive exn : Type :=
| IndexError     (* fancy indexing out of bounds *)
| ValueError     (* np.max of an empty array, operands of different shapes *)
| LinAlgError    (* np.linalg.solve on a singular matrix *)
| ZeroDivisionError
| AttributeError (* an attribute of None *)
| RuntimeError.  (* raised by predict before fit *)

Inductive result (A : Type) : Type :=
| Ok (a : A)
| Raise (e : exn).
Arguments Ok {A} a.
Arguments Raise {A} e.

Definition bind {A B} (m : result A) (k : A -> result B) : result B :=
  match m with
  | Ok a => k a
  | Raise e => Raise e
  end.

Notation "x <- m ;; k" := (bind m (fun x => k))
  (at level 61, m at next level, right associativity).

Fixpoint mapM {A B} (f : A -> result B) (l : list A) : result (list B) :=
  match l with
  | [] => Ok []
  | a :: l' => b <- f a ;; bs <- mapM f l' ;; Ok (b :: bs)
  end.

(** [for x in xs: st = body x st], with exceptions. *)
Fixpoint foldM {A S} (body : A -> S -> result S) (xs : list A) (st : S) : result S :=
  match xs with
  | [] => Ok st
  | x :: xs' => st' <- body x st ;; foldM body xs' st'
  end.

(** [range(k)] for a Python int [k]: empty when [k <= 0]. *)
Definition range (k : Z) : list nat := seq 0 (Z.to_nat k).

(** ** The numpy primitives used by the LOESS and STL code, over [Qc] *)

Module Np.
Local Open Scope Qc_scope.

Definition of_Z (k : Z) : Qc := Q2Qc (inject_Z k).
Definition of_nat (i : nat) : Qc := of_Z (Z.of_nat i).

Definition zeros (n : nat) : list Qc := repeat 0 n.
Definition ones (n : nat) : list Qc := repeat 1 n.
Definition zeros_like {A} (a : list A) : list Qc := map (fun _ => 0) a.
Definition ones_like {A} (a : list A) : list Qc := map (fun _ => 1) a.

Definition sum (a : list Qc) : Qc := fold_right Qcplus 0 a.
Definition mean (a : list Qc) : Qc := sum a / of_nat (length a).

(** Elementwise operations on arrays of one shape. *)
Fixpoint map2 (f : Qc -> Qc -> Qc) (a b : list Qc) : list Qc :=
  match a, b with
  | x :: a', y :: b' => f x y :: map2 f a' b'
  | _, _ => []
  end.
Definition add := map2 Qcplus.
Definition sub := map2 Qcminus.
Definition mul := map2 Qcmult.

(** 2-D arrays, as the list of their rows. *)
Definition array2 : Type := list (list Qc).

(** [np.diag w] *)
Definition diag (w : list Qc) : array2 :=
  map (fun i => map (fun j => if (i =? j)%nat then nth i w 0 else 0)
                  (seq 0 (length w)))
      (seq 0 (length w)).

(** [A.T] *)
Definition transpose (A : array2) : array2 :=
  map (fun j => map (fun row => nth j row 0) A) (seq 0 (length (hd [] A))).

Definition dot (a b : list Qc) : Qc := sum (mul a b).

(** [A @ B] *)
Definition matmul (A B : array2) : array2 :=
  map (fun row => map (fun col => dot row col) (transpose B)) A.

(** [np.max a]: raises on an empty array. *)
Definition max (a : list Qc) : result Qc :=
  match a with
  | [] => Raise ValueError
  | x :: a' => Ok (fold_left (fun m y => if Qclt_le_dec m y then y else m) a' x)
  end.

(** [a[idx]] for an integer index array [idx]. *)
Definition take (a : list Qc) (idx : list nat) : result (list Qc) :=
  mapM (fun i => match nth_error a i with
                 | Some v => Ok v
                 | None => Raise IndexError
                 end) idx.

(** [a[i] = v] *)
Fixpoint set_nth (a : list Qc) (i : nat) (v : Qc) : result (list Qc) :=
  match a, i with
  | [], _ => Raise IndexError
  | _ :: a', O => Ok (v :: a')
  | x :: a', S i' => r <- set_nth a' i' v ;; Ok (x :: r)
  end.

(** [a[idx] = vals] for [idx] and [vals] of one length. *)
Fixpoint put (a : list Qc) (idx : list nat) (vals : list Qc) : result (list Qc) :=
  match idx, vals with
  | i :: idx', v :: vals' => a' <- set_nth a i v ;; put a' idx' vals'
  | [], [] => Ok a
  | _, _ => Raise ValueError
  end.

(** [np.argsort keys]: the indices that sort [keys]; here a stable insertion
    sort.  numpy's default sort promises no order among equal keys: the
    properties below rest on [argsort_perm] only (the result lists every
    index once), and hold for any tie-breaking. *)
Fixpoint insert_key (ki : Qc * nat) (l : list (Qc * nat)) : list (Qc * nat) :=
  match l with
  | [] => [ki]
  | h :: t => if Qle_bool (fst ki) (fst h) then ki :: l else h :: insert_key ki t
  end.

Definition argsort (keys : list Qc) : list nat :=
  map snd (fold_right insert_key [] (combine keys (seq 0 (length keys)))).

(** [np.arange(start, stop, step)] for [0 < step]: start, start+step, ... below stop. *)
Definition arange (start stop step : nat) : list nat :=
  map (fun k => (start + k * step)%nat)
      (seq 0 (Nat.div (stop - start + (step - 1)) step)).

(** [int(np.ceil q)] *)
Definition ceil (q : Qc) : Z := Qceiling q.

End Np.

(** ** [loess_1d] *)

Module Loess.
Local Open Scope Qc_scope.

(** The float literal [1e-9]. *)
Definition eps : Qc := Q2Qc (1 # 1000000000).

(** Lines 51-55: the size of the local window. *)
Definition num_points_in_window (bandwidth : Qc) (n : nat) : Z :=
  let w := Np.ceil (bandwidth * Np.of_nat n) in
  let w := if (w <? 2)%Z then 2%Z else w in
  let w := if (w >? Z.of_nat n)%Z then Z.of_nat n else w in
  w.

(** Lines 79-85: the matrices of the weighted least squares problem. *)
Definition W (weights : list Qc) : Np.array2 := Np.diag weights.
Definition X_mat (x_window : list Qc) : Np.array2 :=
  Np.transpose [Np.ones_like x_window; x_window].
Definition Y_vec (y_window : list Qc) : Np.array2 := map (fun y => y :: nil) y_window.
Definition XTWX (weights x_window : list Qc) : Np.array2 :=
  Np.matmul (Np.matmul (Np.transpose (X_mat x_window)) (W weights)) (X_mat x_window).
Definition XTWY (weights x_window y_window : list Qc) : Np.array2 :=
  Np.matmul (Np.matmul (Np.transpose (X_mat x_window)) (W weights)) (Y_vec y_window).

(** Their entries, which is all that [np.linalg.solve] reads: the sums of the
    normal equations written out in the comment of lines 75-77
    ([normal_equations_matrix_form] below). *)
Record normal_eqs : Type := {
  s_w : Qc; s_wx : Qc; s_wxx : Qc;   (* XTWX = [[s_w, s_wx], [s_wx, s_wxx]] *)
  s_wy : Qc; s_wxy : Qc             (* XTWY = [s_wy, s_wxy] *)
}.

Definition normal_equations (weights x_window y_window : list Qc) : normal_eqs :=
  {| s_w := Np.sum weights;
     s_wx := Np.sum (Np.mul weights x_window);
     s_wxx := Np.sum (Np.mul (Np.mul weights x_window) x_window);
     s_wy := Np.sum (Np.mul weights y_window);
     s_wxy := Np.sum (Np.mul (Np.mul weights x_window) y_window) |}.

Definition det (e : normal_eqs) : Qc := s_w e * s_wxx e - s_wx e * s_wx e.

(** [np.linalg.solve(XTWX, XTWY)] for the 2x2 system: the unique solution, or
    [LinAlgError] when the matrix is singular. *)
Definition linalg_solve (e : normal_eqs) : result (Qc * Qc) :=
  if Qc_eq_dec (det e) 0 then Raise LinAlgError
  else Ok ((s_wy e * s_wxx e - s_wx e * s_wxy e) / det e,
           (s_w e * s_wxy e - s_wx e * s_wy e) / det e).

(** Lines 92-98: the handler of [LinAlgError]. *)
Definition fallback (weights y_window : list Qc) : Qc * Qc :=
  if Qclt_le_dec (Np.sum weights) eps
  then (Np.mean y_window, 0)
  else (Np.sum (Np.mul weights y_window) / Np.sum weights, 0).

(** Lines 58-61: the window of a query point. *)
Record window : Type := {
  nearest_indices : list nat;
  x_window : list Qc;
  y_window : list Qc;
  dist_window : list Qc
}.

Definition select_window (x_sorted y_sorted : list Qc) (n : nat) (bandwidth p : Qc)
  : result window :=
  let distances := map (fun xi => Qcabs (xi - p)) x_sorted in
  let w := num_points_in_window bandwidth n in
  let nearest := firstn (Z.to_nat w) (Np.argsort distances) in
  xw <- Np.take x_sorted nearest ;;
  yw <- Np.take y_sorted nearest ;;
  dw <- Np.take distances nearest ;;
  Ok {| nearest_indices := nearest; x_window := xw; y_window := yw; dist_window := dw |}.

(** Lines 63-70: tricube weights of the window. *)
Definition window_weights (win : window) : result (list Qc) :=
  max_dist <- Np.max (dist_window win) ;;
  if Qclt_le_dec max_dist eps
  then Ok (Np.ones_like (x_window win))
  else
    let d := map (fun di => di / max_dist) (dist_window win) in
    Ok (map (fun di => (1 - di ^ 3) ^ 3) d).

(** Lines 79-98: the local line [a + b*x] fitted in a window. *)
Definition local_fit (win : window) : result (Qc * Qc) :=
  weights <- window_weights win ;;
  match linalg_solve (normal_equations weights (x_window win) (y_window win)) with
  | Ok ab => Ok ab
  | Raise LinAlgError => Ok (fallback weights (y_window win))
  | Raise e => Raise e
  end.

(** The body of the loop over the query points (lines 47-102). *)
Definition estimate (x_sorted y_sorted : list Qc) (n : nat) (bandwidth p : Qc) : result Qc :=
  win <- select_window x_sorted y_sorted n bandwidth p ;;
  ab <- local_fit win ;;
  Ok (fst ab + snd ab * p).

Definition loess_1d (y x points : list Qc) (bandwidth : Qc) : result (list Qc) :=
  let n := length x in
  if (n =? 0)%nat then Ok (Np.zeros_like points)
  else
    let sort_indices := Np.argsort x in
    x_sorted <- Np.take x sort_indices ;;
    y_sorted <- Np.take y sort_indices ;;
    mapM (estimate x_sorted y_sorted n bandwidth) points.

(** The window that [loess_1d y x points bandwidth] selects at a query point [p]
    (the values of [nearest_indices], [x_window], [y_window], [dist_window]
    in the loop body). *)
Definition window_at (y x : list Qc) (bandwidth p : Qc) : result window :=
  x_sorted <- Np.take x (Np.argsort x) ;;
  y_sorted <- Np.take y (Np.argsort x) ;;
  select_window x_sorted y_sorted (length x) bandwidth p.

End Loess.

(** ** [SimpleSTL] *)

Module STL.
Local Open Scope Qc_scope.

(** The attributes of an instance; [None] is Python's [None]. *)
Record SimpleSTL : Type := {
  seasonal_period : Z;
  n_trend_bandwidth : option Z;
  n_lowpass_bandwidth : option Z;
  seasonal_smoother_span : option Qc;
  trend_smoother_span : option Qc;
  lowpass_smoother_span : option Qc;
  n_inner_iterations : Z;
  n_outer_iterations : Z;
  seasonal : option (list Qc);
  trend : option (list Qc);
  residual : option (list Qc);
  _data : option (list Qc);
  _n : nat;
  _times : option (list Qc)
}.

Definition __init__ (seasonal_period : Z)
  (n_trend_bandwidth n_lowpass_bandwidth : option Z)
  (seasonal_smoother_span trend_smoother_span lowpass_smoother_span : option Qc)
  (n_inner_iterations n_outer_iterations : Z) : SimpleSTL :=
  {| seasonal_period := seasonal_period;
     n_trend_bandwidth := n_trend_bandwidth;
     n_lowpass_bandwidth := n_lowpass_bandwidth;
     seasonal_smoother_span := seasonal_smoother_span;
     trend_smoother_span := trend_smoother_span;
     lowpass_smoother_span := lowpass_smoother_span;
     n_inner_iterations := n_inner_iterations;
     n_outer_iterations := n_outer_iterations;
     seasonal := None; trend := None; residual := None;
     _data := None; _n := 0; _times := None |}.

(** Attribute assignments. *)
Definition set_data (self : SimpleSTL) (data : list Qc) (n : nat) : SimpleSTL :=
  {| seasonal_period := seasonal_period self;
     n_trend_bandwidth := n_trend_bandwidth self;
     n_lowpass_bandwidth := n_lowpass_bandwidth self;
     seasonal_smoother_span := seasonal_smoother_span self;
     trend_smoother_span := trend_smoother_span self;
     lowpass_smoother_span := lowpass_smoother_span self;
     n_inner_iterations := n_inner_iterations self;
     n_outer_iterations := n_outer_iterations self;
     seasonal := seasonal self; trend := trend self; residual := residual self;
     _data := Some data; _n := n; _times := _times self |}.

Definition set_times (self : SimpleSTL) (times : list Qc) : SimpleSTL :=
  {| seasonal_period := seasonal_period self;
     n_trend_bandwidth := n_trend_bandwidth self;
     n_lowpass_bandwidth := n_lowpass_bandwidth self;
     seasonal_smoother_span := seasonal_smoother_span self;
     trend_smoother_span := trend_smoother_span self;
     lowpass_smoother_span := lowpass_smoother_span self;
     n_inner_iterations := n_inner_iterations self;
     n_outer_iterations := n_outer_iterations self;
     seasonal := seasonal self; trend := trend self; residual := residual self;
     _data := _data self; _n := _n self; _times := Some times |}.

Definition set_components (self : SimpleSTL) (s t r : list Qc) : SimpleSTL :=
  {| seasonal_period := seasonal_period self;
     n_trend_bandwidth := n_trend_bandwidth self;
     n_lowpass_bandwidth := n_lowpass_bandwidth self;
     seasonal_smoother_span := seasonal_smoother_span self;
     trend_smoother_span := trend_smoother_span self;
     lowpass_smoother_span := lowpass_smoother_span self;
     n_inner_iterations := n_inner_iterations self;
     n_outer_iterations := n_outer_iterations self;
     seasonal := Some s; trend := Some t; residual := Some r;
     _data := _data self; _n := _n self; _times := _times self |}.

Definition set_smoothing (self : SimpleSTL) (ss : Qc) (ntb nlb : Z) (ts ls : Qc) : SimpleSTL :=
  {| seasonal_period := seasonal_period self;
     n_trend_bandwidth := Some ntb;
     n_lowpass_bandwidth := Some nlb;
     seasonal_smoother_span := Some ss;
     trend_smoother_span := Some ts;
     lowpass_smoother_span := Some ls;
     n_inner_iterations := n_inner_iterations self;
     n_outer_iterations := n_outer_iterations self;
     seasonal := seasonal self; trend := trend self; residual := residual self;
     _data := _data self; _n := _n self; _times := _times self |}.

(** Lines 180-183 and 186-189: make the window length odd and at least 3. *)
Definition odd_at_least_3 (w : Z) : Z :=
  let w := if (w mod 2 =? 0)%Z then (w + 1)%Z else w in
  if (w <? 3)%Z then 3%Z else w.

Definition default_n_trend_bandwidth (seasonal_period : Z) : Z :=
  odd_at_least_3 (Np.ceil (Q2Qc (3 # 2) * Np.of_Z seasonal_period)).

Definition default_n_lowpass_bandwidth (seasonal_period : Z) : Z :=
  odd_at_least_3 (Np.ceil (Np.of_Z seasonal_period)).

Definition or_default {A} (attr : option A) (default : A) : A :=
  match attr with
  | Some v => v
  | None => default
  end.

(** The three attributes assigned inside the loops. *)
Record components : Type := {
  c_seasonal : list Qc;
  c_trend : list Qc;
  c_residual : list Qc
}.

Section Loops.
(** What the loops read and never assign: [self._data], [self._times],
    [self._n], [self.seasonal_period], [self.seasonal_smoother_span] and
    [self.trend_smoother_span]. *)
Variables (data times : list Qc) (n : nat) (period : Z) (s_span t_span : Qc).

(** Lines 210-222, step 2: one LOESS per cycle-subseries. *)
Definition smooth_subseries (deseasonalized : list Qc) (i : nat)
  (seasonal_smoothed : list Qc) : result (list Qc) :=
  let period_indices := Np.arange i n (Z.to_nat period) in
  if (0 <? length period_indices)%nat then
    period_times <- Np.take times period_indices ;;
    period_values <- Np.take deseasonalized period_indices ;;
    smoothed_values <-
      Loess.loess_1d period_values period_times period_times s_span ;;
    Np.put seasonal_smoothed period_indices smoothed_values
  else Ok seasonal_smoothed.

(** Lines 204-244: the body of the inner loop.  [outer_iter], [inner_iter]
    and [robustness_weights] are the variables in scope. *)
Definition inner_pass (outer_iter : nat) (robustness_weights : list Qc)
  (inner_iter : nat) (c : components) : result components :=
  let deseasonalized := Np.sub data (c_trend c) in
  seasonal_smoothed <-
    foldM (smooth_subseries deseasonalized) (range period) (Np.zeros n) ;;
  seasonal_trend <- Loess.loess_1d seasonal_smoothed times times t_span ;;
  let seasonal := Np.sub seasonal_smoothed seasonal_trend in
  let detrended := Np.sub data seasonal in
  trend <- Loess.loess_1d detrended times times t_span ;;
  let residual := Np.sub (Np.sub data seasonal) trend in
  Ok {| c_seasonal := seasonal; c_trend := trend; c_residual := residual |}.

(** Lines 198-203: the body of the outer loop. *)
Definition outer_pass (n_inner_iterations : Z) (outer_iter : nat) (c : components)
  : result components :=
  let robustness_weights := Np.ones n in
  foldM (inner_pass outer_iter robustness_weights) (range n_inner_iterations) c.

Definition iterations (n_outer_iterations n_inner_iterations : Z) (c : components)
  : result components :=
  foldM (outer_pass n_inner_iterations) (range (n_outer_iterations + 1)) c.
End Loops.

Definition fit (self : SimpleSTL) (data : list Qc) : result SimpleSTL :=
  let n := length data in
  let self := set_data self data n in
  if (n =? 0)%nat then Ok (set_components self [] [] [])
  else
    let times := map Np.of_nat (seq 0 n) in
    let self := set_times self times in
    let self := set_components self (Np.zeros n) (Np.zeros n) data in
    let ss := or_default (seasonal_smoother_span self) (Q2Qc 7 / Np.of_nat n) in
    let ntb := or_default (n_trend_bandwidth self)
                 (default_n_trend_bandwidth (seasonal_period self)) in
    let nlb := or_default (n_lowpass_bandwidth self)
                 (default_n_lowpass_bandwidth (seasonal_period self)) in
    let ts := or_default (trend_smoother_span self) (Np.of_Z ntb / Np.of_nat n) in
    let ls := or_default (lowpass_smoother_span self) (Np.of_Z nlb / Np.of_nat n) in
    let self := set_smoothing self ss ntb nlb ts ls in
    c <- iterations data times n (seasonal_period self) ss ts
           (n_outer_iterations self) (n_inner_iterations self)
           {| c_seasonal := Np.zeros n; c_trend := Np.zeros n; c_residual := data |} ;;
    Ok (set_components self (c_seasonal c) (c_trend c) (c_residual c)).

(** [get_components]: the dictionary with keys seasonal, trend, residual. *)
Definition get_components (self : SimpleSTL)
  : option (list Qc) * option (list Qc) * option (list Qc) :=
  (seasonal self, trend self, residual self).

(** [stl.fit(series); stl.get_components()], as in lines 287-289. *)
Definition decompose (self : SimpleSTL) (data : list Qc)
  : result (option (list Qc) * option (list Qc) * option (list Qc)) :=
  self' <- fit self data ;; Ok (get_components self').

(** Successive calls [stl.fit(d1); stl.fit(d2); ...] on one instance. *)
Definition fits (self : SimpleSTL) (series : list (list Qc)) : result SimpleSTL :=
  foldM (fun data self => fit self data) series self.

(** The five smoothing attributes, and all the constructor's arguments. *)
Definition smoothing (self : SimpleSTL)
  : option Z * option Z * option Qc * option Qc * option Qc :=
  (n_trend_bandwidth self, n_lowpass_bandwidth self,
   seasonal_smoother_span self, trend_smoother_span self, lowpass_smoother_span self).

Definition configuration (self : SimpleSTL) :=
  (seasonal_period self, smoothing self, n_inner_iterations self, n_outer_iterations self).

(** Instances that differ in the low-pass parameters, or in the iteration counts. *)
Definition set_lowpass (self : SimpleSTL) (nlb : option Z) (ls : option Qc) : SimpleSTL :=
  {| seasonal_period := seasonal_period self;
     n_trend_bandwidth := n_trend_bandwidth self;
     n_lowpass_bandwidth := nlb;
     seasonal_smoother_span := seasonal_smoother_span self;
     trend_smoother_span := trend_smoother_span self;
     lowpass_smoother_span := ls;
     n_inner_iterations := n_inner_iterations self;
     n_outer_iterations := n_outer_iterations self;
     seasonal := seasonal self; trend := trend self; residual := residual self;
     _data := _data self; _n := _n self; _times := _times self |}.

Definition set_iterations (self : SimpleSTL) (n_inner n_outer : Z) : SimpleSTL :=
  {| seasonal_period := seasonal_period self;
     n_trend_bandwidth := n_trend_bandwidth self;
     n_lowpass_bandwidth := n_lowpass_bandwidth self;
     seasonal_smoother_span := seasonal_smoother_span self;
     trend_smoother_span := trend_smoother_span self;
     lowpass_smoother_span := lowpass_smoother_span self;
     n_inner_iterations := n_inner;
     n_outer_iterations := n_outer;
     seasonal := seasonal self; trend := trend self; residual := residual self;
     _data := _data self; _n := _n self; _times := _times self |}.

End STL.

(** ** [SimpleRBFKernelRegression] *)

Module KRR.
Local Open Scope R_scope.

Definition vector : Type := list R.
(** A 2-D array, as the list of its rows. *)
Definition matrix : Type := list (list R).

Definition entry (M : matrix) (i j : nat) : R := nth j (nth i M []) 0.

(** The [n] x [m] array with entries [f i j]. *)
Definition mk_matrix (n m : nat) (f : nat -> nat -> R) : matrix :=
  map (fun i => map (fun j => f i j) (seq 0 m)) (seq 0 n).

(** [M.shape == (n, m)] *)
Definition shape (n m : nat) (M : matrix) : Prop :=
  length M = n /\ Forall (fun row => length row = m) M.

Definition sum (a : list R) : R := fold_right Rplus 0 a.

Fixpoint map2 (f : R -> R -> R) (a b : list R) : list R :=
  match a, b with
  | x :: a', y :: b' => f x y :: map2 f a' b'
  | _, _ => []
  end.

Definition dot (a b : vector) : R := sum (map2 Rmult a b).

(** [M @ v] *)
Definition matvec (M : matrix) (v : vector) : vector :=
  map (fun row => dot row v) M.

(** [np.eye n] *)
Definition eye (n : nat) : matrix :=
  mk_matrix n n (fun i j => if (i =? j)%nat then 1 else 0).

(** [A + c * B], elementwise *)
Fixpoint add_scaled (A : matrix) (c : R) (B : matrix) : matrix :=
  match A, B with
  | ra :: A', rb :: B' => map2 (fun a b => a + c * b) ra rb :: add_scaled A' c B'
  | _, _ => []
  end.

(** [X[idx]] and [y[idx]] for indices [idx] within bounds (the caller's
    reordering of a training set; numpy raises on an index out of bounds). *)
Definition take_rows (X : matrix) (idx : list nat) : matrix :=
  map (fun i => nth i X []) idx.
Definition take (y : vector) (idx : list nat) : vector :=
  map (fun i => nth i y 0) idx.

(** *** The linear algebra of numpy, by its contract

    [np.linalg.solve A b] returns the solution of [A x = b] when [A] is
    invertible and raises [LinAlgError] when it is singular; it raises
    [ValueError] when [b] has not as many entries as [A] has rows. *)

Definition invertible (A : matrix) : Prop :=
  forall b : vector, length b = length A ->
    exists! x : vector, length x = length A /\ matvec A x = b.

Definition linalg_solve (A : matrix) (b : vector) : result vector :=
  if (length b =? length A)%nat then
    if excluded_middle_informative (invertible A)
    then Ok (epsilon (inhabits []) (fun x => length x = length A /\ matvec A x = b))
    else Raise LinAlgError
  else Raise ValueError.

(** Sums over [0 <= k < n] and the products and transposes of square
    matrices given by their entries. *)
Fixpoint bigsum (n : nat) (f : nat -> R) : R :=
  match n with
  | O => 0
  | S n' => bigsum n' f + f n'
  end.

Definition fmul (n : nat) (f g : nat -> nat -> R) : nat -> nat -> R :=
  fun i j => bigsum n (fun k => f i k * g k j).

Definition ftr (f : nat -> nat -> R) : nat -> nat -> R := fun i j => f j i.

Definition meq (n : nat) (f g : nat -> nat -> R) : Prop :=
  forall i j, (i < n)%nat -> (j < n)%nat -> f i j = g i j.

(** [np.linalg.pinv A] is the Moore-Penrose inverse of [A]: the matrix [B]
    with [A B A = A], [B A B = B], [A B] and [B A] symmetric.  It is unique
    ([is_pinv_unique] below), and every real matrix has one ([pinv_exists]
    below). *)
Definition is_pinv (A B : matrix) : Prop :=
  let n := length A in
  let a := entry A in
  let b := entry B in
  shape n n B /\
  meq n (fmul n (fmul n a b) a) a /\
  meq n (fmul n (fmul n b a) b) b /\
  meq n (ftr (fmul n a b)) (fmul n a b) /\
  meq n (ftr (fmul n b a)) (fmul n b a).

Definition linalg_pinv (A : matrix) : matrix :=
  epsilon (inhabits []) (is_pinv A).

(** *** The class *)

Record SimpleRBFKernelRegression : Type := {
  sigma : R;
  lambda_reg : R;
  X_train : option matrix;
  y_train : option vector;
  _trained : bool
}.

Definition __init__ (sigma lambda_reg : R) : SimpleRBFKernelRegression :=
  {| sigma := sigma; lambda_reg := lambda_reg;
     X_train := None; y_train := None; _trained := false |}.

(** The rows of [x1] and of [x2] have one length (needed by [x1 @ x2.T]). *)
Definition same_width (x1 x2 : matrix) : bool :=
  forallb (fun r1 => forallb (fun r2 => (length r1 =? length r2)%nat) x2) x1.

Definition sum_sq (row : list R) : R := sum (map (fun v => v ^ 2) row).

(** [sq_dists[sq_dists < 0] = 0] *)
Definition clamp (d : R) : R := if Rlt_dec d 0 then 0 else d.

(** [_rbf_kernel] on two 2-D arrays, the branch of lines 81-90; [predict]
    calls no other.  The branch for two 1-D arguments is [_rbf_kernel_vectors]
    below; the two branches that mix a 1-D and a 2-D argument are not modelled. *)
Definition _rbf_kernel (self : SimpleRBFKernelRegression) (x1 x2 : matrix)
  : result matrix :=
  if Req_dec_T (2 * sigma self ^ 2) 0 then Raise ZeroDivisionError
  else
    let gamma := 1 / (2 * sigma self ^ 2) in
    if same_width x1 x2 then
      let sq_dists :=
        map (fun r1 => map (fun r2 => sum_sq r1 + sum_sq r2 - 2 * dot r1 r2) x2) x1 in
      let sq_dists := map (map clamp) sq_dists in
      Ok (map (map (fun d => exp (- gamma * d))) sq_dists)
    else Raise ValueError.

(** numpy broadcasting of two 1-D arrays: the shapes (a,) and (b,) are
    compatible when [a = b], [a = 1] or [b = 1]. *)
Definition broadcast (u v : vector) : result (vector * vector) :=
  if (length u =? length v)%nat then Ok (u, v)
  else if (length u =? 1)%nat then Ok (repeat (nth 0 u 0) (length v), v)
  else if (length v =? 1)%nat then Ok (u, repeat (nth 0 v 0) (length u))
  else Raise ValueError.

(** [_rbf_kernel] on two 1-D arrays, the branch of lines 68-70. *)
Definition _rbf_kernel_vectors (self : SimpleRBFKernelRegression) (x1 x2 : vector)
  : result R :=
  if Req_dec_T (2 * sigma self ^ 2) 0 then Raise ZeroDivisionError
  else
    let gamma := 1 / (2 * sigma self ^ 2) in
    uv <- broadcast x1 x2 ;;
    let sq_dist := sum (map2 (fun a b => (a - b) ^ 2) (fst uv) (snd uv)) in
    Ok (exp (- gamma * sq_dist)).

Definition fit (self : SimpleRBFKernelRegression) (X : matrix) (y : vector)
  : SimpleRBFKernelRegression :=
  {| sigma := sigma self; lambda_reg := lambda_reg self;
     X_train := Some X; y_train := Some y; _trained := true |}.

(** Lines 142-147: the weights [alpha]; the solution of the system or, when
    it is singular, the pseudo-inverse applied to [y] (the warning printed in
    that branch is not modelled). *)
Definition dual_weights (A : matrix) (y : vector) : result vector :=
  match linalg_solve A y with
  | Raise LinAlgError => Ok (matvec (linalg_pinv A) y)
  | r => r
  end.

Definition predict (self : SimpleRBFKernelRegression) (X_test : matrix)
  : result vector :=
  if negb (_trained self) then Raise RuntimeError
  else
    let n_test_samples := length X_test in
    match X_train self with
    | None => Raise AttributeError
    | Some X =>
      let n_train_samples := length X in
      if (n_train_samples =? 0)%nat then Ok (repeat 0 n_test_samples)
      else
        K_test_train <- _rbf_kernel self X_test X ;;
        K_train_train <- _rbf_kernel self X X ;;
        let K_train_train_reg :=
          add_scaled K_train_train (lambda_reg self) (eye n_train_samples) in
        match y_train self with
        | None => Raise AttributeError
        | Some y =>
          alpha <- dual_weights K_train_train_reg y ;;
          Ok (matvec K_test_train alpha)
        end
    end.

(** The method calls made on an instance.  [predict] assigns no attribute,
    whether it returns or raises. *)
Inductive call : Type :=
| call_fit (X : matrix) (y : vector)
| call_predict (X_test : matrix).

Definition is_fit (c : call) : bool :=
  match c with
  | call_fit _ _ => true
  | call_predict _ => false
  end.

Definition step (self : SimpleRBFKernelRegression) (c : call)
  : SimpleRBFKernelRegression :=
  match c with
  | call_fit X y => fit self X y
  | call_predict _ => self
  end.

(** The instance after a sequence of calls. *)
Definition after (self : SimpleRBFKernelRegression) (calls : list call)
  : SimpleRBFKernelRegression :=
  fold_left step calls self.

End KRR.

(** * Notions used in the statements and proofs *)

(** The components have the shape of the series and add up to it. *)
Definition decomposes (data : list Qc) (c : STL.components) : Prop :=
  length (STL.c_seasonal c) = length data
  /\ length (STL.c_trend c) = length data
  /\ length (STL.c_residual c) = length data
  /\ Np.add (Np.add (STL.c_seasonal c) (STL.c_trend c)) (STL.c_residual c) = data.

(** [k] runs of a loop body that ignores the loop index. *)
Fixpoint repeatM {S} (k : nat) (f : S -> result S) (st : S) : result S :=
  match k with
  | O => Ok st
  | Datatypes.S k' => bind (f st) (repeatM k' f)
  end.

(** The common weight of a window whose points all lie at distance [d] of
    the query point: 1 when [d] is below 1e-9, and 0 otherwise (every point is
    then at the edge of the tricube kernel). *)
Definition uniform_weight (d : Qc) : Qc :=
  if Qclt_le_dec d Loess.eps then Q2Qc 1 else Q2Qc 0.

(** The kernel value of two rows: [exp(-gamma * max(0, |u|^2 + |v|^2 - 2 u.v))]. *)
Definition kernel_value (sigma : R) (u v : list R) : R :=
  exp (- (1 / (2 * sigma ^ 2)) * KRR.clamp (KRR.sum_sq u + KRR.sum_sq v - 2 * KRR.dot u v)).

(** The numerators and denominators of a returned array. *)
Definition values (r : result (list Qc)) : option (list Q) :=
  match r with
  | Ok l => Some (map this l)
  | Raise _ => None
  end.

(** [pi] lists the indices [0 .. n-1] in some order. *)
Definition perm_of (n : nat) (pi : list nat) : Prop := Permutation pi (seq 0 n).

(** The first position of [j] in [l]. *)
Fixpoint index_of (j : nat) (l : list nat) : nat :=
  match l with
  | [] => 0
  | x :: l' => if (x =? j)%nat then 0 else S (index_of j l')
  end.

(** [M[pi][:, pi]]: rows and columns of a square matrix permuted alike. *)
Definition permute (pi : list nat) (M : KRR.matrix) : KRR.matrix :=
  map (fun i => KRR.take (nth i M []) pi) pi.

(** The entries [f (pi i) (pi j)]. *)
Definition fconj (pi : list nat) (f : nat -> nat -> R) : nat -> nat -> R :=
  fun i j => f (nth i pi 0%nat) (nth j pi 0%nat).

(** The four Penrose equations on the entries of two [n] x [n] matrices. *)
Definition penrose (n : nat) (a b : nat -> nat -> R) : Prop :=
  KRR.meq n (KRR.fmul n (KRR.fmul n a b) a) a
  /\ KRR.meq n (KRR.fmul n (KRR.fmul n b a) b) b
  /\ KRR.meq n (KRR.ftr (KRR.fmul n a b)) (KRR.fmul n a b)
  /\ KRR.meq n (KRR.ftr (KRR.fmul n b a)) (KRR.fmul n b a).

(** The LOESS of the cycle-subseries [r] (lines 213-220 for [i = r]). *)
Definition subseries_loess (times des : list Qc) (n : nat) (period : Z) (s_span : Qc)
  (r : nat) : result (list Qc) :=
  let period_indices := Np.arange r n (Z.to_nat period) in
  Loess.loess_1d (map (fun k => nth k des (Q2Qc 0)) period_indices)
    (map (fun k => nth k times (Q2Qc 0)) period_indices)
    (map (fun k => nth k times (Q2Qc 0)) period_indices) s_span.

(** The combination [alpha * y1 + beta * y2] of two arrays of one shape. *)
Definition combination (alpha beta : Qc) : list Qc -> list Qc -> list Qc :=
  Np.map2 (fun u v => Qcplus (Qcmult alpha u) (Qcmult beta v)).

(** The combination of the components of two decompositions. *)
Definition comb_components (alpha beta : Qc) (c1 c2 : STL.components) : STL.components :=
  {| STL.c_seasonal := combination alpha beta (STL.c_seasonal c1) (STL.c_seasonal c2);
     STL.c_trend := combination alpha beta (STL.c_trend c1) (STL.c_trend c2);
     STL.c_residual := combination alpha beta (STL.c_residual c1) (STL.c_residual c2) |}.

Section EntryMatrices.
Local Open Scope R_scope.
(** Matrices of any shape by their entries, for the existence of the
    pseudo-inverse. *)
Definition fun_matrix := nat -> nat -> R.
Definition fadd (f g : fun_matrix) : fun_matrix := fun i j => f i j + g i j.
Definition fsub (f g : fun_matrix) : fun_matrix := fun i j => f i j - g i j.
Definition fscal (c : R) (f : fun_matrix) : fun_matrix := fun i j => c * f i j.
Definition fzero : fun_matrix := fun _ _ => 0.
(** zero outside the first [r] rows and [c] columns *)
Definition supported (r c : nat) (f : fun_matrix) : Prop :=
  forall i j, (r <= i \/ c <= j)%nat -> f i j = 0.
Definition clip (r c : nat) (f : fun_matrix) : fun_matrix :=
  fun i j => if ((i <? r) && (j <? c))%nat%bool then f i j else 0.
(** a column vector (column 0) placed in column [k]; a row vector placed in row [k] *)
Definition shiftcol (k : nat) (a : fun_matrix) : fun_matrix :=
  fun i j => if (j =? k)%nat then a i 0%nat else 0.
Definition shiftrow (k : nat) (b : fun_matrix) : fun_matrix :=
  fun i j => if (i =? k)%nat then b 0%nat j else 0.
(** the 1 x 1 identity *)
Definition one11 : fun_matrix := fun i j => if ((i =? 0) && (j =? 0))%nat%bool then 1 else 0.

(** The four Penrose equations for an [m] x [k] matrix [A] and a [k] x [m]
    matrix [B], as equations between functions. *)
Definition gpenrose (m k : nat) (A B : fun_matrix) : Prop :=
  supported k m B
  /\ KRR.fmul m (KRR.fmul k A B) A = A
  /\ KRR.fmul k (KRR.fmul m B A) B = B
  /\ KRR.ftr (KRR.fmul k A B) = KRR.fmul k A B
  /\ KRR.ftr (KRR.fmul m B A) = KRR.fmul m B A.

End EntryMatrices.

(** Case analysis on the result of the loops of [fit]. *)
Ltac case_iterations :=
  match goal with
  | |- context [STL.iterations ?d ?t ?n ?p ?ss ?ts ?k ?m ?c] =>
      destruct (STL.iterations d t n p ss ts k m c)
  end.

(** * Properties *)

(** ** The embedding on small inputs *)

Section ModelChecks.
Local Open Scope Q_scope.

Example loess_1d_line :
  values (Loess.loess_1d (map Q2Qc [1; 3; 5; 7; 9]) (map Q2Qc [0; 1; 2; 3; 4])
            (map Q2Qc [0; 1; 2; 3; 4]) (Q2Qc (3 # 5)))
  = Some [1; 3; 5; 7; 9].
Proof. vm_compute. reflexivity. Qed.

Example loess_1d_unsorted :
  values (Loess.loess_1d (map Q2Qc [7; 1; 9; 3; 5]) (map Q2Qc [3; 0; 4; 1; 2])
            (map Q2Qc [0; 1; 2; 3; 4]) (Q2Qc (3 # 5)))
  = Some [1; 3; 5; 7; 9].
Proof. vm_compute. reflexivity. Qed.

Example loess_1d_midpoints :
  values (Loess.loess_1d (map Q2Qc [1; 3; 2; 5]) (map Q2Qc [0; 1; 2; 3])
            (map Q2Qc [1 # 2; 5 # 2]) (Q2Qc (1 # 2)))
  = Some [2; 7 # 2].
Proof. vm_compute. reflexivity. Qed.

Example loess_1d_single :
  values (Loess.loess_1d [Q2Qc 7] [Q2Qc 5] (map Q2Qc [0; 5]) (Q2Qc (1 # 2)))
  = Some [7; 7].
Proof. vm_compute. reflexivity. Qed.

Example loess_1d_empty :
  values (Loess.loess_1d [] [] (map Q2Qc [0; 5]) (Q2Qc (1 # 2))) = Some [0; 0].
Proof. vm_compute. reflexivity. Qed.

Example loess_1d_short_y :
  Loess.loess_1d [Q2Qc 7] (map Q2Qc [5; 6]) [Q2Qc 0] (Q2Qc (1 # 2)) = Raise IndexError.
Proof. vm_compute. reflexivity. Qed.

Example stl_defaults :
  match STL.fit (STL.__init__ 12 None None None None None 2 0)
          (map Np.of_nat (seq 1 24)) with
  | Ok self =>
      STL.n_trend_bandwidth self = Some 19%Z
      /\ STL.n_lowpass_bandwidth self = Some 13%Z
      /\ option_map this (STL.seasonal_smoother_span self) = Some (7 # 24)
      /\ option_map this (STL.trend_smoother_span self) = Some (19 # 24)
      /\ option_map this (STL.lowpass_smoother_span self) = Some (13 # 24)
  | Raise _ => False
  end.
Proof. vm_compute. repeat split. Qed.

Example stl_series_24 :
  let data := map Np.of_nat (seq 1 24) in
  match STL.decompose (STL.__init__ 12 None None None None None 2 0) data with
  | Ok (Some s, Some t, Some r) =>
      length s = 24%nat /\ length t = 24%nat /\ length r = 24%nat
      /\ map this (Np.add (Np.add s t) r) = map this data
  | _ => False
  end.
Proof. vm_compute. repeat split. Qed.
End ModelChecks.

(** ** The exception monad *)

Section MonadFacts.
Context {A B : Type}.

Lemma bind_ok (m : result A) (k : A -> result B) (b : B) :
  bind m k = Ok b -> exists a, m = Ok a /\ k a = Ok b.
Proof. destruct m as [a|e]; simpl; [eauto | discriminate]. Qed.

Lemma mapM_length (f : A -> result B) (l : list A) (r : list B) :
  mapM f l = Ok r -> length r = length l.
Proof.
  revert r; induction l as [|a l IH]; simpl; intros r H.
  - now inversion H.
  - destruct (f a) as [b|]; simpl in H; [|discriminate].
    destruct (mapM f l) as [bs|]; simpl in H; [|discriminate].
    inversion H; subst; simpl; f_equal; now apply IH.
Qed.

(** [mapM] succeeds when its function does on every element, and is then a [map]. *)
Lemma mapM_map (f : A -> result B) (g : A -> B) (l : list A) :
  (forall a, In a l -> f a = Ok (g a)) -> mapM f l = Ok (map g l).
Proof.
  induction l as [|a l IH]; simpl; intros H; [reflexivity|].
  rewrite (H a (or_introl eq_refl)); simpl.
  rewrite IH by (intros; apply H; now right). reflexivity.
Qed.

Lemma mapM_total (f : A -> result B) (l : list A) :
  (forall a, In a l -> exists b, f a = Ok b) -> exists r, mapM f l = Ok r.
Proof.
  induction l as [|a l IH]; simpl; intros H; [eauto|].
  destruct (H a (or_introl eq_refl)) as [b ->].
  destruct IH as [bs ->]; [intros; apply H; now right|].
  simpl; eauto.
Qed.

End MonadFacts.

(** A loop whose body keeps an invariant and never raises under it ends
    normally in a state with the invariant. *)
Lemma foldM_invariant {A S} (P : S -> Prop) (body : A -> S -> result S) xs st :
  (forall x s, In x xs -> P s -> exists s', body x s = Ok s' /\ P s') ->
  P st -> exists st', foldM body xs st = Ok st' /\ P st'.
Proof.
  revert st; induction xs as [|x xs IH]; simpl; intros st Hbody Hst; [eauto|].
  destruct (Hbody x st (or_introl eq_refl) Hst) as (s' & -> & Hs'); simpl.
  apply IH; auto.
Qed.

(** ** numpy primitives *)

Section NpFacts.
Local Open Scope Qc_scope.

Lemma map2_length f a b :
  length a = length b -> length (Np.map2 f a b) = length a.
Proof.
  revert b; induction a as [|x a IH]; intros [|y b]; simpl; intros H; try easy.
  f_equal; apply IH; lia.
Qed.

Lemma sub_length a b : length a = length b -> length (Np.sub a b) = length a.
Proof. apply map2_length. Qed.

Lemma zeros_length n : length (Np.zeros n) = n.
Proof. apply repeat_length. Qed.

Lemma take_map a idx :
  (forall i, In i idx -> (i < length a)%nat) ->
  Np.take a idx = Ok (map (fun i => nth i a 0) idx).
Proof.
  intros H; apply mapM_map; intros i Hi.
  destruct (nth_error a i) as [v|] eqn:E.
  - now rewrite (nth_error_nth _ _ 0 E).
  - apply nth_error_None in E. specialize (H i Hi). lia.
Qed.

Lemma take_seq a : Np.take a (seq 0 (length a)) = Ok a.
Proof.
  rewrite take_map by (intros i Hi; apply in_seq in Hi; lia).
  f_equal. apply nth_ext with (d := 0) (d' := 0).
  - now rewrite length_map, length_seq.
  - intros k Hk. rewrite length_map, length_seq in Hk.
    rewrite (nth_indep _ 0 ((fun i => nth i a 0) 0%nat))
      by now rewrite length_map, length_seq.
    rewrite (map_nth (fun i => nth i a 0)), seq_nth by lia. reflexivity.
Qed.

Lemma insert_key_perm ki l : Permutation (Np.insert_key ki l) (ki :: l).
Proof.
  induction l as [|h t IH]; simpl; [reflexivity|].
  destruct (Qle_bool (fst ki) (fst h)); [reflexivity|].
  rewrite IH. apply perm_swap.
Qed.

Lemma argsort_perm keys : Permutation (Np.argsort keys) (seq 0 (length keys)).
Proof.
  unfold Np.argsort.
  assert (H : forall l : list (Qc * nat), Permutation (fold_right Np.insert_key [] l) l).
  { induction l as [|a l IH]; simpl; [reflexivity|].
    rewrite insert_key_perm. now constructor. }
  rewrite H.
  assert (E : forall (ks : list Qc) (ns : list nat),
             length ks = length ns -> map snd (combine ks ns) = ns).
  { induction ks as [|k ks IH]; intros [|m ns]; simpl; intros L; try easy.
    f_equal; apply IH; lia. }
  rewrite E by now rewrite length_seq. reflexivity.
Qed.

Lemma argsort_length keys : length (Np.argsort keys) = length keys.
Proof. now rewrite (Permutation_length (argsort_perm keys)), length_seq. Qed.

Lemma argsort_bound keys i : In i (Np.argsort keys) -> (i < length keys)%nat.
Proof.
  intros H. apply (Permutation_in _ (argsort_perm keys)) in H.
  apply in_seq in H; lia.
Qed.

Lemma in_combine_seq (keys : list Qc) s k i :
  In (k, i) (combine keys (seq s (length keys))) ->
  (s <= i)%nat /\ nth (i - s) keys 0 = k.
Proof.
  revert s; induction keys as [|x keys IH]; simpl; intros s H; [easy|].
  destruct H as [H|H].
  - inversion H; subst. now rewrite Nat.sub_diag.
  - apply IH in H as [Hs Hk]. split; [lia|].
    replace (i - s)%nat with (S (i - S s)) by lia. exact Hk.
Qed.

Lemma insert_key_sorted ki l :
  StronglySorted (fun a b => fst a <= fst b) l ->
  StronglySorted (fun a b => fst a <= fst b) (Np.insert_key ki l).
Proof.
  induction 1 as [|h t Ht IH Hh]; simpl.
  - repeat constructor.
  - destruct (Qle_bool (fst ki) (fst h)) eqn:E.
    + apply Qle_bool_iff in E. constructor; [now constructor|].
      constructor; [exact E|].
      rewrite Forall_forall in *. intros b Hb.
      apply Qcle_trans with (fst h); [exact E | now apply Hh].
    + constructor; [exact IH|].
      rewrite Forall_forall in *. intros b Hb.
      apply (Permutation_in _ (insert_key_perm ki t)) in Hb as [<-|Hb]; [|now apply Hh].
      apply Qcnot_lt_le. intros Hlt. apply Qclt_le_weak in Hlt.
      apply Qle_bool_iff in Hlt. congruence.
Qed.

(** [np.argsort]: the keys at the returned indices are in non-decreasing order. *)
Lemma argsort_sorted keys :
  StronglySorted (fun i j => nth i keys 0 <= nth j keys 0) (Np.argsort keys).
Proof.
  unfold Np.argsort.
  set (pairs := combine keys (seq 0 (length keys))).
  assert (Hin : forall p, In p (fold_right Np.insert_key [] pairs) ->
                          nth (snd p) keys 0 = fst p).
  { intros [k i] Hp.
    assert (P : Permutation (fold_right Np.insert_key [] pairs) pairs).
    { clear. induction pairs as [|a l IH]; simpl; [reflexivity|].
      rewrite insert_key_perm. now constructor. }
    apply (Permutation_in _ P), in_combine_seq in Hp as [_ Hp].
    simpl. now rewrite Nat.sub_0_r in Hp. }
  assert (Hs : StronglySorted (fun a b => fst a <= fst b)
                 (fold_right Np.insert_key [] pairs)).
  { clear. induction pairs as [|a l IH]; simpl; [constructor|].
    now apply insert_key_sorted. }
  revert Hin Hs. generalize (fold_right Np.insert_key [] pairs). intros L Hin Hs.
  induction Hs as [|a L HL IH Ha]; simpl; constructor.
  - apply IH. intros p Hp. apply Hin. now right.
  - rewrite Forall_forall in *. intros j Hj.
    apply in_map_iff in Hj as (b & <- & Hb).
    rewrite (Hin a (or_introl eq_refl)), (Hin b (or_intror Hb)). now apply Ha.
Qed.

Lemma firstn_subset {A} k (l : list A) a : In a (firstn k l) -> In a l.
Proof.
  intros H. rewrite <- (firstn_skipn k l). apply in_or_app. now left.
Qed.

Lemma max_total a : a <> [] -> exists m, Np.max a = Ok m.
Proof. destruct a; [easy | simpl; eauto]. Qed.

Lemma set_nth_total a i v :
  (i < length a)%nat -> exists r, Np.set_nth a i v = Ok r /\ length r = length a.
Proof.
  revert i; induction a as [|x a IH]; simpl; intros i H; [lia|].
  destruct i as [|i]; [eauto|].
  destruct (IH i) as (r & -> & L); [lia|]. simpl. eexists; split; eauto. simpl; lia.
Qed.

Lemma put_total a idx vals :
  (forall i, In i idx -> (i < length a)%nat) -> length idx = length vals ->
  exists r, Np.put a idx vals = Ok r /\ length r = length a.
Proof.
  revert a vals; induction idx as [|i idx IH]; intros a [|v vals] Hb L;
    simpl in *; try lia; [eauto|].
  destruct (set_nth_total a i v) as (a' & -> & La); [apply Hb; now left|]. simpl.
  destruct (IH a' vals) as (r & -> & Lr); [intros; rewrite La; apply Hb; now right | lia |].
  eexists; split; eauto. lia.
Qed.

Lemma arange_bound start stop step i :
  (0 < step)%nat -> In i (Np.arange start stop step) -> (i < stop)%nat.
Proof.
  unfold Np.arange. intros Hs H. apply in_map_iff in H as (k & <- & Hk).
  apply in_seq in Hk. destruct Hk as [_ Hk]. simpl in Hk.
  pose proof (Nat.Div0.mul_div_le (stop - start + (step - 1)) step) as D.
  nia.
Qed.
End NpFacts.

(** ** The normal equations of [loess_1d] in matrix form *)

Section MatrixForm.
Local Open Scope Qc_scope.

Lemma nth_map_seq {A} (f : nat -> A) n i d : (i < n)%nat -> nth i (map f (seq 0 n)) d = f i.
Proof.
  intros H. rewrite (nth_indep _ d (f 0%nat)) by now rewrite length_map, length_seq.
  now rewrite (map_nth f), seq_nth.
Qed.

Lemma map_nth_seq (a : list Qc) : map (fun i => nth i a 0) (seq 0 (length a)) = a.
Proof.
  pose proof (take_seq a) as E.
  rewrite take_map in E by (intros i Hi; apply in_seq in Hi; lia).
  congruence.
Qed.

Lemma transpose_pair (a b : list Qc) :
  length b = length a ->
  Np.transpose [a; b] = map (fun j => [nth j a 0; nth j b 0]) (seq 0 (length a)).
Proof. reflexivity. Qed.

Lemma transpose_columns (a b : list Qc) :
  a <> [] -> length b = length a ->
  Np.transpose (map (fun j => [nth j a 0; nth j b 0]) (seq 0 (length a))) = [a; b].
Proof.
  intros Ha L. unfold Np.transpose.
  replace (length (hd [] (map (fun j => [nth j a 0; nth j b 0]) (seq 0 (length a)))))
    with 2%nat by (destruct a; [easy | reflexivity]).
  simpl. rewrite !map_map. simpl.
  rewrite map_nth_seq. rewrite <- L at 1. now rewrite map_nth_seq.
Qed.

Lemma transpose_column (y : list Qc) :
  y <> [] -> Np.transpose (map (fun v => v :: nil) y) = y :: nil.
Proof.
  intros Hy. unfold Np.transpose.
  replace (length (hd [] (map (fun v => v :: nil) y))) with 1%nat
    by (destruct y; [easy | reflexivity]).
  simpl. rewrite map_map. simpl. now rewrite map_id.
Qed.

Lemma transpose_diag w : Np.transpose (Np.diag w) = Np.diag w.
Proof.
  unfold Np.transpose, Np.diag.
  replace (length (hd [] _)) with (length w).
  2:{ destruct w as [|v w]; [reflexivity|]. simpl. now rewrite length_map, length_seq. }
  apply map_ext_in. intros j Hj. apply in_seq in Hj.
  rewrite map_map. apply map_ext_in. intros i Hi. apply in_seq in Hi.
  rewrite (nth_map_seq (fun k => if (i =? k)%nat then nth i w 0 else 0)) by lia.
  rewrite (Nat.eqb_sym i j). destruct (Nat.eqb_spec j i) as [->|]; reflexivity.
Qed.

Lemma dot_unit (a : list Qc) j c s :
  Np.dot a (map (fun i => if (j =? i)%nat then c else 0) (seq s (length a)))
  = if ((s <=? j) && (j <? s + length a))%nat%bool then nth (j - s) a 0 * c else 0.
Proof.
  unfold Np.dot, Np.sum, Np.mul.
  revert s; induction a as [|x a IH]; intros s; simpl.
  - destruct ((s <=? j)%nat && (j <? s + 0)%nat)%bool; [|reflexivity].
    destruct (j - s)%nat; ring.
  - rewrite IH. clear IH.
    destruct (Nat.eqb_spec j s) as [->|Hne].
    + rewrite Nat.sub_diag, Nat.leb_refl.
      replace (s <? s + S (length a))%nat with true by (symmetry; apply Nat.ltb_lt; lia).
      replace (S s <=? s)%nat with false by (symmetry; apply Nat.leb_gt; lia).
      simpl. ring.
    + destruct (Nat.leb_spec (S s) j), (Nat.leb_spec s j); try lia; simpl.
      * replace (j - s)%nat with (S (j - S s)) by lia.
        replace (s + S (length a))%nat with (S (s + length a)) by lia.
        destruct (j <? S (s + length a))%nat; simpl; ring.
      * ring.
Qed.

Lemma matmul_diag_row (a w : list Qc) :
  length a = length w ->
  map (fun col => Np.dot a col) (Np.diag w) = Np.mul a w.
Proof.
  intros L. unfold Np.diag. rewrite map_map.
  rewrite (map_ext_in _ (fun j => nth j a 0 * nth j w 0)).
  - rewrite <- (map_nth_seq (Np.mul a w)).
    unfold Np.mul at 2. rewrite map2_length by exact L. rewrite L.
    apply map_ext_in. intros j Hj. apply in_seq in Hj.
    symmetry. clear Hj. revert w L j. unfold Np.mul.
    induction a as [|x a IH]; intros [|v w] L [|j]; simpl in *; try lia;
      try reflexivity; try ring.
    apply IH. lia.
  - intros j Hj. apply in_seq in Hj. rewrite <- L.
    rewrite (dot_unit a j (nth j w 0) 0). simpl.
    replace (j <? length a)%nat with true by (symmetry; apply Nat.ltb_lt; lia).
    now rewrite Nat.sub_0_r.
Qed.

Lemma mul_comm (a b : list Qc) : Np.mul a b = Np.mul b a.
Proof.
  unfold Np.mul. revert b; induction a as [|x a IH]; intros [|y b]; simpl; auto.
  rewrite IH. f_equal. ring.
Qed.

Lemma mul_ones_like_l {A} (l : list A) (w : list Qc) :
  length l = length w -> Np.mul (Np.ones_like l) w = w.
Proof.
  unfold Np.mul, Np.ones_like.
  revert w; induction l as [|x l IH]; intros [|v w]; simpl; intros L; try easy.
  rewrite IH by lia. f_equal. ring.
Qed.

(** The matrices of lines 79-85 hold the sums of [normal_equations]. *)
Lemma normal_equations_matrix_form (weights xw yw : list Qc) :
  xw <> [] -> length weights = length xw -> length yw = length xw ->
  let e := Loess.normal_equations weights xw yw in
  Loess.XTWX weights xw
  = [[Loess.s_w e; Loess.s_wx e]; [Loess.s_wx e; Loess.s_wxx e]]
  /\ Loess.XTWY weights xw yw
     = [Loess.s_wy e :: nil; Loess.s_wxy e :: nil].
Proof.
  intros Hx Lw Ly e.
  assert (Lo : length xw = length (@Np.ones_like Qc xw))
    by (unfold Np.ones_like; now rewrite length_map).
  assert (Ho : @Np.ones_like Qc xw <> []) by (destruct xw; [easy | discriminate]).
  assert (Hy : yw <> []) by (destruct yw, xw; simpl in *; try easy).
  assert (XT : Np.transpose (Loess.X_mat xw) = [Np.ones_like xw; xw]).
  { unfold Loess.X_mat. rewrite transpose_pair by exact Lo.
    now apply transpose_columns. }
  assert (XTW : Np.matmul (Np.transpose (Loess.X_mat xw)) (Loess.W weights)
                = [weights; Np.mul xw weights]).
  { rewrite XT. unfold Np.matmul, Loess.W. rewrite transpose_diag. simpl.
    rewrite !matmul_diag_row by congruence.
    rewrite mul_ones_like_l by congruence. reflexivity. }
  unfold Loess.XTWX, Loess.XTWY. rewrite XTW.
  unfold Np.matmul. rewrite XT. unfold Loess.Y_vec.
  rewrite (transpose_column yw Hy). simpl. unfold Np.dot.
  rewrite (mul_comm weights (Np.ones_like xw)), (mul_comm (Np.mul xw weights) (Np.ones_like xw)).
  rewrite !mul_ones_like_l
    by (unfold Np.mul; rewrite ?map2_length; congruence).
  rewrite (mul_comm xw weights). split; reflexivity.
Qed.
End MatrixForm.

(** ** [loess_1d] never raises on well-formed observations *)

Section LoessFacts.
Local Open Scope Qc_scope.
Import Loess.

Lemma num_points_in_window_eq b n :
  num_points_in_window b n
  = Z.min (Z.of_nat n) (Z.max 2 (Np.ceil (b * Np.of_nat n))).
Proof.
  unfold num_points_in_window.
  destruct (Z.ltb_spec (Np.ceil (b * Np.of_nat n)) 2);
    match goal with |- context [(?a >? ?b)%Z] => destruct (Z.gtb_spec a b) end; lia.
Qed.

Lemma num_points_in_window_bounds b n :
  (1 <= n)%nat ->
  (1 <= Z.to_nat (num_points_in_window b n) <= n)%nat.
Proof. rewrite num_points_in_window_eq. lia. Qed.

(** The window of a query point: the arrays indexed by the first [w]
    entries of the argsort of the distances. *)
Lemma select_window_total xs ys n b p :
  length xs = n -> length ys = n ->
  let distances := map (fun xi => Qcabs (xi - p)) xs in
  let nearest := firstn (Z.to_nat (num_points_in_window b n)) (Np.argsort distances) in
  select_window xs ys n b p
  = Ok {| nearest_indices := nearest;
          x_window := map (fun i => nth i xs 0) nearest;
          y_window := map (fun i => nth i ys 0) nearest;
          dist_window := map (fun i => nth i distances 0) nearest |}.
Proof.
  intros Lx Ly distances nearest. unfold select_window.
  fold distances. fold nearest.
  assert (Hb : forall i, In i nearest -> (i < n)%nat).
  { intros i Hi. apply firstn_subset, argsort_bound in Hi.
    unfold distances in Hi. rewrite length_map in Hi. lia. }
  rewrite !take_map; simpl; auto.
  - intros i Hi. unfold distances. rewrite length_map, Lx. auto.
  - intros i Hi. rewrite Ly; auto.
  - intros i Hi. rewrite Lx; auto.
Qed.

Lemma select_window_length xs ys n b p win :
  length xs = n -> length ys = n ->
  select_window xs ys n b p = Ok win ->
  length (nearest_indices win) = Z.to_nat (Z.min (Z.of_nat n) (num_points_in_window b n))
  /\ length (x_window win) = length (nearest_indices win)
  /\ length (y_window win) = length (nearest_indices win)
  /\ length (dist_window win) = length (nearest_indices win).
Proof.
  intros Lx Ly H. rewrite (select_window_total xs ys n b p Lx Ly) in H.
  inversion H; subst win; clear H; simpl.
  rewrite !length_map, length_firstn, argsort_length, length_map.
  repeat split. lia.
Qed.

Lemma linalg_solve_cases e :
  (det e = 0 /\ linalg_solve e = Raise LinAlgError)
  \/ (det e <> 0 /\ exists ab, linalg_solve e = Ok ab).
Proof.
  unfold linalg_solve. destruct (Qc_eq_dec (det e) 0); [left | right]; eauto.
Qed.

(** When [linalg_solve] returns, its result solves the normal equations. *)
Lemma linalg_solve_sound e a b :
  linalg_solve e = Ok (a, b) ->
  s_w e * a + s_wx e * b = s_wy e
  /\ s_wx e * a + s_wxx e * b = s_wxy e.
Proof.
  unfold linalg_solve.
  destruct (Qc_eq_dec (det e) 0) as [|Hd]; [discriminate|].
  intros H; inversion H; subst; clear H. unfold det in *.
  split; field; exact Hd.
Qed.

Lemma linalg_solve_unique e a b a' b' :
  det e <> 0 ->
  s_w e * a + s_wx e * b = s_wy e ->
  s_wx e * a + s_wxx e * b = s_wxy e ->
  s_w e * a' + s_wx e * b' = s_wy e ->
  s_wx e * a' + s_wxx e * b' = s_wxy e ->
  a = a' /\ b = b'.
Proof.
  unfold det. intros Hd E1 E2 E1' E2'.
  assert (Ha : (s_w e * s_wxx e - s_wx e * s_wx e) * (a - a') = 0).
  { transitivity (s_wxx e * (s_w e * a + s_wx e * b
                                   - (s_w e * a' + s_wx e * b'))
                  - s_wx e * (s_wx e * a + s_wxx e * b
                                    - (s_wx e * a' + s_wxx e * b')));
      [ring | rewrite E1, E2, E1', E2'; ring]. }
  assert (Hb : (s_w e * s_wxx e - s_wx e * s_wx e) * (b - b') = 0).
  { transitivity (s_w e * (s_wx e * a + s_wxx e * b
                                 - (s_wx e * a' + s_wxx e * b'))
                  - s_wx e * (s_w e * a + s_wx e * b
                                    - (s_w e * a' + s_wx e * b')));
      [ring | rewrite E1, E2, E1', E2'; ring]. }
  apply Qcmult_integral_l in Ha, Hb; try exact Hd.
  split.
  - rewrite <- (Qcplus_0_r a'), <- Ha. ring.
  - rewrite <- (Qcplus_0_r b'), <- Hb. ring.
Qed.

Lemma window_weights_total win :
  dist_window win <> [] -> exists weights, window_weights win = Ok weights.
Proof.
  intros H. unfold window_weights.
  destruct (max_total _ H) as [m ->]; simpl.
  destruct (Qclt_le_dec m eps); eauto.
Qed.

Lemma local_fit_total win :
  dist_window win <> [] -> exists ab, local_fit win = Ok ab.
Proof.
  intros H. unfold local_fit.
  destruct (window_weights_total win H) as (w & ->); simpl;
    match goal with |- context [linalg_solve ?e] =>
      destruct (linalg_solve_cases e) as [[_ ->] | [_ [ab ->]]] end; eauto.
Qed.

Lemma estimate_total xs ys n b p :
  (1 <= n)%nat -> length xs = n -> length ys = n ->
  exists v, estimate xs ys n b p = Ok v.
Proof.
  intros Hn Lx Ly. unfold estimate.
  destruct (select_window xs ys n b p) as [win|] eqn:E;
    [| now rewrite select_window_total in E].
  simpl.
  destruct (select_window_length _ _ _ _ _ _ Lx Ly E) as (L & _ & _ & Ld).
  destruct (local_fit_total win) as [ab ->]; [|simpl; eauto].
  intros Hnil. rewrite Hnil in Ld. simpl in Ld. rewrite L in Ld.
  pose proof (num_points_in_window_bounds b n Hn). lia.
Qed.

(** The sorted copies of the observations. *)
Lemma sorted_observations y x :
  (length x <= length y)%nat ->
  exists xs ys,
    Np.take x (Np.argsort x) = Ok xs /\ Np.take y (Np.argsort x) = Ok ys
    /\ length xs = length x /\ length ys = length x.
Proof.
  intros L.
  exists (map (fun i => nth i x 0) (Np.argsort x)), (map (fun i => nth i y 0) (Np.argsort x)).
  rewrite !take_map, !length_map, argsort_length; auto.
  - intros i Hi. apply argsort_bound in Hi. lia.
  - intros i Hi. now apply argsort_bound in Hi.
Qed.

Lemma loess_1d_total y x points b :
  (length x <= length y)%nat ->
  exists est, loess_1d y x points b = Ok est /\ length est = length points.
Proof.
  intros L. unfold loess_1d.
  destruct (Nat.eqb_spec (length x) 0) as [E|E].
  - eexists; split; eauto. unfold Np.zeros_like. now rewrite length_map.
  - destruct (sorted_observations y x L) as (xs & ys & -> & -> & Lx & Ly). simpl.
    destruct (mapM_total (estimate xs ys (length x) b) points) as [est H].
    + intros p _. apply estimate_total; auto. lia.
    + exists est; split; auto. now apply mapM_length in H.
Qed.
End LoessFacts.

(** ** The local window and the singular fallback of [loess_1d] *)

Section LoessWindow.
Local Open Scope Qc_scope.
Import Loess.

Lemma window_at_total y x b p :
  (length x <= length y)%nat ->
  exists xs ys win,
    Np.take x (Np.argsort x) = Ok xs /\ Np.take y (Np.argsort x) = Ok ys
    /\ length xs = length x /\ length ys = length x
    /\ select_window xs ys (length x) b p = Ok win
    /\ window_at y x b p = Ok win.
Proof.
  intros L. destruct (sorted_observations y x L) as (xs & ys & Hx & Hy & Lx & Ly).
  exists xs, ys. eexists. unfold window_at. rewrite Hx, Hy. simpl.
  repeat split; auto; apply select_window_total; auto.
Qed.

(** [loess_1d] is the local fit in the window [window_at] of each query point. *)
Lemma loess_1d_window_at y x points b :
  x <> [] -> (length x <= length y)%nat ->
  loess_1d y x points b
  = mapM (fun p => win <- window_at y x b p ;;
                   ab <- local_fit win ;;
                   Ok (fst ab + snd ab * p)) points.
Proof.
  intros Hne L. unfold loess_1d.
  destruct (Nat.eqb_spec (length x) 0) as [E|_];
    [apply length_zero_iff_nil in E; contradiction|].
  destruct (sorted_observations y x L) as (xs & ys & Hx & Hy & _).
  rewrite Hx, Hy. simpl.
  induction points as [|p points IH]; simpl; [reflexivity|].
  rewrite IH. unfold estimate, window_at. now rewrite Hx, Hy.
Qed.

Lemma window_weights_length win weights :
  window_weights win = Ok weights ->
  length (dist_window win) = length (x_window win) ->
  length weights = length (x_window win).
Proof.
  unfold window_weights. intros H L.
  apply bind_ok in H as (m & _ & H).
  destruct (Qclt_le_dec m eps); inversion H; subst.
  - unfold Np.ones_like. now rewrite length_map.
  - now rewrite !length_map.
Qed.

(** In every window of [loess_1d] the matrices XTWX and XTWY hold the sums
    that [local_fit] solves for. *)
Lemma window_normal_equations y x b p win weights :
  x <> [] -> (length x <= length y)%nat ->
  window_at y x b p = Ok win -> window_weights win = Ok weights ->
  let e := normal_equations weights (x_window win) (y_window win) in
  XTWX weights (x_window win) = [[s_w e; s_wx e]; [s_wx e; s_wxx e]]
  /\ XTWY weights (x_window win) (y_window win) = [s_wy e :: nil; s_wxy e :: nil].
Proof.
  intros Hne L Hwin Hw.
  destruct (window_at_total y x b p L) as (xs & ys & win' & _ & _ & Lx & Ly & Hsel & Hwin').
  rewrite Hwin in Hwin'. inversion Hwin'; subst win'; clear Hwin'.
  destruct (select_window_length _ _ _ _ _ _ Lx Ly Hsel) as (Hlen & Hxw & Hyw & Hdw).
  assert (Hn : (1 <= length x)%nat) by (destruct x; [easy | simpl; lia]).
  pose proof (num_points_in_window_bounds b (length x) Hn) as Hb.
  apply normal_equations_matrix_form.
  - intros E. rewrite E in Hxw. simpl in Hxw. lia.
  - apply window_weights_length; [exact Hw | congruence].
  - congruence.
Qed.

Lemma firstn_NoDup {A} k (l : list A) : NoDup l -> NoDup (firstn k l).
Proof.
  intros H. rewrite <- (firstn_skipn k l) in H. now apply NoDup_app_remove_r in H.
Qed.

Lemma argsort_NoDup keys : NoDup (Np.argsort keys).
Proof.
  apply (Permutation_NoDup (Permutation_sym (argsort_perm keys))), seq_NoDup.
Qed.

(** *** C4 *)

(** C4 as stated fails for a single observation: the window holds that one
    observation, and max(2, min(n, ceil(b*n))) is 2. *)
Lemma loess_window_size_counterexample :
  exists win,
    window_at [Q2Qc 7] [Q2Qc 5] 1 0 = Ok win
    /\ length (nearest_indices win) = 1%nat
    /\ Z.max 2 (Z.min (Z.of_nat 1) (Np.ceil (1 * Np.of_nat 1))) = 2%Z.
Proof. eexists. split; [vm_compute; reflexivity|]. split; reflexivity. Qed.

(** C4, amended.  For [n >= 1] observations the window of every query point
    holds min(n, max(2, ceil(b*n))) distinct observations: the bound 2 is
    applied first and the bound [n] last.  This is max(2, min(n, ceil(b*n)))
    when [n >= 2], and 1 when [n = 1]. *)
Theorem loess_window_size (y x : list Qc) (b p : Qc) :
  x <> [] -> (length x <= length y)%nat ->
  let n := Z.of_nat (length x) in
  let c := Np.ceil (b * Np.of_nat (length x)) in
  exists win,
    window_at y x b p = Ok win
    /\ NoDup (nearest_indices win)
    /\ Z.of_nat (length (nearest_indices win)) = Z.min n (Z.max 2 c)
    /\ length (x_window win) = length (nearest_indices win)
    /\ length (y_window win) = length (nearest_indices win)
    /\ length (dist_window win) = length (nearest_indices win)
    /\ ((2 <= n)%Z -> Z.of_nat (length (nearest_indices win)) = Z.max 2 (Z.min n c))
    /\ (n = 1%Z -> length (nearest_indices win) = 1%nat).
Proof.
  intros Hne L n c.
  destruct (window_at_total y x b p L) as (xs & ys & win & _ & _ & Lx & Ly & Hsel & Hwin).
  exists win. split; [exact Hwin|].
  destruct (select_window_length _ _ _ _ _ _ Lx Ly Hsel) as (Hlen & Hxw & Hyw & Hdw).
  rewrite num_points_in_window_eq in Hlen. fold n c in Hlen.
  assert (Hn : (1 <= n)%Z) by (destruct x; [easy | subst n; simpl length; lia]).
  split.
  - rewrite (select_window_total xs ys _ b p Lx Ly) in Hsel.
    inversion Hsel; subst win; simpl. apply firstn_NoDup, argsort_NoDup.
  - repeat split; auto; lia.
Qed.

Lemma loess_window_size_witness :
  exists win,
    window_at [Q2Qc 1; Q2Qc 4; Q2Qc 9] [Q2Qc 0; Q2Qc 1; Q2Qc 2] (Q2Qc (1 # 2)) 1 = Ok win
    /\ length (nearest_indices win) = 2%nat.
Proof.
  destruct (loess_window_size [Q2Qc 1; Q2Qc 4; Q2Qc 9] [Q2Qc 0; Q2Qc 1; Q2Qc 2]
              (Q2Qc (1 # 2)) 1) as (win & H & _ & Hl & _);
    [discriminate | simpl; lia |].
  exists win. split; [exact H|].
  apply Nat2Z.inj. rewrite Hl. vm_compute. reflexivity.
Defined.

(** *** C5 *)



(** *** C6 *)

Lemma of_nat_S n : Np.of_nat (S n) = Np.of_nat n + 1.
Proof.
  unfold Np.of_nat, Np.of_Z, Qcplus. apply Q2Qc_eq_iff.
  cbn [this Q2Qc]. rewrite !Qred_correct.
  rewrite Nat2Z.inj_succ. unfold Z.succ. rewrite inject_Z_plus. reflexivity.
Qed.

Lemma sum_repeat v n : Np.sum (repeat v n) = Np.of_nat n * v.
Proof.
  induction n as [|n IH].
  - change (Np.of_nat 0) with 0. unfold Np.sum; simpl. ring.
  - rewrite of_nat_S. unfold Np.sum in *. simpl. rewrite IH. ring.
Qed.

Lemma mul_repeat a b n : Np.mul (repeat a n) (repeat b n) = repeat (a * b) n.
Proof. unfold Np.mul. induction n; simpl; [reflexivity | now f_equal]. Qed.

Lemma mul_ones_l l : Np.mul (repeat 1 (length l)) l = l.
Proof.
  unfold Np.mul. induction l as [|v l IH]; simpl; [reflexivity|].
  f_equal; [ring | exact IH].
Qed.

Lemma sum_perm l l' : Permutation l l' -> Np.sum l = Np.sum l'.
Proof.
  unfold Np.sum. induction 1; simpl; try congruence; ring.
Qed.

Lemma max_repeat d n : (1 <= n)%nat -> Np.max (repeat d n) = Ok d.
Proof.
  destruct n as [|n]; [lia|]. intros _. simpl. f_equal.
  induction n as [|n IH]; simpl; [reflexivity|].
  destruct (Qclt_le_dec d d) as [H|_]; [|exact IH].
  exfalso. exact (Qclt_not_eq _ _ H eq_refl).
Qed.

Lemma gather_repeat c n idx :
  (forall i, In i idx -> (i < n)%nat) ->
  map (fun i => nth i (repeat c n) 0) idx = repeat c (length idx).
Proof.
  induction idx as [|i idx IH]; simpl; intros H; [reflexivity|].
  f_equal.
  - apply (repeat_spec n). apply nth_In. rewrite repeat_length. apply H. now left.
  - apply IH. intros; apply H; now right.
Qed.

Lemma gather_perm (a : list Qc) idx :
  Permutation idx (seq 0 (length a)) ->
  Permutation (map (fun i => nth i a 0) idx) a.
Proof.
  intros H. apply (Permutation_map (fun i => nth i a 0)) in H.
  rewrite H. pose proof (take_seq a) as E.
  rewrite take_map in E by (intros i Hi; apply in_seq in Hi; lia).
  inversion E as [E']. rewrite !E'. reflexivity.
Qed.

Lemma eps_pos : 0 < eps.
Proof. unfold Qclt, eps. cbn [this Q2Qc]. rewrite !Qred_correct. reflexivity. Qed.

Lemma eps_le_of_nat n : (1 <= n)%nat -> eps <= Np.of_nat n.
Proof.
  intros H. unfold Qcle, eps, Np.of_nat, Np.of_Z. cbn [this Q2Qc].
  rewrite !Qred_correct. unfold Qle; simpl. lia.
Qed.

Lemma tricube_at_edge d : d <> 0 -> (1 - (d / d) ^ 3) ^ 3 = 0.
Proof.
  intros H. unfold Qcdiv. rewrite Qcmult_inv_r by exact H. simpl. ring.
Qed.

(** The window of a query point when all x-coordinates are [c] and the
    window spans the [n] observations. *)
Lemma constant_x_window y c n b p :
  (1 <= n)%nat -> length y = n -> num_points_in_window b n = Z.of_nat n ->
  exists ys win,
    Np.take (repeat c n) (Np.argsort (repeat c n)) = Ok (repeat c n)
    /\ Np.take y (Np.argsort (repeat c n)) = Ok ys
    /\ select_window (repeat c n) ys n b p = Ok win
    /\ window_at y (repeat c n) b p = Ok win
    /\ length (nearest_indices win) = n
    /\ x_window win = repeat c n
    /\ dist_window win = repeat (Qcabs (c - p)) n
    /\ Permutation (y_window win) y.
Proof.
  intros Hn Ly Hw.
  set (x := repeat c n).
  assert (Lx : length x = n) by apply repeat_length.
  assert (Hxs : Np.take x (Np.argsort x) = Ok x).
  { rewrite take_map by (intros i Hi; now apply argsort_bound in Hi).
    f_equal. unfold x. rewrite gather_repeat.
    - now rewrite argsort_length, repeat_length.
    - intros i Hi. apply argsort_bound in Hi. now rewrite repeat_length in Hi. }
  set (ys := map (fun i => nth i y 0) (Np.argsort x)).
  assert (Hys : Np.take y (Np.argsort x) = Ok ys).
  { apply take_map. intros i Hi. apply argsort_bound in Hi. lia. }
  assert (Lys : length ys = n) by (unfold ys; now rewrite length_map, argsort_length).
  assert (Pys : Permutation ys y).
  { apply gather_perm. rewrite Ly, <- Lx. apply argsort_perm. }
  pose proof (select_window_total x ys n b p Lx Lys) as Hsel. cbv zeta in Hsel.
  rewrite Hw, Nat2Z.id in Hsel.
  assert (Hdist : map (fun xi => Qcabs (xi - p)) x = repeat (Qcabs (c - p)) n).
  { unfold x. now rewrite map_repeat. }
  rewrite Hdist in Hsel.
  set (d := Qcabs (c - p)) in *.
  assert (Hnear : firstn n (Np.argsort (repeat d n)) = Np.argsort (repeat d n)).
  { apply firstn_all2. now rewrite argsort_length, repeat_length. }
  rewrite Hnear in Hsel.
  assert (Hbound : forall i, In i (Np.argsort (repeat d n)) -> (i < n)%nat).
  { intros i Hi. apply argsort_bound in Hi. now rewrite repeat_length in Hi. }
  assert (Ln : length (Np.argsort (repeat d n)) = n)
    by now rewrite argsort_length, repeat_length.
  exists ys. eexists. split; [exact Hxs|]. split; [exact Hys|]. split; [exact Hsel|].
  split; [unfold window_at; fold x; rewrite Hxs, Hys; simpl; rewrite Lx; exact Hsel|].
  simpl. unfold x. rewrite !gather_repeat by exact Hbound. rewrite Ln.
  do 3 (split; [reflexivity|]).
  rewrite <- Pys. apply gather_perm.
  rewrite Lys. pose proof (argsort_perm (repeat d n)) as P.
  now rewrite repeat_length in P.
Qed.

Lemma constant_x_weights win c d n :
  (1 <= n)%nat -> x_window win = repeat c n -> dist_window win = repeat d n ->
  window_weights win = Ok (repeat (uniform_weight d) n).
Proof.
  intros Hn Hx Hd. unfold window_weights, uniform_weight.
  rewrite Hd, max_repeat by exact Hn. unfold bind.
  destruct (Qclt_le_dec d eps) as [Hlt|Hle].
  - unfold Np.ones_like. rewrite Hx, map_repeat. reflexivity.
  - rewrite !map_repeat. cbv beta. rewrite tricube_at_edge; [reflexivity|].
    intros E. subst d. exact (Qcle_not_lt _ _ Hle eps_pos).
Qed.

Lemma constant_x_singular w0 c n yw :
  det (normal_equations (repeat w0 n) (repeat c n) yw) = 0.
Proof.
  unfold det, normal_equations; simpl.
  rewrite !mul_repeat, !sum_repeat. ring.
Qed.

Lemma mean_perm l l' : Permutation l l' -> Np.mean l = Np.mean l'.
Proof.
  intros H. unfold Np.mean.
  now rewrite (sum_perm _ _ H), (Permutation_length H).
Qed.

Lemma constant_x_fit win c d n y :
  (1 <= n)%nat -> length y = n ->
  x_window win = repeat c n -> dist_window win = repeat d n ->
  Permutation (y_window win) y ->
  local_fit win = Ok (Np.mean y, 0).
Proof.
  intros Hn Ly Hx Hd Hy. unfold local_fit.
  rewrite (constant_x_weights win c d n Hn Hx Hd). simpl.
  rewrite Hx.
  destruct (linalg_solve_cases
              (normal_equations (repeat (uniform_weight d) n) (repeat c n) (y_window win)))
    as [[_ ->] | [Hnz _]]; [|now rewrite constant_x_singular in Hnz].
  f_equal. unfold fallback, uniform_weight.
  assert (Lw : length (y_window win) = n) by now rewrite (Permutation_length Hy).
  rewrite sum_repeat.
  destruct (Qclt_le_dec d eps) as [Hlt|Hle].
  - destruct (Qclt_le_dec (Np.of_nat n * 1) eps) as [Habs|_].
    + exfalso. rewrite Qcmult_1_r in Habs.
      exact (Qcle_not_lt _ _ (eps_le_of_nat n Hn) Habs).
    + f_equal. rewrite <- Lw at 1. rewrite mul_ones_l, Qcmult_1_r.
      rewrite <- (mean_perm _ _ Hy). unfold Np.mean. now rewrite Lw.
  - destruct (Qclt_le_dec (Np.of_nat n * 0) eps) as [_|Habs].
    + f_equal. apply mean_perm, Hy.
    + exfalso. rewrite Qcmult_0_r in Habs. exact (Qcle_not_lt _ _ Habs eps_pos).
Qed.

(** C6 (constant x).  When all [n >= 1] x-coordinates are equal and the
    window spans the [n] observations, [loess_1d] returns the plain mean of [y]
    at every query point.  The weights of the window are uniform (all 1 or all
    0), the matrix XTWX is singular, and when the weights are not zero their
    weighted mean of the window's y-values is that mean. *)
Theorem loess_constant_x (y points : list Qc) (c b : Qc) (n : nat) :
  (1 <= n)%nat -> length y = n -> num_points_in_window b n = Z.of_nat n ->
  loess_1d y (repeat c n) points b = Ok (map (fun _ => Np.mean y) points)
  /\ forall p, In p points ->
     exists win w0,
       window_at y (repeat c n) b p = Ok win
       /\ length (nearest_indices win) = n
       /\ window_weights win = Ok (repeat w0 n)
       /\ det (normal_equations (repeat w0 n) (x_window win) (y_window win)) = 0
       /\ (w0 <> 0 ->
           Np.sum (Np.mul (repeat w0 n) (y_window win)) / Np.sum (repeat w0 n)
           = Np.mean y).
Proof.
  intros Hn Ly Hw. split.
  - unfold loess_1d. rewrite repeat_length.
    destruct (Nat.eqb_spec n 0) as [E|_]; [lia|].
    destruct (constant_x_window y c n b 0 Hn Ly Hw) as (ys & _ & -> & Hys & _).
    rewrite Hys. simpl.
    apply mapM_map. intros p _. unfold estimate.
    destruct (constant_x_window y c n b p Hn Ly Hw)
      as (ys' & win & _ & Hys' & Hsel & _ & _ & Hx & Hd & Hy).
    rewrite Hys in Hys'. inversion Hys'; subst ys'. rewrite Hsel. simpl.
    rewrite (constant_x_fit win c _ n y Hn Ly Hx Hd Hy). simpl.
    f_equal. ring.
  - intros p _.
    destruct (constant_x_window y c n b p Hn Ly Hw)
      as (ys & win & _ & _ & _ & Hwin & Hlen & Hx & Hd & Hy).
    exists win, (uniform_weight (Qcabs (c - p))).
    split; [exact Hwin|]. split; [exact Hlen|].
    split; [exact (constant_x_weights win c _ n Hn Hx Hd)|].
    split; [rewrite Hx; apply constant_x_singular|].
    unfold uniform_weight. destruct (Qclt_le_dec (Qcabs (c - p)) eps); [|easy].
    intros _.
    assert (Lw : length (y_window win) = n) by now rewrite (Permutation_length Hy).
    rewrite sum_repeat, Qcmult_1_r. rewrite <- Lw at 1. rewrite mul_ones_l.
    rewrite <- (mean_perm _ _ Hy). unfold Np.mean. now rewrite Lw.
Qed.

Lemma loess_constant_x_witness :
  loess_1d [Q2Qc 1; Q2Qc 2; Q2Qc 6] (repeat (Q2Qc 3) 3) [0; Q2Qc 3] 1
  = Ok (map (fun _ => Np.mean [Q2Qc 1; Q2Qc 2; Q2Qc 6]) [0; Q2Qc 3]).
Proof.
  apply (loess_constant_x [Q2Qc 1; Q2Qc 2; Q2Qc 6] [0; Q2Qc 3] (Q2Qc 3) 1 3);
    [lia | reflexivity | vm_compute; reflexivity].
Defined.

End LoessWindow.

(** ** [SimpleSTL.fit]: the loop invariant *)

Section STLFacts.
Local Open Scope Qc_scope.
Import STL.

Lemma add_sub_cancel (d s t : list Qc) :
  length s = length d -> length t = length d ->
  Np.add (Np.add s t) (Np.sub (Np.sub d s) t) = d.
Proof.
  unfold Np.add, Np.sub.
  revert s t; induction d as [|x d IH]; intros [|a s] [|b t]; simpl;
    intros Ls Lt; try easy.
  f_equal; [ring | apply IH; lia].
Qed.

Lemma add_zeros_l (d : list Qc) :
  Np.add (Np.add (Np.zeros (length d)) (Np.zeros (length d))) d = d.
Proof.
  unfold Np.add, Np.zeros.
  induction d as [|x d IH]; simpl; [reflexivity|]. f_equal; [ring | apply IH].
Qed.

Section LoopInvariant.
Variables (data times : list Qc) (period : Z) (s_span t_span : Qc).
Let n := length data.
Hypothesis times_length : length times = n.

Lemma smooth_subseries_total deseasonalized i acc :
  length deseasonalized = n -> length acc = n -> In i (range period) ->
  exists acc', smooth_subseries times n period s_span deseasonalized i acc = Ok acc'
               /\ length acc' = n.
Proof.
  intros Ld La Hi. unfold smooth_subseries.
  assert (Hp : (0 < Z.to_nat period)%nat).
  { unfold range in Hi. apply in_seq in Hi. lia. }
  set (idx := Np.arange i n (Z.to_nat period)).
  assert (Hb : forall j, In j idx -> (j < n)%nat)
    by (intros j; apply arange_bound; exact Hp).
  destruct (0 <? length idx)%nat; [|eauto].
  rewrite !take_map by (intros j Hj; rewrite ?times_length, ?Ld; auto). simpl.
  match goal with |- context [Loess.loess_1d ?y ?x ?pts ?b] =>
    destruct (loess_1d_total y x pts b) as (sm & -> & Lsm) end;
    [now rewrite !length_map|]. simpl.
  rewrite length_map in Lsm.
  destruct (put_total acc idx sm) as (acc' & -> & L'); auto.
  - intros j Hj. rewrite La. auto.
  - exists acc'; split; [reflexivity | lia].
Qed.

Lemma inner_pass_total outer_iter rw inner_iter c :
  length (c_trend c) = n ->
  exists c', inner_pass data times n period s_span t_span outer_iter rw inner_iter c
             = Ok c' /\ decomposes data c'.
Proof.
  intros Lt. unfold inner_pass.
  set (des := Np.sub data (c_trend c)).
  assert (Ld : length des = n) by (apply sub_length; fold n; lia).
  destruct (foldM_invariant (fun acc => length acc = n)
              (smooth_subseries times n period s_span des) (range period) (Np.zeros n))
    as (ss & -> & Lss).
  { intros i acc Hi La. now apply smooth_subseries_total. }
  { apply zeros_length. }
  simpl.
  destruct (loess_1d_total ss times times t_span) as (st & -> & Lst); [lia|]. simpl.
  assert (Lsea : length (Np.sub ss st) = n) by (rewrite sub_length; lia).
  assert (Ldet : length (Np.sub data (Np.sub ss st)) = n)
    by (rewrite sub_length; fold n; lia).
  destruct (loess_1d_total (Np.sub data (Np.sub ss st)) times times t_span)
    as (tr & -> & Ltr); [lia|]. simpl.
  eexists; split; [reflexivity|].
  unfold decomposes; simpl. fold n.
  repeat split; try lia.
  - rewrite !sub_length; fold n; lia.
  - apply add_sub_cancel; fold n; lia.
Qed.

Lemma iterations_total k m c :
  decomposes data c ->
  exists c', iterations data times n period s_span t_span k m c = Ok c'
             /\ decomposes data c'.
Proof.
  intros Hc. unfold iterations.
  apply foldM_invariant; [|exact Hc].
  intros oi c1 _ Hc1. unfold outer_pass.
  apply foldM_invariant; [|exact Hc1].
  intros ii c2 _ Hc2. apply inner_pass_total. apply Hc2.
Qed.

(** With no inner pass the loops leave the components as they are. *)
Lemma iterations_no_inner k m c :
  (m <= 0)%Z -> iterations data times n period s_span t_span k m c = Ok c.
Proof.
  intros Hm. unfold iterations, outer_pass, range.
  replace (Z.to_nat m) with 0%nat by lia. simpl.
  induction (seq 0 (Z.to_nat (k + 1))); simpl; auto.
Qed.
End LoopInvariant.

Lemma times_length (n : nat) : length (map Np.of_nat (seq 0 n)) = n.
Proof. now rewrite length_map, length_seq. Qed.

Lemma initial_decomposes data :
  decomposes data {| c_seasonal := Np.zeros (length data);
                     c_trend := Np.zeros (length data);
                     c_residual := data |}.
Proof.
  unfold decomposes; simpl. rewrite !zeros_length.
  repeat split. apply add_zeros_l.
Qed.

(** [fit] never raises; the components it stores add up to the series. *)
Lemma fit_total self data :
  exists self' c,
    fit self data = Ok self'
    /\ decomposes data c
    /\ seasonal self' = Some (c_seasonal c)
    /\ trend self' = Some (c_trend c)
    /\ residual self' = Some (c_residual c)
    /\ _data self' = Some data.
Proof.
  unfold fit. destruct (Nat.eqb_spec (length data) 0) as [E|E].
  - apply length_zero_iff_nil in E; subst data.
    exists (set_components (set_data self [] 0) [] [] []),
           {| c_seasonal := []; c_trend := []; c_residual := [] |}.
    unfold decomposes; simpl; repeat split.
  - cbv zeta.
    match goal with |- context [iterations ?d ?t ?n ?p ?ss ?ts ?k ?m ?c] =>
      destruct (iterations_total d t p ss ts (times_length _) k m c (initial_decomposes d))
        as (c' & -> & Hc') end.
    simpl. eexists; exists c'; repeat split; auto; apply Hc'.
Qed.

(** *** C1 *)

(** C1 (STL additive identity).  For every series and every configuration
    [fit] ends normally, the three components have the length of the series,
    and seasonal + trend + residual is the series, entry by entry (equality
    of rationals).  When no inner pass runs, seasonal and trend are all zero
    and the residual is the series. *)
Theorem stl_additive_identity (self : SimpleSTL) (data : list Qc) :
  exists self' s t r,
    fit self data = Ok self'
    /\ get_components self' = (Some s, Some t, Some r)
    /\ length s = length data /\ length t = length data /\ length r = length data
    /\ Np.add (Np.add s t) r = data
    /\ ((n_inner_iterations self <= 0)%Z ->
        s = Np.zeros (length data) /\ t = Np.zeros (length data) /\ r = data).
Proof.
  destruct (fit_total self data) as (self' & c & Hfit & (Ls & Lt & Lr & Hsum) & Hs & Ht & Hr & _).
  exists self', (c_seasonal c), (c_trend c), (c_residual c).
  unfold get_components. rewrite Hs, Ht, Hr.
  do 6 (split; [auto|]).
  intros Hm. revert Hfit Hs Ht Hr. unfold fit.
  destruct (Nat.eqb_spec (length data) 0) as [E|E].
  - apply length_zero_iff_nil in E; subst data.
    intros Hfit; inversion Hfit; subst self'; simpl.
    intros Hs Ht Hr. inversion Hs; inversion Ht; inversion Hr. auto.
  - cbv zeta. rewrite iterations_no_inner by first [exact Hm | apply times_length]. simpl.
    intros Hfit; inversion Hfit; subst self'; simpl.
    intros Hs Ht Hr. inversion Hs; inversion Ht; inversion Hr. auto.
Qed.

(** *** C2 *)

(** C2 (the low-pass parameters do not interfere).  Two runs of [fit] on
    one series from instances that differ only in [n_lowpass_bandwidth] and
    [lowpass_smoother_span] return the same seasonal, trend and residual.
    The low-pass span is stored by [fit] (the given one, or the window length
    over the series length), and the smoothing of step 3 is a [loess_1d] with
    the trend span. *)
Theorem lowpass_noninterference (self : SimpleSTL) (data : list Qc)
  (nlb nlb' : option Z) (ls ls' : option Qc) :
  decompose (set_lowpass self nlb ls) data = decompose (set_lowpass self nlb' ls') data
  /\ (exists self',
        fit (set_lowpass self nlb ls) data = Ok self'
        /\ (data <> [] ->
            let w := or_default nlb (default_n_lowpass_bandwidth (seasonal_period self)) in
            n_lowpass_bandwidth self' = Some w
            /\ lowpass_smoother_span self'
               = Some (or_default ls (Np.of_Z w / Np.of_nat (length data)))))
  /\ (forall times n period s_span t_span oi rw ii c c',
        inner_pass data times n period s_span t_span oi rw ii c = Ok c' ->
        exists seasonal_smoothed seasonal_trend,
          Loess.loess_1d seasonal_smoothed times times t_span = Ok seasonal_trend
          /\ c_seasonal c' = Np.sub seasonal_smoothed seasonal_trend).
Proof.
  split; [|split].
  - unfold decompose, fit.
    destruct (length data =? 0)%nat; [reflexivity|]. cbv zeta. simpl.
    case_iterations; reflexivity.
  - destruct (fit_total (set_lowpass self nlb ls) data) as (self' & c & Hfit & _).
    exists self'; split; [exact Hfit|]. intros Hne. revert Hfit. unfold fit.
    destruct (Nat.eqb_spec (length data) 0) as [E|E];
      [apply length_zero_iff_nil in E; contradiction|].
    cbv zeta.
    case_iterations; [|discriminate].
    intros H; inversion H; subst self'; simpl. auto.
  - intros times n period s_span t_span oi rw ii c c'. unfold inner_pass.
    intros H.
    apply bind_ok in H as (ss & _ & H).
    apply bind_ok in H as (st & Hst & H).
    apply bind_ok in H as (tr & _ & H).
    inversion H; subst c'; simpl. eauto.
Qed.

(** *** C3 *)

Lemma foldM_repeatM {A S} (body : A -> S -> result S) (f : S -> result S) xs st :
  (forall x s, body x s = f s) -> foldM body xs st = repeatM (length xs) f st.
Proof.
  intros H. revert st; induction xs as [|x xs IH]; simpl; intros st; [reflexivity|].
  rewrite H. destruct (f st); simpl; auto.
Qed.

Lemma repeatM_add {S} a b (f : S -> result S) st :
  repeatM (a + b) f st = bind (repeatM a f st) (repeatM b f).
Proof.
  revert st; induction a as [|a IH]; simpl; intros st; [reflexivity|].
  destruct (f st); simpl; auto.
Qed.

Lemma repeatM_mul {S} a b (f : S -> result S) st :
  repeatM (a * b) f st = repeatM a (repeatM b f) st.
Proof.
  revert st; induction a as [|a IH]; simpl; intros st; [reflexivity|].
  rewrite repeatM_add. destruct (repeatM b f st); simpl; auto.
Qed.

Lemma range_length k : length (range k) = Z.to_nat k.
Proof. apply length_seq. Qed.

(** The loops are [(k+1) * m] runs of one inner pass. *)
Lemma iterations_repeatM data times n period s_span t_span k m c :
  iterations data times n period s_span t_span k m c
  = repeatM (Z.to_nat (k + 1) * Z.to_nat m)
      (inner_pass data times n period s_span t_span 0 (Np.ones n) 0) c.
Proof.
  unfold iterations. rewrite repeatM_mul.
  rewrite (foldM_repeatM _
             (repeatM (Z.to_nat m)
                (inner_pass data times n period s_span t_span 0 (Np.ones n) 0))).
  - now rewrite range_length.
  - intros oi s. unfold outer_pass.
    rewrite (foldM_repeatM _ (inner_pass data times n period s_span t_span 0 (Np.ones n) 0)).
    + now rewrite range_length.
    + reflexivity.
Qed.

(** C3 (outer iterations collapse).  For [k >= 0] outer and [m >= 0] inner
    iterations, [fit] returns the components it returns for no outer iteration
    and [(k+1)*m] inner ones.  The outer loop runs [k+1] times; the
    robustness weights it builds are all 1 and the inner pass depends neither
    on them nor on the loop indices. *)
Theorem outer_iteration_collapse (self : SimpleSTL) (data : list Qc) (k m : Z) :
  (0 <= k)%Z -> (0 <= m)%Z ->
  decompose (set_iterations self m k) data
  = decompose (set_iterations self ((k + 1) * m) 0) data
  /\ length (range (n_outer_iterations (set_iterations self m k) + 1)) = (Z.to_nat k + 1)%nat
  /\ (forall times n period s_span t_span oi c,
        outer_pass data times n period s_span t_span m oi c
        = foldM (inner_pass data times n period s_span t_span oi (Np.ones n)) (range m) c
        /\ Forall (fun w => w = 1) (Np.ones n))
  /\ (forall times n period s_span t_span oi oi' rw rw' ii ii' c,
        inner_pass data times n period s_span t_span oi rw ii c
        = inner_pass data times n period s_span t_span oi' rw' ii' c).
Proof.
  intros Hk Hm. split; [|split; [|split]].
  - unfold decompose, fit.
    destruct (length data =? 0)%nat; [reflexivity|]. cbv zeta. simpl.
    rewrite !iterations_repeatM.
    replace (Z.to_nat (0 + 1) * Z.to_nat ((k + 1) * m))%nat
      with (Z.to_nat (k + 1) * Z.to_nat m)%nat by (rewrite Z2Nat.inj_mul; lia).
    match goal with |- context [repeatM ?a ?f ?c] => destruct (repeatM a f c) end;
      reflexivity.
  - simpl. rewrite range_length. lia.
  - intros. split; [reflexivity|].
    unfold Np.ones. apply Forall_forall. intros w Hw. now apply repeat_spec in Hw.
  - reflexivity.
Qed.

Lemma outer_iteration_collapse_witness :
  decompose (set_iterations (__init__ 2 None None None None None 2 0) 2 1)
    [Q2Qc 1; Q2Qc 5; Q2Qc 2; Q2Qc 7]
  = decompose (set_iterations (__init__ 2 None None None None None 2 0) ((1 + 1) * 2) 0)
      [Q2Qc 1; Q2Qc 5; Q2Qc 2; Q2Qc 7].
Proof.
  apply (outer_iteration_collapse (__init__ 2 None None None None None 2 0)
           [Q2Qc 1; Q2Qc 5; Q2Qc 2; Q2Qc 7] 1 2); lia.
Defined.
End STLFacts.
Section STLLifecycle.
Local Open Scope Qc_scope.
Import STL.

(** What [fit] does to the configuration attributes. *)
Lemma fit_configuration self data self' :
  fit self data = Ok self' ->
  seasonal_period self' = seasonal_period self
  /\ n_inner_iterations self' = n_inner_iterations self
  /\ n_outer_iterations self' = n_outer_iterations self
  /\ (data = [] -> smoothing self' = smoothing self)
  /\ (data <> [] ->
      let n := Np.of_nat (length data) in
      let ntb := or_default (n_trend_bandwidth self)
                   (default_n_trend_bandwidth (seasonal_period self)) in
      let nlb := or_default (n_lowpass_bandwidth self)
                   (default_n_lowpass_bandwidth (seasonal_period self)) in
      smoothing self'
      = (Some ntb, Some nlb,
         Some (or_default (seasonal_smoother_span self) (Q2Qc 7 / n)),
         Some (or_default (trend_smoother_span self) (Np.of_Z ntb / n)),
         Some (or_default (lowpass_smoother_span self) (Np.of_Z nlb / n)))).
Proof.
  unfold fit. destruct (Nat.eqb_spec (length data) 0) as [E|E].
  - intros H; inversion H; subst self'; clear H. simpl.
    repeat split; auto. intros Hne. apply length_zero_iff_nil in E. contradiction.
  - cbv zeta.
    case_iterations; [|discriminate].
    simpl. intros H; inversion H; subst self'; clear H. simpl.
    repeat split; auto. intros ->. contradiction.
Qed.

(** Once the five smoothing attributes are set, [fit] keeps them. *)
Lemma fit_keeps_smoothing self data self' ntb nlb ss ts ls :
  smoothing self = (Some ntb, Some nlb, Some ss, Some ts, Some ls) ->
  fit self data = Ok self' ->
  smoothing self' = smoothing self.
Proof.
  intros Hs Hfit.
  destruct (fit_configuration self data self' Hfit) as (_ & _ & _ & Hnil & Hcons).
  destruct data as [|v data]; [now apply Hnil|].
  rewrite Hcons by discriminate. cbv zeta.
  unfold smoothing in Hs. inversion Hs as [[H1 H2 H3 H4 H5]].
  unfold smoothing. rewrite H1, H2, H3, H4, H5. reflexivity.
Qed.

Lemma fits_keep_smoothing series self ntb nlb ss ts ls :
  smoothing self = (Some ntb, Some nlb, Some ss, Some ts, Some ls) ->
  exists self',
    fits self series = Ok self'
    /\ smoothing self' = smoothing self
    /\ seasonal_period self' = seasonal_period self
    /\ n_inner_iterations self' = n_inner_iterations self
    /\ n_outer_iterations self' = n_outer_iterations self.
Proof.
  unfold fits. revert self.
  induction series as [|data series IH]; intros self Hs; simpl; [eauto 6|].
  destruct (fit_total self data) as (s1 & c & Hfit & _). rewrite Hfit. simpl.
  pose proof (fit_keeps_smoothing _ _ _ _ _ _ _ _ Hs Hfit) as Hk.
  destruct (fit_configuration _ _ _ Hfit) as (Hp & Hi & Ho & _).
  destruct (IH s1) as (s' & -> & H1 & H2 & H3 & H4); [congruence|].
  exists s'. repeat split; congruence.
Qed.

(** *** C10 *)

(** C10 as stated fails twice.  A first [fit] on an empty series returns
    before the defaults are computed: the spans stay [None] and the next [fit]
    computes them from its own series.  And [fit] does change another
    constructor argument: [n_trend_bandwidth], [None] before, is 19 after. *)
Lemma default_spans_counterexample :
  exists s1 s2,
    fit (__init__ 12 None None None None None 2 0) [] = Ok s1
    /\ seasonal_smoother_span s1 = None
    /\ fit s1 [Q2Qc 1; Q2Qc 2] = Ok s2
    /\ seasonal_smoother_span s2 = Some (Q2Qc 7 / Np.of_nat 2)
    /\ n_trend_bandwidth (__init__ 12 None None None None None 2 0) = None
    /\ n_trend_bandwidth s2 = Some 19%Z.
Proof.
  eexists. eexists.
  split; [vm_compute; reflexivity|].
  split; [reflexivity|].
  split; [vm_compute; reflexivity|].
  split; [vm_compute; reflexivity|].
  split; reflexivity.
Qed.

(** C10, amended.  For an instance whose three spans are [None], the first
    [fit] on a non-empty series of length [n] stores 7/n, ntb/n and nlb/n as
    the seasonal, trend and low-pass spans, where ntb and nlb are the window
    lengths given to the constructor or, for [None], their defaults (stored
    as well).  Every later sequence of [fit] calls on that instance, on any
    series, ends normally and keeps these five values.  A [fit] on an empty
    series changes none of them, and no [fit] changes [seasonal_period],
    [n_inner_iterations] or [n_outer_iterations]. *)
Theorem default_spans_frozen (self : SimpleSTL) (data : list Qc) (later : list (list Qc)) :
  seasonal_smoother_span self = None ->
  trend_smoother_span self = None ->
  lowpass_smoother_span self = None ->
  data <> [] ->
  let n := Np.of_nat (length data) in
  let ntb := or_default (n_trend_bandwidth self)
               (default_n_trend_bandwidth (seasonal_period self)) in
  let nlb := or_default (n_lowpass_bandwidth self)
               (default_n_lowpass_bandwidth (seasonal_period self)) in
  (exists self0, fit self [] = Ok self0 /\ configuration self0 = configuration self)
  /\ exists self1,
       fit self data = Ok self1
       /\ smoothing self1
          = (Some ntb, Some nlb, Some (Q2Qc 7 / n),
             Some (Np.of_Z ntb / n), Some (Np.of_Z nlb / n))
       /\ exists self2,
            fits self1 later = Ok self2
            /\ smoothing self2 = smoothing self1
            /\ seasonal_period self2 = seasonal_period self
            /\ n_inner_iterations self2 = n_inner_iterations self
            /\ n_outer_iterations self2 = n_outer_iterations self.
Proof.
  intros Hss Hts Hls Hne n ntb nlb. split.
  - destruct (fit_total self []) as (s0 & c0 & H0 & _). exists s0. split; [exact H0|].
    destruct (fit_configuration _ _ _ H0) as (A & B & C & D & _).
    unfold configuration. now rewrite A, B, C, (D eq_refl).
  - destruct (fit_total self data) as (s1 & c1 & H1 & _). exists s1. split; [exact H1|].
    destruct (fit_configuration _ _ _ H1) as (A & B & C & _ & D).
    specialize (D Hne). cbv zeta in D. rewrite Hss, Hts, Hls in D. simpl in D.
    split; [exact D|].
    destruct (fits_keep_smoothing later s1 _ _ _ _ _ D) as (s2 & F & G1 & G2 & G3 & G4).
    exists s2. repeat split; congruence.
Qed.

Lemma default_spans_frozen_witness :
  exists self1,
    fit (__init__ 12 None None None None None 2 0) [Q2Qc 1; Q2Qc 2] = Ok self1
    /\ seasonal_smoother_span self1 = Some (Q2Qc 7 / Np.of_nat 2).
Proof.
  destruct (default_spans_frozen (__init__ 12 None None None None None 2 0)
              [Q2Qc 1; Q2Qc 2] [[Q2Qc 3; Q2Qc 4; Q2Qc 5]; []])
    as (_ & self1 & H & E & _); try reflexivity; [discriminate|].
  exists self1. split; [exact H|].
  unfold smoothing in E. now inversion E.
Defined.
End STLLifecycle.

(** ** The kernel matrix *)

Section KernelFacts.
Local Open Scope R_scope.
Import KRR.






Lemma same_width_spec x1 x2 :
  same_width x1 x2 = true
  <-> forall r1 r2, In r1 x1 -> In r2 x2 -> length r1 = length r2.
Proof.
  unfold same_width. rewrite forallb_forall. split.
  - intros H r1 r2 H1 H2. specialize (H r1 H1). rewrite forallb_forall in H.
    now apply Nat.eqb_eq, H.
  - intros H r1 H1. apply forallb_forall. intros r2 H2. apply Nat.eqb_eq. auto.
Qed.

Lemma sigma_nonzero (s : R) : s <> 0 -> 2 * s ^ 2 <> 0.
Proof.
  intros H E. assert (Hs : s * s = 0) by lra.
  apply Rmult_integral in Hs. tauto.
Qed.

(** The two exceptions of [_rbf_kernel] and the table it returns. *)
Lemma rbf_kernel_cases self x1 x2 :
  _rbf_kernel self x1 x2
  = if Req_dec_T (2 * sigma self ^ 2) 0 then Raise ZeroDivisionError
    else if same_width x1 x2
         then Ok (map (fun r1 => map (fun r2 => kernel_value (sigma self) r1 r2) x2) x1)
         else Raise ValueError.
Proof.
  unfold _rbf_kernel. destruct (Req_dec_T (2 * sigma self ^ 2) 0); [reflexivity|].
  destruct (same_width x1 x2); [|reflexivity].
  f_equal. rewrite !map_map. apply map_ext. intros r1. now rewrite !map_map.
Qed.

Lemma entry_table {A B} (f : A -> B -> R) (l1 : list A) (l2 : list B) dA dB i j :
  (i < length l1)%nat -> (j < length l2)%nat ->
  entry (map (fun a => map (fun b => f a b) l2) l1) i j = f (nth i l1 dA) (nth j l2 dB).
Proof.
  intros Hi Hj. unfold entry.
  rewrite (nth_indep _ [] ((fun a => map (fun b => f a b) l2) dA))
    by now rewrite length_map.
  rewrite (map_nth (fun a => map (fun b => f a b) l2)).
  rewrite (nth_indep _ 0 ((fun b => f (nth i l1 dA) b) dB)) by now rewrite length_map.
  now rewrite (map_nth (fun b => f (nth i l1 dA) b)).
Qed.

Lemma shape_table {A B} (f : A -> B -> R) (l1 : list A) (l2 : list B) :
  shape (length l1) (length l2) (map (fun a => map (fun b => f a b) l2) l1).
Proof.
  split; [apply length_map|].
  apply Forall_forall. intros row H. apply in_map_iff in H as (a & <- & _).
  apply length_map.
Qed.

(** *** C7 *)



(** *** C9 *)

(** [predict] on a trained instance never raises [RuntimeError]. *)
Lemma predict_trained self X_test :
  _trained self = true -> predict self X_test <> Raise RuntimeError.
Proof.
  intros Ht. unfold predict. rewrite Ht. simpl.
  destruct (X_train self) as [X|]; [|discriminate].
  destruct (length X =? 0)%nat; [discriminate|].
  unfold _rbf_kernel.
  destruct (Req_dec_T (2 * sigma self ^ 2) 0); [discriminate|].
  destruct (same_width X_test X); [|discriminate].
  destruct (same_width X X); [|discriminate]. simpl.
  destruct (y_train self) as [y|]; [|discriminate].
  unfold dual_weights, linalg_solve.
  destruct (length y =? _)%nat; [|discriminate].
  destruct (excluded_middle_informative _); discriminate.
Qed.

Lemma after_trained calls self :
  _trained (after self calls) = (_trained self || existsb is_fit calls)%bool.
Proof.
  unfold after. revert self; induction calls as [|c calls IH]; intros self; simpl.
  - now rewrite orb_false_r.
  - rewrite IH. destruct c; simpl;
      now destruct (_trained self), (existsb is_fit calls).
Qed.

(** C9 (lifecycle of [predict]).  After any sequence of [fit] and [predict]
    calls on a new instance, [predict] raises the not-trained error exactly
    when no [fit] is among them.  After a [fit] on a training set with no row,
    [predict] returns the zero vector with one entry per test row. *)
Theorem predict_lifecycle (sigma lambda_reg : R) (calls : list call) (X_test : matrix) :
  (predict (after (__init__ sigma lambda_reg) calls) X_test = Raise RuntimeError
   <-> existsb is_fit calls = false)
  /\ (forall self y,
        predict (fit self [] y) X_test = Ok (repeat 0 (length X_test))).
Proof.
  split; [split|].
  - intros H. destruct (existsb is_fit calls) eqn:E; [|reflexivity].
    exfalso. revert H. apply predict_trained. rewrite after_trained, E.
    apply orb_true_r.
  - intros E. unfold predict. rewrite after_trained, E. reflexivity.
  - intros self y. reflexivity.
Qed.
End KernelFacts.

(** ** Permuting the training rows *)

Section PermutationFacts.
Local Open Scope R_scope.
Import KRR.

Lemma perm_of_length n pi : perm_of n pi -> length pi = n.
Proof. intros H. now rewrite (Permutation_length H), length_seq. Qed.

Lemma perm_of_In n pi i : perm_of n pi -> (In i pi <-> (i < n)%nat).
Proof.
  intros H. split; intros Hi.
  - apply (Permutation_in _ H) in Hi. apply in_seq in Hi. lia.
  - apply (Permutation_in _ (Permutation_sym H)). apply in_seq. lia.
Qed.

Lemma perm_of_bound n pi i : perm_of n pi -> (i < n)%nat -> (nth i pi 0 < n)%nat.
Proof.
  intros H Hi. apply (perm_of_In n pi _ H). apply nth_In.
  now rewrite (perm_of_length n pi H).
Qed.

Lemma perm_of_NoDup n pi : perm_of n pi -> NoDup pi.
Proof. intros H. apply (Permutation_NoDup (Permutation_sym H)), seq_NoDup. Qed.

Lemma index_of_In j l :
  In j l -> (index_of j l < length l)%nat /\ nth (index_of j l) l 0%nat = j.
Proof.
  induction l as [|x l IH]; simpl; [easy|]. intros H.
  destruct (Nat.eqb_spec x j) as [E|E]; [split; [lia | exact E]|].
  destruct H as [H|H]; [contradiction|].
  destruct (IH H). split; [lia | assumption].
Qed.

Lemma index_of_nth l i :
  NoDup l -> (i < length l)%nat -> index_of (nth i l 0%nat) l = i.
Proof.
  revert i; induction l as [|x l IH]; simpl; intros i Hnd Hi; [lia|].
  inversion Hnd as [|? ? Hx Hl]; subst.
  destruct i as [|i]; [now rewrite Nat.eqb_refl|].
  destruct (Nat.eqb_spec x (nth i l 0%nat)) as [E|E].
  - exfalso. apply Hx. rewrite E. apply nth_In. lia.
  - f_equal. apply IH; [assumption | lia].
Qed.

Lemma NoDup_map_injective {A B} (f : A -> B) (l : list A) :
  (forall x y, In x l -> In y l -> f x = f y -> x = y) -> NoDup l -> NoDup (map f l).
Proof.
  intros Hf Hl. induction Hl as [|a l Ha Hl IH]; simpl; constructor.
  - intros H. apply in_map_iff in H as (b & E & Hb).
    apply Hf in E; [subst; contradiction | now right | now left].
  - apply IH. intros x y Hx Hy. apply Hf; now right.
Qed.

(** Every permutation has an inverse. *)
Lemma perm_of_inverse n pi :
  perm_of n pi ->
  exists qi, perm_of n qi
             /\ (forall i, (i < n)%nat -> nth (nth i pi 0%nat) qi 0%nat = i)
             /\ (forall i, (i < n)%nat -> nth (nth i qi 0%nat) pi 0%nat = i).
Proof.
  intros H. pose proof (perm_of_length n pi H) as L.
  set (qi := map (fun j => index_of j pi) (seq 0 n)).
  assert (Hq : forall i, (i < n)%nat -> nth i qi 0%nat = index_of i pi).
  { intros i Hi. unfold qi.
    rewrite (nth_indep _ 0%nat ((fun j => index_of j pi) 0%nat))
      by now rewrite length_map, length_seq.
    rewrite (map_nth (fun j => index_of j pi)), seq_nth by exact Hi. reflexivity. }
  exists qi. split; [|split].
  - unfold perm_of. apply NoDup_Permutation_bis.
    + unfold qi. apply NoDup_map_injective; [|apply seq_NoDup].
      intros a b Ha Hb E. apply in_seq in Ha, Hb.
      destruct (index_of_In a pi) as [_ Ea]; [apply (perm_of_In n pi a H); lia|].
      destruct (index_of_In b pi) as [_ Eb]; [apply (perm_of_In n pi b H); lia|].
      congruence.
    + unfold qi. now rewrite length_map.
    + intros k Hk. unfold qi in Hk. apply in_map_iff in Hk as (j & <- & Hj).
      apply in_seq in Hj. apply in_seq.
      destruct (index_of_In j pi) as [Lt _]; [apply (perm_of_In n pi j H); lia|]. lia.
  - intros i Hi. rewrite Hq by now apply perm_of_bound.
    apply index_of_nth; [now apply (perm_of_NoDup n) | lia].
  - intros i Hi. rewrite Hq by exact Hi.
    apply index_of_In. now apply (perm_of_In n pi i H).
Qed.

(** Sums do not depend on the order. *)
Lemma sum_Permutation l l' : Permutation l l' -> KRR.sum l = KRR.sum l'.
Proof. unfold KRR.sum. induction 1; simpl; try congruence; ring. Qed.

Lemma sum_reindex n pi (f : nat -> R) :
  perm_of n pi -> KRR.sum (map f pi) = KRR.sum (map f (seq 0 n)).
Proof. intros H. apply sum_Permutation, Permutation_map, H. Qed.

Lemma nth_take v idx i :
  (i < length idx)%nat -> nth i (take v idx) 0 = nth (nth i idx 0%nat) v 0.
Proof.
  intros Hi. unfold take.
  rewrite (nth_indep _ 0 ((fun k => nth k v 0) 0%nat)) by now rewrite length_map.
  now rewrite (map_nth (fun k => nth k v 0)).
Qed.

Lemma length_take v idx : length (take v idx) = length idx.
Proof. apply length_map. Qed.

Lemma vector_eta (v : vector) : v = map (fun i => nth i v 0) (seq 0 (length v)).
Proof.
  apply nth_ext with (d := 0) (d' := 0); [now rewrite length_map, length_seq|].
  intros i Hi.
  rewrite (nth_indep (map _ _) 0 ((fun i => nth i v 0) 0%nat))
    by now rewrite length_map, length_seq.
  now rewrite (map_nth (fun i => nth i v 0)), seq_nth.
Qed.

Lemma map2_map {A} (f : R -> R -> R) (g h : A -> R) l :
  KRR.map2 f (map g l) (map h l) = map (fun a => f (g a) (h a)) l.
Proof. induction l as [|a l IH]; simpl; [reflexivity | now rewrite IH]. Qed.

Lemma dot_indices n a b :
  length a = n -> length b = n ->
  dot a b = KRR.sum (map (fun i => nth i a 0 * nth i b 0) (seq 0 n)).
Proof.
  intros La Lb. unfold dot.
  rewrite (vector_eta a) at 1. rewrite (vector_eta b) at 1.
  rewrite La, Lb. now rewrite map2_map.
Qed.

Lemma dot_take n pi a b :
  perm_of n pi -> length a = n -> length b = n ->
  dot (take a pi) (take b pi) = dot a b.
Proof.
  intros H La Lb. rewrite (dot_indices n a b La Lb).
  unfold dot, take. rewrite map2_map. now apply sum_reindex.
Qed.

(** Two inverse permutations undo each other on vectors. *)
Lemma take_take n pi qi v :
  length pi = n -> length qi = n -> length v = n ->
  (forall i, (i < n)%nat -> (nth i qi 0 < n)%nat) ->
  (forall i, (i < n)%nat -> nth (nth i qi 0%nat) pi 0%nat = i) ->
  take (take v pi) qi = v.
Proof.
  intros Lp Lq Lv Hb Hinv.
  apply nth_ext with (d := 0) (d' := 0); [now rewrite length_take, Lq, Lv|].
  intros i Hi. rewrite length_take, Lq in Hi.
  rewrite nth_take by lia. rewrite nth_take by (rewrite Lp; auto).
  now rewrite Hinv.
Qed.

Lemma shape_row n m M i : shape n m M -> (i < n)%nat -> length (nth i M []) = m.
Proof.
  intros [L F] Hi. rewrite Forall_forall in F. apply F, nth_In. lia.
Qed.

Lemma shape_permute n pi M : length pi = n -> shape n n (permute pi M).
Proof.
  intros L. split; [unfold permute; now rewrite length_map|].
  apply Forall_forall. intros row H. unfold permute in H.
  apply in_map_iff in H as (i & <- & _). now rewrite length_take.
Qed.

Lemma nth_matvec M v i :
  (i < length M)%nat -> nth i (matvec M v) 0 = dot (nth i M []) v.
Proof.
  intros Hi. unfold matvec.
  rewrite (nth_indep _ 0 ((fun row => dot row v) [])) by now rewrite length_map.
  now rewrite (map_nth (fun row => dot row v)).
Qed.

Lemma length_matvec M v : length (matvec M v) = length M.
Proof. apply length_map. Qed.

(** Permuting a matrix and a vector alike permutes their product. *)
Lemma matvec_permute n pi A v :
  perm_of n pi -> shape n n A -> length v = n ->
  matvec (permute pi A) (take v pi) = take (matvec A v) pi.
Proof.
  intros H HA Lv. unfold matvec at 1, permute. rewrite map_map.
  unfold take at 3. apply map_ext_in. intros i Hi.
  apply (perm_of_In n pi i H) in Hi.
  rewrite nth_matvec by (destruct HA as [-> _]; exact Hi).
  apply (dot_take n); auto. now apply (shape_row n n A).
Qed.

Lemma take_injective n pi v w :
  perm_of n pi -> length v = n -> length w = n ->
  take v pi = take w pi -> v = w.
Proof.
  intros H Lv Lw E.
  destruct (perm_of_inverse n pi H) as (qi & Hq & _ & Hinv).
  rewrite <- (take_take n pi qi v), <- (take_take n pi qi w); try congruence;
    auto using perm_of_length, perm_of_bound.
Qed.

Lemma take_surjective n pi w :
  perm_of n pi -> length w = n -> exists v, length v = n /\ take v pi = w.
Proof.
  intros H Lw.
  destruct (perm_of_inverse n pi H) as (qi & Hq & Hinv & _).
  exists (take w qi). split; [rewrite length_take; now apply perm_of_length|].
  apply (take_take n qi pi w); auto using perm_of_length, perm_of_bound.
Qed.

Lemma invertible_permute n pi A :
  perm_of n pi -> shape n n A -> invertible A -> invertible (permute pi A).
Proof.
  intros H HA Hinv b' Lb'.
  pose proof (perm_of_length n pi H) as Lp.
  assert (LA : length A = n) by apply HA.
  assert (LP : length (permute pi A) = n) by (unfold permute; now rewrite length_map).
  rewrite LP in *.
  destruct (take_surjective n pi b' H Lb') as (b & Lb & Eb).
  destruct (Hinv b) as (a & [La Ea] & Ua); [congruence|].
  rewrite LA in La.
  exists (take a pi). split; [split|].
  - now rewrite length_take.
  - rewrite (matvec_permute n) by assumption. now rewrite Ea.
  - intros x' [Lx' Ex'].
    destruct (take_surjective n pi x' H Lx') as (x & Lx & Ex).
    rewrite <- Ex. f_equal. apply Ua. split; [congruence|].
    apply (take_injective n pi); auto.
    + rewrite length_matvec. exact LA.
    + rewrite <- (matvec_permute n) by assumption. rewrite Ex. congruence.
Qed.

Lemma matrix_ext n m (A B : matrix) :
  shape n m A -> shape n m B ->
  (forall i j, (i < n)%nat -> (j < m)%nat -> entry A i j = entry B i j) -> A = B.
Proof.
  intros HA HB E.
  apply nth_ext with (d := []) (d' := []);
    [destruct HA as [-> _], HB as [-> _]; reflexivity|].
  intros i Hi. destruct HA as [LA FA]. rewrite LA in Hi.
  pose proof (shape_row n m A i (conj LA FA) Hi) as Ra.
  pose proof (shape_row n m B i HB Hi) as Rb.
  apply nth_ext with (d := 0) (d' := 0); [congruence|].
  intros j Hj. rewrite Ra in Hj. now apply E.
Qed.

Lemma entry_permute n pi M i j :
  length pi = n -> (i < n)%nat -> (j < n)%nat ->
  entry (permute pi M) i j = entry M (nth i pi 0%nat) (nth j pi 0%nat).
Proof.
  intros L Hi Hj. unfold entry, permute.
  rewrite (nth_indep _ [] ((fun i => take (nth i M []) pi) 0%nat))
    by (rewrite length_map; lia).
  rewrite (map_nth (fun i => take (nth i M []) pi)).
  rewrite nth_take by lia. reflexivity.
Qed.

Lemma permute_permute n pi qi A :
  perm_of n pi -> perm_of n qi -> shape n n A ->
  (forall i, (i < n)%nat -> nth (nth i qi 0%nat) pi 0%nat = i) ->
  permute qi (permute pi A) = A.
Proof.
  intros Hp Hq HA Hinv.
  pose proof (perm_of_length n pi Hp) as Lp.
  pose proof (perm_of_length n qi Hq) as Lq.
  apply (matrix_ext n n); [now apply shape_permute | exact HA |].
  intros i j Hi Hj.
  rewrite (entry_permute n qi) by assumption.
  rewrite (entry_permute n pi) by auto using perm_of_bound.
  now rewrite !Hinv.
Qed.

Lemma invertible_permute_iff n pi A :
  perm_of n pi -> shape n n A -> invertible A <-> invertible (permute pi A).
Proof.
  intros H HA. split; [now apply (invertible_permute n)|].
  destruct (perm_of_inverse n pi H) as (qi & Hq & _ & Hinv).
  intros HP. rewrite <- (permute_permute n pi qi A) by assumption.
  apply (invertible_permute n); auto. apply shape_permute. now apply perm_of_length.
Qed.

(** [np.linalg.solve] on a permuted system returns the permuted solution. *)
Lemma linalg_solve_permute n pi A b :
  perm_of n pi -> shape n n A -> length b = n ->
  linalg_solve (permute pi A) (take b pi)
  = match linalg_solve A b with
    | Ok alpha => Ok (take alpha pi)
    | Raise e => Raise e
    end.
Proof.
  intros H HA Lb. unfold linalg_solve.
  pose proof (perm_of_length n pi H) as Lp.
  assert (LA : length A = n) by apply HA.
  assert (LP : length (permute pi A) = n) by (unfold permute; now rewrite length_map).
  rewrite length_take, LP, LA, Lp, Lb, Nat.eqb_refl.
  destruct (excluded_middle_informative (invertible A)) as [Hi|Hn];
    destruct (excluded_middle_informative (invertible (permute pi A))) as [Hi'|Hn'];
    cbv beta iota.
  - apply f_equal.
    match goal with |- epsilon ?i ?P = take (epsilon ?j ?Q) pi =>
      pose proof (epsilon_spec i P) as S'; pose proof (epsilon_spec j Q) as S;
      set (alpha' := epsilon i P) in *; set (alpha := epsilon j Q) in * end.
    destruct (Hi b) as (a & Ha & _); [congruence|].
    rewrite LA in Ha. destruct S as [La Ea]; [exists a; exact Ha|].
    destruct (Hi' (take b pi)) as (a' & Ha' & Ua'); [rewrite length_take; congruence|].
    rewrite LP in Ha', Ua'.
    destruct S' as [La' Ea']; [exists a'; exact Ha'|].
    transitivity a'; [symmetry; apply Ua'; now split|].
    apply Ua'. split; [now rewrite length_take|].
    rewrite (matvec_permute n) by assumption. now rewrite Ea.
  - exfalso. apply Hn'. now apply (invertible_permute n).
  - exfalso. apply Hn. now apply (invertible_permute_iff n pi A).
  - reflexivity.
Qed.
End PermutationFacts.

(** ** Square matrices by their entries; the pseudo-inverse is unique *)

Section MatrixAlgebra.
Local Open Scope R_scope.
Import KRR.
Variable n : nat.

Lemma bigsum_ext m (f g : nat -> R) :
  (forall k, (k < m)%nat -> f k = g k) -> bigsum m f = bigsum m g.
Proof.
  induction m as [|m IH]; simpl; intros H; [reflexivity|].
  rewrite IH by (intros; apply H; lia). now rewrite H by lia.
Qed.

Lemma bigsum_plus m (f g : nat -> R) :
  bigsum m (fun k => f k + g k) = bigsum m f + bigsum m g.
Proof. induction m as [|m IH]; simpl; [ring | rewrite IH; ring]. Qed.

Lemma bigsum_scal_l m c (f : nat -> R) :
  bigsum m (fun k => c * f k) = c * bigsum m f.
Proof. induction m as [|m IH]; simpl; [ring | rewrite IH; ring]. Qed.

Lemma bigsum_scal_r m c (f : nat -> R) :
  bigsum m (fun k => f k * c) = bigsum m f * c.
Proof. induction m as [|m IH]; simpl; [ring | rewrite IH; ring]. Qed.

Lemma bigsum_zero m : bigsum m (fun _ => 0) = 0.
Proof. induction m as [|m IH]; simpl; [reflexivity | rewrite IH; ring]. Qed.

Lemma bigsum_swap m p (f : nat -> nat -> R) :
  bigsum m (fun i => bigsum p (fun j => f i j))
  = bigsum p (fun j => bigsum m (fun i => f i j)).
Proof.
  induction m as [|m IH]; simpl.
  - now rewrite bigsum_zero.
  - rewrite IH. now rewrite <- bigsum_plus.
Qed.

Lemma bigsum_sum m (f : nat -> R) : bigsum m f = KRR.sum (map f (seq 0 m)).
Proof.
  induction m as [|m IH]; simpl bigsum; [reflexivity|].
  rewrite seq_S, map_app, IH. simpl.
  generalize (map f (seq 0 m)). intros l. unfold KRR.sum.
  induction l as [|x l IHl]; simpl; [ring | rewrite <- IHl; ring].
Qed.

Lemma list_eta {A} (d : A) (l : list A) :
  l = map (fun i => nth i l d) (seq 0 (length l)).
Proof.
  apply nth_ext with (d := d) (d' := d); [now rewrite length_map, length_seq|].
  intros i Hi.
  rewrite (nth_indep (map _ _) d ((fun i => nth i l d) 0%nat))
    by now rewrite length_map, length_seq.
  now rewrite (map_nth (fun i => nth i l d)), seq_nth.
Qed.

(** A sum over [k < n] may be taken along a permutation. *)
Lemma bigsum_reindex pi (f : nat -> R) :
  perm_of n pi -> bigsum n (fun k => f (nth k pi 0%nat)) = bigsum n f.
Proof.
  intros H. rewrite !bigsum_sum.
  rewrite <- (sum_reindex n pi f H).
  assert (E : map (fun k => nth k pi 0%nat) (seq 0 n) = pi).
  { rewrite <- (perm_of_length n pi H). symmetry. apply list_eta. }
  rewrite <- (map_map (fun k => nth k pi 0%nat) f). now rewrite E.
Qed.

#[local] Instance meq_Equivalence : Equivalence (meq n).
Proof.
  split.
  - intros f i j _ _. reflexivity.
  - intros f g H i j Hi Hj. symmetry. now apply H.
  - intros f g h H1 H2 i j Hi Hj. rewrite H1, H2; auto.
Qed.

#[local] Instance fmul_Proper : Proper (meq n ==> meq n ==> meq n) (fmul n).
Proof.
  intros f f' Hf g g' Hg i j Hi Hj. unfold fmul.
  apply bigsum_ext. intros k Hk. now rewrite Hf, Hg.
Qed.

#[local] Instance ftr_Proper : Proper (meq n ==> meq n) ftr.
Proof. intros f f' Hf i j Hi Hj. unfold ftr. now apply Hf. Qed.

Lemma fmul_assoc f g h : meq n (fmul n (fmul n f g) h) (fmul n f (fmul n g h)).
Proof.
  intros i j _ _. unfold fmul.
  rewrite (bigsum_ext n _ (fun k => bigsum n (fun l => f i l * g l k * h k j)))
    by (intros; now rewrite bigsum_scal_r).
  rewrite bigsum_swap. apply bigsum_ext. intros l _.
  rewrite <- bigsum_scal_l. apply bigsum_ext. intros; ring.
Qed.

Lemma ftr_fmul f g : meq n (ftr (fmul n f g)) (fmul n (ftr g) (ftr f)).
Proof.
  intros i j _ _. unfold ftr, fmul. apply bigsum_ext. intros; ring.
Qed.

Lemma penrose_left a b c : penrose n a b -> penrose n a c -> meq n (fmul n a b) (fmul n a c).
Proof.
  intros (B1 & B2 & B3 & B4) (C1 & C2 & C3 & C4).
  assert (E1 : meq n (fmul n (fmul n a c) (fmul n a b)) (fmul n a b)).
  { rewrite <- fmul_assoc. now rewrite C1. }
  assert (E2 : meq n (fmul n (fmul n a b) (fmul n a c)) (fmul n a c)).
  { rewrite <- fmul_assoc. now rewrite B1. }
  rewrite <- E1. rewrite <- C3 at 1. rewrite <- B3 at 1.
  rewrite <- ftr_fmul. rewrite E2. exact C3.
Qed.

Lemma penrose_right a b c : penrose n a b -> penrose n a c -> meq n (fmul n b a) (fmul n c a).
Proof.
  intros (B1 & B2 & B3 & B4) (C1 & C2 & C3 & C4).
  assert (E1 : meq n (fmul n (fmul n b a) (fmul n c a)) (fmul n b a)).
  { rewrite fmul_assoc. rewrite <- (fmul_assoc a c a). now rewrite C1. }
  assert (E2 : meq n (fmul n (fmul n c a) (fmul n b a)) (fmul n c a)).
  { rewrite fmul_assoc. rewrite <- (fmul_assoc a b a). now rewrite B1. }
  rewrite <- E1. rewrite <- B4 at 1. rewrite <- C4 at 1.
  rewrite <- ftr_fmul. rewrite E2. exact C4.
Qed.

Lemma penrose_unique a b c : penrose n a b -> penrose n a c -> meq n b c.
Proof.
  intros Hb Hc.
  pose proof (penrose_left a b c Hb Hc) as L.
  pose proof (penrose_right a b c Hb Hc) as Rt.
  destruct Hb as (_ & B2 & _), Hc as (_ & C2 & _).
  rewrite <- B2. rewrite fmul_assoc. rewrite L. rewrite <- fmul_assoc.
  rewrite Rt. exact C2.
Qed.
End MatrixAlgebra.

(** ** The pseudo-inverse of a permuted matrix *)

Section PinvPermute.
Local Open Scope R_scope.
Import KRR.
Variable n : nat.
Variable pi : list nat.
Hypothesis pi_perm : perm_of n pi.

#[local] Existing Instance meq_Equivalence.
#[local] Existing Instance fmul_Proper.
#[local] Existing Instance ftr_Proper.

Lemma fconj_meq f g : meq n f g -> meq n (fconj pi f) (fconj pi g).
Proof.
  intros H i j Hi Hj. unfold fconj. apply H; now apply perm_of_bound.
Qed.

Lemma fmul_fconj f g : meq n (fmul n (fconj pi f) (fconj pi g)) (fconj pi (fmul n f g)).
Proof.
  intros i j _ _. unfold fmul, fconj.
  apply (bigsum_reindex n pi
           (fun k => f (nth i pi 0%nat) k * g k (nth j pi 0%nat)) pi_perm).
Qed.

Lemma penrose_meq a a' b b' :
  meq n a a' -> meq n b b' -> penrose n a b -> penrose n a' b'.
Proof.
  intros Ha Hb (P1 & P2 & P3 & P4). unfold penrose.
  rewrite <- Ha, <- Hb. auto.
Qed.

Lemma penrose_fconj a b : penrose n a b -> penrose n (fconj pi a) (fconj pi b).
Proof.
  intros (P1 & P2 & P3 & P4). unfold penrose.
  rewrite !fmul_fconj. repeat split.
  - now apply fconj_meq.
  - now apply fconj_meq.
  - apply (fconj_meq (ftr (fmul n a b))). exact P3.
  - apply (fconj_meq (ftr (fmul n b a))). exact P4.
Qed.

Lemma entry_permute_fconj M : meq n (entry (permute pi M)) (fconj pi (entry M)).
Proof.
  intros i j Hi Hj. apply (entry_permute n); auto. now apply perm_of_length.
Qed.

Lemma is_pinv_penrose A B :
  length A = n -> is_pinv A B <-> shape n n B /\ penrose n (entry A) (entry B).
Proof. intros L. unfold is_pinv, penrose. rewrite L. reflexivity. Qed.

Lemma length_permute M : length (permute pi M) = n.
Proof. unfold permute. rewrite length_map. now apply perm_of_length. Qed.

Lemma is_pinv_permute A B :
  length A = n -> is_pinv A B -> is_pinv (permute pi A) (permute pi B).
Proof.
  intros L H. apply (is_pinv_penrose A B L) in H as [_ P].
  apply is_pinv_penrose; [apply length_permute|].
  split; [apply shape_permute; now apply perm_of_length|].
  apply (penrose_meq (fconj pi (entry A)) _ (fconj pi (entry B)) _).
  - symmetry. apply entry_permute_fconj.
  - symmetry. apply entry_permute_fconj.
  - now apply penrose_fconj.
Qed.
End PinvPermute.

(** ** Every matrix has a pseudo-inverse *)

Section PinvExists.
Local Open Scope R_scope.
Import KRR.

Lemma fext (f g : fun_matrix) : (forall i j, f i j = g i j) -> f = g.
Proof. intros H. apply functional_extensionality; intros i. apply functional_extensionality; intros j. apply H. Qed.

Lemma bigsum_minus m (f g : nat -> R) :
  bigsum m (fun k => f k - g k) = bigsum m f - bigsum m g.
Proof. induction m as [|m IH]; simpl; [ring | rewrite IH; ring]. Qed.
Lemma bigsum_zero_ext m f : (forall k, (k < m)%nat -> f k = 0) -> bigsum m f = 0.
Proof. intros H. rewrite (bigsum_ext m f (fun _ => 0) H). apply bigsum_zero. Qed.

(** *** algebra of products *)
Lemma fmul_assoc_gen p q f g h : fmul q (fmul p f g) h = fmul p f (fmul q g h).
Proof.
  apply fext; intros i j. unfold fmul.
  rewrite (bigsum_ext q _ (fun k => bigsum p (fun l => f i l * g l k * h k j)))
    by (intros; now rewrite bigsum_scal_r).
  rewrite bigsum_swap. apply bigsum_ext. intros l _.
  rewrite <- bigsum_scal_l. apply bigsum_ext. intros; ring.
Qed.
Lemma ftr_fmul_gen p f g : ftr (fmul p f g) = fmul p (ftr g) (ftr f).
Proof. apply fext; intros i j. unfold ftr, fmul. apply bigsum_ext. intros; ring. Qed.
Lemma ftr_ftr f : ftr (ftr f) = f.
Proof. reflexivity. Qed.
Lemma ftr_fadd f g : ftr (fadd f g) = fadd (ftr f) (ftr g).
Proof. reflexivity. Qed.
Lemma ftr_fsub f g : ftr (fsub f g) = fsub (ftr f) (ftr g).
Proof. reflexivity. Qed.
Lemma ftr_fscal c f : ftr (fscal c f) = fscal c (ftr f).
Proof. reflexivity. Qed.
Lemma fmul_fadd_l p f g h : fmul p (fadd f g) h = fadd (fmul p f h) (fmul p g h).
Proof.
  apply fext; intros i j. unfold fmul, fadd. rewrite <- bigsum_plus.
  apply bigsum_ext; intros; ring.
Qed.
Lemma fmul_fadd_r p f g h : fmul p f (fadd g h) = fadd (fmul p f g) (fmul p f h).
Proof.
  apply fext; intros i j. unfold fmul, fadd. rewrite <- bigsum_plus.
  apply bigsum_ext; intros; ring.
Qed.
Lemma fmul_fsub_l p f g h : fmul p (fsub f g) h = fsub (fmul p f h) (fmul p g h).
Proof.
  apply fext; intros i j. unfold fmul, fsub. rewrite <- bigsum_minus.
  apply bigsum_ext; intros; ring.
Qed.
Lemma fmul_fsub_r p f g h : fmul p f (fsub g h) = fsub (fmul p f g) (fmul p f h).
Proof.
  apply fext; intros i j. unfold fmul, fsub. rewrite <- bigsum_minus.
  apply bigsum_ext; intros; ring.
Qed.
Lemma fmul_fscal_l p c f g : fmul p (fscal c f) g = fscal c (fmul p f g).
Proof.
  apply fext; intros i j. unfold fmul, fscal. rewrite <- bigsum_scal_l.
  apply bigsum_ext; intros; ring.
Qed.
Lemma fmul_fscal_r p c f g : fmul p f (fscal c g) = fscal c (fmul p f g).
Proof.
  apply fext; intros i j. unfold fmul, fscal. rewrite <- bigsum_scal_l.
  apply bigsum_ext; intros; ring.
Qed.
Lemma fmul_fzero_l p g : fmul p fzero g = fzero.
Proof. apply fext; intros i j. unfold fmul, fzero. apply bigsum_zero_ext. intros; ring. Qed.
Lemma fmul_fzero_r p f : fmul p f fzero = fzero.
Proof. apply fext; intros i j. unfold fmul, fzero. apply bigsum_zero_ext. intros; ring. Qed.

(** *** supports *)
Lemma supported_fmul r p c f g :
  supported r p f -> supported p c g -> supported r c (fmul p f g).
Proof.
  intros Hf Hg i j [H|H]; unfold fmul; apply bigsum_zero_ext; intros k _.
  - rewrite (Hf i k) by now left. ring.
  - rewrite (Hg k j) by now right. ring.
Qed.
Lemma supported_ftr r c f : supported r c f -> supported c r (ftr f).
Proof. intros H i j Hij. apply H. tauto. Qed.
Lemma supported_fadd r c f g : supported r c f -> supported r c g -> supported r c (fadd f g).
Proof. intros Hf Hg i j H. unfold fadd. rewrite Hf, Hg by assumption. ring. Qed.
Lemma supported_fsub r c f g : supported r c f -> supported r c g -> supported r c (fsub f g).
Proof. intros Hf Hg i j H. unfold fsub. rewrite Hf, Hg by assumption. ring. Qed.
Lemma supported_fscal r c t f : supported r c f -> supported r c (fscal t f).
Proof. intros Hf i j H. unfold fscal. rewrite Hf by assumption. ring. Qed.
Lemma supported_clip r c f : supported r c (clip r c f).
Proof.
  intros i j H. unfold clip.
  destruct (Nat.ltb_spec i r), (Nat.ltb_spec j c); simpl; try reflexivity. lia.
Qed.
Lemma supported_shiftcol r k a : supported r 1 a -> supported r (S k) (shiftcol k a).
Proof.
  intros Ha i j H. unfold shiftcol. destruct (Nat.eqb_spec j k); [|reflexivity].
  apply Ha. lia.
Qed.
Lemma supported_shiftrow c k b : supported 1 c b -> supported (S k) c (shiftrow k b).
Proof.
  intros Hb i j H. unfold shiftrow. destruct (Nat.eqb_spec i k); [|reflexivity].
  apply Hb. lia.
Qed.
Lemma supported_weaken r c r' c' f :
  (r <= r')%nat -> (c <= c')%nat -> supported r c f -> supported r' c' f.
Proof. intros Hr Hc H i j Hij. apply H. lia. Qed.

(** *** the 1 x 1 identity *)
Lemma fmul_one11_r r a : supported r 1 a -> fmul 1 a one11 = a.
Proof.
  intros Ha. apply fext; intros i j. unfold fmul, one11. simpl.
  destruct (Nat.eqb_spec j 0) as [->|Hj]; [ring|].
  rewrite (Ha i j) by lia. ring.
Qed.
Lemma fmul_one11_l c b : supported 1 c b -> fmul 1 one11 b = b.
Proof.
  intros Hb. apply fext; intros i j. unfold fmul, one11. simpl.
  destruct (Nat.eqb_spec i 0) as [->|Hi]; simpl; [ring|].
  rewrite (Hb i j) by lia. ring.
Qed.
Lemma ftr_one11 : ftr one11 = one11.
Proof.
  apply fext; intros i j. unfold ftr, one11. now rewrite andb_comm.
Qed.
(** the product of a row and a column vector is a scalar *)
Lemma fmul_scalar p u v :
  supported 1 p u -> supported p 1 v ->
  fmul p u v = fscal (fmul p u v 0%nat 0%nat) one11.
Proof.
  intros Hu Hv. apply fext; intros i j. unfold fscal, one11.
  destruct (Nat.eqb_spec i 0) as [->|Hi]; simpl.
  - destruct (Nat.eqb_spec j 0) as [->|Hj]; [ring|].
    rewrite (supported_fmul 1 p 1 u v Hu Hv) by lia. ring.
  - rewrite (supported_fmul 1 p 1 u v Hu Hv) by lia. ring.
Qed.

(** *** products of bordered matrices *)
Lemma fmul_succ_zero_col k f g : (forall i, f i k = 0) -> fmul (S k) f g = fmul k f g.
Proof. intros H. apply fext; intros i j. unfold fmul. simpl. rewrite H. ring. Qed.
Lemma fmul_succ_zero_row k f g : (forall j, g k j = 0) -> fmul (S k) f g = fmul k f g.
Proof. intros H. apply fext; intros i j. unfold fmul. simpl. rewrite H. ring. Qed.
Lemma fmul_shiftcol_r p k f a : fmul p f (shiftcol k a) = shiftcol k (fmul p f a).
Proof.
  apply fext; intros i j. unfold fmul, shiftcol.
  destruct (Nat.eqb_spec j k); [reflexivity|].
  apply bigsum_zero_ext. intros; ring.
Qed.
Lemma fmul_shiftrow_l p k b g : fmul p (shiftrow k b) g = shiftrow k (fmul p b g).
Proof.
  apply fext; intros i j. unfold fmul, shiftrow.
  destruct (Nat.eqb_spec i k); [reflexivity|].
  apply bigsum_zero_ext. intros; ring.
Qed.
Lemma fmul_shiftcol_shiftrow k a b : fmul (S k) (shiftcol k a) (shiftrow k b) = fmul 1 a b.
Proof.
  apply fext; intros i j. unfold fmul at 1, shiftcol, shiftrow. simpl bigsum.
  rewrite Nat.eqb_refl.
  rewrite bigsum_zero_ext.
  - unfold fmul. simpl. ring.
  - intros l Hl. destruct (Nat.eqb_spec l k); [lia | ring].
Qed.
Lemma fmul_shiftcol_l k a g : (forall j, g k j = 0) -> fmul (S k) (shiftcol k a) g = fzero.
Proof.
  intros H. apply fext; intros i j. unfold fmul, shiftcol, fzero. simpl bigsum.
  rewrite H. rewrite bigsum_zero_ext; [ring|].
  intros l Hl. destruct (Nat.eqb_spec l k); [lia | ring].
Qed.
Lemma fmul_shiftrow_r k f b : (forall i, f i k = 0) -> fmul (S k) f (shiftrow k b) = fzero.
Proof.
  intros H. apply fext; intros i j. unfold fmul, shiftrow, fzero. simpl bigsum.
  rewrite H. rewrite bigsum_zero_ext; [ring|].
  intros l Hl. destruct (Nat.eqb_spec l k); [lia | ring].
Qed.
Lemma ftr_shiftcol k a : ftr (shiftcol k a) = shiftrow k (ftr a).
Proof. reflexivity. Qed.
Lemma ftr_shiftrow k b : ftr (shiftrow k b) = shiftcol k (ftr b).
Proof. reflexivity. Qed.
Lemma shiftcol_fadd k a b : shiftcol k (fadd a b) = fadd (shiftcol k a) (shiftcol k b).
Proof. apply fext; intros i j. unfold shiftcol, fadd. destruct (j =? k)%nat; ring. Qed.
Lemma shiftrow_fadd k a b : shiftrow k (fadd a b) = fadd (shiftrow k a) (shiftrow k b).
Proof. apply fext; intros i j. unfold shiftrow, fadd. destruct (i =? k)%nat; ring. Qed.
Lemma shiftcol_fzero k : shiftcol k fzero = fzero.
Proof. apply fext; intros i j. unfold shiftcol, fzero. now destruct (j =? k)%nat. Qed.
Lemma shiftrow_fzero k : shiftrow k fzero = fzero.
Proof. apply fext; intros i j. unfold shiftrow, fzero. now destruct (i =? k)%nat. Qed.
Lemma fadd_fzero_r f : fadd f fzero = f.
Proof. apply fext; intros i j. unfold fadd, fzero. ring. Qed.
Lemma fadd_fzero_l f : fadd fzero f = f.
Proof. apply fext; intros i j. unfold fadd, fzero. ring. Qed.
Lemma fsub_fzero_r f : fsub f fzero = f.
Proof. apply fext; intros i j. unfold fsub, fzero. ring. Qed.
Lemma fsub_diag f : fsub f f = fzero.
Proof. apply fext; intros i j. unfold fsub, fzero. ring. Qed.
Lemma fscal_fzero t : fscal t fzero = fzero.
Proof. apply fext; intros i j. unfold fscal, fzero. ring. Qed.

(** a sum of squares vanishes only if every term does *)
Lemma bigsum_sq_nonneg m (f : nat -> R) : 0 <= bigsum m (fun k => f k * f k).
Proof.
  induction m as [|m IH]; simpl; [lra|]. pose proof (Rle_0_sqr (f m)) as H.
  unfold Rsqr in H. lra.
Qed.
Lemma bigsum_sq_zero m (f : nat -> R) :
  bigsum m (fun k => f k * f k) = 0 -> forall k, (k < m)%nat -> f k = 0.
Proof.
  induction m as [|m IH]; simpl; intros H k Hk; [lia|].
  pose proof (bigsum_sq_nonneg m f) as H1.
  pose proof (Rle_0_sqr (f m)) as H2. unfold Rsqr in H2.
  destruct (Nat.eq_dec k m) as [->|Hne].
  - assert (f m * f m = 0) by lra. destruct (Rmult_integral _ _ H0); assumption.
  - apply IH; [lra | lia].
Qed.

Lemma shiftcol_shiftrow_sym k s : ftr (shiftcol k (shiftrow k s)) = shiftcol k (shiftrow k s).
Proof.
  apply fext; intros i j. unfold ftr, shiftcol, shiftrow.
  destruct (Nat.eqb_spec i k), (Nat.eqb_spec j k); reflexivity.
Qed.

Section Bordering.
Variables (m k : nat) (A a B : fun_matrix).
Hypothesis SA : supported m k A.
Hypothesis Sa : supported m 1 a.
Hypothesis SB : supported k m B.
Hypothesis HP1 : fmul m (fmul k A B) A = A.
Hypothesis HP2 : fmul k (fmul m B A) B = B.
Hypothesis HP3 : ftr (fmul k A B) = fmul k A B.
Hypothesis HP4 : ftr (fmul m B A) = fmul m B A.
Variables (d c : fun_matrix).
Hypothesis Ed : d = fmul m B a.
Hypothesis Ec : c = fsub a (fmul k A d).

Lemma border_Sd : supported k 1 d.
Proof. rewrite Ed. now apply (supported_fmul k m 1). Qed.
Lemma border_Sc : supported m 1 c.
Proof.
  rewrite Ec. apply supported_fsub; [assumption|].
  apply (supported_fmul m k 1); [assumption | apply border_Sd].
Qed.
Lemma border_Acol i : A i k = 0.
Proof. apply SA. lia. Qed.
Lemma border_Qcol i : fmul m B A i k = 0.
Proof. apply (supported_fmul k m k B A SB SA). lia. Qed.
Lemma border_drow j : d k j = 0.
Proof. apply border_Sd. lia. Qed.
Lemma border_Ad : fmul k A d = fmul m (fmul k A B) a.
Proof. rewrite Ed. symmetry. apply fmul_assoc_gen. Qed.
Lemma border_a : a = fadd c (fmul k A d).
Proof. rewrite Ec. apply fext; intros i j. unfold fadd, fsub. ring. Qed.
Lemma border_cA : fmul m (ftr c) A = fzero.
Proof.
  rewrite Ec, ftr_fsub, border_Ad, ftr_fmul_gen, HP3, fmul_fsub_l.
  rewrite (fmul_assoc_gen m m (ftr a)), HP1. apply fsub_diag.
Qed.
Lemma border_Bc : fmul m B c = fzero.
Proof.
  rewrite Ec, fmul_fsub_r, border_Ad, <- (fmul_assoc_gen m m B).
  rewrite <- (fmul_assoc_gen m k B A B), HP2, <- Ed. apply fsub_diag.
Qed.
Lemma border_ca : fmul m (ftr c) a = fmul m (ftr c) c.
Proof.
  rewrite border_a at 1. rewrite fmul_fadd_r.
  rewrite <- (fmul_assoc_gen m k (ftr c) A d), border_cA, fmul_fzero_l.
  apply fadd_fzero_r.
Qed.
Lemma border_Qd : fmul k (fmul m B A) d = d.
Proof. rewrite Ed at 1. rewrite <- (fmul_assoc_gen k m), HP2. now rewrite Ed. Qed.

Section Row.
Variable b : fun_matrix.
Hypothesis Sb : supported 1 m b.

Lemma border_SB0 : supported k m (fsub B (fmul 1 d b)).
Proof.
  apply supported_fsub; [assumption|].
  apply (supported_fmul k 1 m); [apply border_Sd | assumption].
Qed.
Lemma border_B0row j : fsub B (fmul 1 d b) k j = 0.
Proof. apply border_SB0. lia. Qed.
Lemma border_SB' : supported (S k) m (fadd (fsub B (fmul 1 d b)) (shiftrow k b)).
Proof.
  apply supported_fadd.
  - apply (supported_weaken k m); [lia | lia | apply border_SB0].
  - now apply supported_shiftrow.
Qed.
Lemma border_AB :
  fmul (S k) (fadd A (shiftcol k a)) (fadd (fsub B (fmul 1 d b)) (shiftrow k b))
  = fadd (fmul k A B) (fmul 1 c b).
Proof.
  rewrite fmul_fadd_l, !fmul_fadd_r.
  rewrite (fmul_succ_zero_col k A) by apply border_Acol.
  rewrite (fmul_shiftrow_r k A) by apply border_Acol.
  rewrite (fmul_shiftcol_l k a) by apply border_B0row.
  rewrite fmul_shiftcol_shiftrow.
  rewrite fmul_fsub_r, <- (fmul_assoc_gen k 1 A d b).
  rewrite Ec, fmul_fsub_l.
  apply fext; intros i j. unfold fadd, fsub, fzero. ring.
Qed.
Lemma border_BA :
  fmul m (fadd (fsub B (fmul 1 d b)) (shiftrow k b)) (fadd A (shiftcol k a))
  = fadd (fadd (fsub (fmul m B A) (fmul 1 d (fmul m b A)))
               (shiftcol k (fsub d (fmul 1 d (fmul m b a)))))
         (fadd (shiftrow k (fmul m b A)) (shiftcol k (shiftrow k (fmul m b a)))).
Proof.
  rewrite fmul_fadd_l, !fmul_fadd_r, !fmul_shiftcol_r, !fmul_shiftrow_l.
  rewrite ?fmul_shiftcol_r.
  rewrite !fmul_fsub_l, !(fmul_assoc_gen 1 m d b), <- Ed. reflexivity.
Qed.
End Row.


(** the new column is not in the span of the old ones *)
Lemma border_independent :
  fmul m (ftr c) c 0%nat 0%nat <> 0 ->
  exists B', gpenrose m (S k) (fadd A (shiftcol k a)) B'.
Proof.
  set (g := fmul m (ftr c) c 0%nat 0%nat). intros Hg.
  pose proof border_Sc as Sc. pose proof border_Sd as Sd.
  set (b := fscal (/ g) (ftr c)).
  assert (Sb : supported 1 m b) by (apply supported_fscal, supported_ftr, Sc).
  assert (bA : fmul m b A = fzero).
  { unfold b. rewrite fmul_fscal_l, border_cA. apply fscal_fzero. }
  assert (ba : fmul m b a = one11).
  { unfold b. rewrite fmul_fscal_l, border_ca.
    rewrite (fmul_scalar m (ftr c) c (supported_ftr _ _ _ Sc) Sc).
    fold g. apply fext; intros i j. unfold fscal. field. exact Hg. }
  pose proof (border_AB b Sb) as AB.
  pose proof (border_BA b) as BA.
  rewrite bA, ba, fmul_fzero_r, fsub_fzero_r, (fmul_one11_r k d Sd), fsub_diag,
    shiftcol_fzero, shiftrow_fzero, fadd_fzero_r, fadd_fzero_l in BA.
  exists (fadd (fsub B (fmul 1 d b)) (shiftrow k b)).
  split; [|split; [|split; [|split]]].
  - apply (border_SB' b Sb).
  - rewrite AB, fmul_fadd_r, fmul_shiftcol_r, !fmul_fadd_l, HP1.
    rewrite !(fmul_assoc_gen 1 m c b), bA, ba, fmul_fzero_r, (fmul_one11_r m c Sc).
    rewrite <- border_Ad, fadd_fzero_r.
    f_equal. f_equal. rewrite Ec. apply fext; intros i j. unfold fadd, fsub. ring.
  - rewrite BA, fmul_fadd_l, !fmul_fadd_r.
    rewrite (fmul_succ_zero_col k (fmul m B A)) by apply border_Qcol.
    rewrite (fmul_shiftrow_r k (fmul m B A)) by apply border_Qcol.
    rewrite (fmul_shiftcol_l k) by apply (border_B0row b Sb).
    rewrite fmul_shiftcol_shiftrow, fmul_shiftrow_l, (fmul_one11_l m b Sb).
    rewrite fmul_fsub_r, HP2, <- (fmul_assoc_gen k 1 (fmul m B A) d b).
    rewrite border_Qd.
    apply fext; intros i j. unfold fadd, fsub, fzero. ring.
  - rewrite AB, ftr_fadd, HP3. f_equal.
    rewrite ftr_fmul_gen. unfold b. rewrite ftr_fscal, ftr_ftr.
    now rewrite fmul_fscal_l, fmul_fscal_r.
  - rewrite BA, ftr_fadd, HP4. now rewrite shiftcol_shiftrow_sym.
Qed.

(** the new column is in the span of the old ones *)
Lemma border_c_zero : fmul m (ftr c) c 0%nat 0%nat = 0 -> c = fzero.
Proof.
  intros Hg. pose proof border_Sc as Sc. apply fext; intros i j. unfold fzero.
  destruct (Nat.eq_dec j 0) as [->|Hj]; [|apply Sc; lia].
  destruct (le_lt_dec m i) as [Hi|Hi]; [apply Sc; lia|].
  apply (bigsum_sq_zero m (fun l => c l 0%nat)); assumption.
Qed.

Lemma border_dependent :
  fmul m (ftr c) c 0%nat 0%nat = 0 ->
  exists B', gpenrose m (S k) (fadd A (shiftcol k a)) B'.
Proof.
  intros Hg. pose proof (border_c_zero Hg) as c0.
  pose proof border_Sd as Sd.
  assert (Ad : fmul k A d = a).
  { transitivity (fadd c (fmul k A d)); [now rewrite c0, fadd_fzero_l|].
    symmetry. apply border_a. }
  set (e := fmul k (ftr d) d 0%nat 0%nat).
  assert (He : 0 <= e) by apply (bigsum_sq_nonneg k (fun l => d l 0%nat)).
  assert (He' : 1 + e <> 0) by lra.
  assert (dd : fmul k (ftr d) d = fscal e one11)
    by apply (fmul_scalar k (ftr d) d (supported_ftr _ _ _ Sd) Sd).
  set (b := fscal (/ (1 + e)) (fmul k (ftr d) B)).
  assert (Sb : supported 1 m b).
  { apply supported_fscal, (supported_fmul 1 k m); [|assumption].
    apply supported_ftr, Sd. }
  assert (dQ : fmul k (ftr d) (fmul m B A) = ftr d).
  { rewrite <- HP4, <- ftr_fmul_gen. now rewrite border_Qd. }
  assert (bA : fmul m b A = fscal (/ (1 + e)) (ftr d)).
  { unfold b. now rewrite fmul_fscal_l, (fmul_assoc_gen k m), dQ. }
  assert (ba : fmul m b a = fscal (/ (1 + e) * e) one11).
  { unfold b. rewrite fmul_fscal_l, (fmul_assoc_gen k m), <- Ed, dd.
    apply fext; intros i j. unfold fscal. ring. }
  assert (dB : fmul k (ftr d) B = fscal (1 + e) b).
  { unfold b. apply fext; intros i j. unfold fscal. field. exact He'. }
  pose proof (border_AB b Sb) as AB.
  rewrite c0, fmul_fzero_l, fadd_fzero_r in AB.
  pose proof (border_BA b) as BA.
  rewrite bA, ba, !fmul_fscal_r, (fmul_one11_r k d Sd) in BA.
  assert (Eu : fsub d (fscal (/ (1 + e) * e) d) = fscal (/ (1 + e)) d).
  { apply fext; intros i j. unfold fsub, fscal. field. exact He'. }
  rewrite Eu in BA.
  exists (fadd (fsub B (fmul 1 d b)) (shiftrow k b)).
  split; [|split; [|split; [|split]]].
  - apply (border_SB' b Sb).
  - rewrite AB, fmul_fadd_r, fmul_shiftcol_r, HP1.
    now rewrite <- border_Ad, Ad.
  - rewrite BA, !fmul_fadd_l, !fmul_fadd_r.
    assert (db : fmul k (ftr d) (fmul 1 d b) = fscal e b).
    { now rewrite <- (fmul_assoc_gen k 1), dd, fmul_fscal_l, (fmul_one11_l m b Sb). }
    set (B0 := fsub B (fmul 1 d b)).
    set (R := fsub (fmul m B A) (fscal (/ (1 + e)) (fmul 1 d (ftr d)))).
    assert (B0row : forall j, B0 k j = 0) by apply (border_B0row b Sb).
    assert (Rcol : forall i, R i k = 0).
    { intros i. unfold R, fsub, fscal. rewrite border_Qcol.
      unfold fmul, ftr. simpl. rewrite border_drow. ring. }
    assert (vcol : forall i, fscal (/ (1 + e)) (ftr d) i k = 0).
    { intros i. unfold fscal, ftr. rewrite border_drow. ring. }
    rewrite (fmul_succ_zero_col k R B0 Rcol), (fmul_shiftrow_r k R b Rcol).
    rewrite !(fmul_shiftcol_l k _ B0 B0row), !fmul_shiftcol_shiftrow.
    rewrite !fmul_shiftrow_l.
    rewrite (fmul_succ_zero_col k _ B0 vcol), (fmul_shiftrow_r k _ b vcol).
    unfold R, B0.
    rewrite !fmul_fsub_l, !fmul_fsub_r, !fmul_fscal_l, HP2.
    rewrite <- (fmul_assoc_gen k 1 (fmul m B A) d b), border_Qd.
    rewrite !(fmul_assoc_gen 1 k d (ftr d)), dB, db, !fmul_fscal_r.
    rewrite (fmul_one11_l m b Sb).
    apply fext; intros i j. unfold fadd, fsub, fscal, fzero, shiftrow.
    destruct (i =? k)%nat; field; exact He'.
  - now rewrite AB.
  - rewrite BA, !ftr_fadd, ftr_fsub, !ftr_fscal, ftr_shiftcol, ftr_shiftrow,
      !ftr_fscal, ftr_ftr, HP4, shiftcol_shiftrow_sym, ftr_fmul_gen, ftr_ftr.
    apply fext; intros i j. unfold fadd. ring.
Qed.
End Bordering.

(** Every matrix has a Moore-Penrose inverse: by induction on the number of
    columns, one column added at a time. *)
Theorem gpenrose_exists m k A : supported m k A -> exists B, gpenrose m k A B.
Proof.
  revert A. induction k as [|k IH]; intros A' SA'.
  - assert (A' = fzero) as -> by (apply fext; intros i j; apply SA'; lia).
    exists fzero. repeat split; try reflexivity. apply fmul_fzero_r.
  - set (A := fun i j => if (j <? k)%nat then A' i j else 0).
    set (a := fun i j => if (j =? 0)%nat then A' i k else 0).
    assert (SA : supported m k A).
    { intros i j H. unfold A. destruct (Nat.ltb_spec j k); [|reflexivity].
      apply SA'. lia. }
    assert (Sa : supported m 1 a).
    { intros i j H. unfold a. destruct (Nat.eqb_spec j 0); [|reflexivity].
      apply SA'. lia. }
    assert (EA : A' = fadd A (shiftcol k a)).
    { apply fext; intros i j. unfold fadd, shiftcol, A, a. simpl.
      destruct (Nat.ltb_spec j k), (Nat.eqb_spec j k); try lia; subst; try ring.
      rewrite SA' by lia. ring. }
    destruct (IH A SA) as (B & SB & HP1 & HP2 & HP3 & HP4).
    rewrite EA.
    set (d := fmul m B a). set (c := fsub a (fmul k A d)).
    destruct (Req_dec (fmul m (ftr c) c 0%nat 0%nat) 0) as [Hg|Hg].
    + apply (border_dependent m k A a B SA Sa SB HP1 HP2 HP3 HP4 d c eq_refl eq_refl Hg).
    + apply (border_independent m k A a B SA Sa SB HP1 HP2 HP3 HP4 d c eq_refl eq_refl Hg).
Qed.
End PinvExists.

Section PinvFacts.
Local Open Scope R_scope.
Import KRR.

Lemma is_pinv_unique A B C : is_pinv A B -> is_pinv A C -> B = C.
Proof.
  intros HB HC.
  apply (is_pinv_penrose (length A) A B eq_refl) in HB as [SB PB].
  apply (is_pinv_penrose (length A) A C eq_refl) in HC as [SC PC].
  apply (matrix_ext (length A) (length A)); auto.
  apply (penrose_unique (length A) (entry A)); assumption.
Qed.

Lemma entry_mk_matrix n m f i j :
  (i < n)%nat -> (j < m)%nat -> entry (mk_matrix n m f) i j = f i j.
Proof.
  intros Hi Hj. unfold mk_matrix.
  rewrite (entry_table f (seq 0 n) (seq 0 m) 0%nat 0%nat) by now rewrite length_seq.
  now rewrite !seq_nth.
Qed.

Lemma shape_mk_matrix n m f : shape n m (mk_matrix n m f).
Proof.
  unfold mk_matrix.
  pose proof (shape_table f (seq 0 n) (seq 0 m)) as H. now rewrite !length_seq in H.
Qed.

(** Every square array has a pseudo-inverse. *)
Lemma pinv_exists A : exists B, is_pinv A B.
Proof.
  set (n := length A).
  destruct (gpenrose_exists n n (clip n n (entry A)) (supported_clip n n _))
    as (b & _ & P1 & P2 & P3 & P4).
  exists (mk_matrix n n b).
  apply (is_pinv_penrose n); [reflexivity|].
  split; [apply shape_mk_matrix|].
  apply (penrose_meq n (clip n n (entry A)) (entry A) b (entry (mk_matrix n n b))).
  - intros i j Hi Hj. unfold clip.
    destruct (Nat.ltb_spec i n), (Nat.ltb_spec j n); simpl; try lia. reflexivity.
  - intros i j Hi Hj. symmetry. now apply entry_mk_matrix.
  - unfold penrose. rewrite P1, P2, P3, P4. repeat split.
Qed.

Lemma linalg_pinv_spec A : is_pinv A (linalg_pinv A).
Proof. unfold linalg_pinv. apply epsilon_spec, pinv_exists. Qed.

Lemma linalg_pinv_shape A : shape (length A) (length A) (linalg_pinv A).
Proof. apply (linalg_pinv_spec A). Qed.

(** [np.linalg.pinv] of a permuted matrix is the permuted pseudo-inverse. *)
Lemma linalg_pinv_permute n pi A :
  perm_of n pi -> shape n n A ->
  linalg_pinv (permute pi A) = permute pi (linalg_pinv A).
Proof.
  intros H HA. assert (LA : length A = n) by apply HA.
  apply (is_pinv_unique (permute pi A)); [apply linalg_pinv_spec|].
  apply (is_pinv_permute n); auto. apply linalg_pinv_spec.
Qed.
End PinvFacts.

(** ** [predict] does not depend on the order of the training rows *)

Section PredictPermutation.
Local Open Scope R_scope.
Import KRR.

Lemma take_rows_Permutation n pi (X : matrix) :
  perm_of n pi -> length X = n -> Permutation (take_rows X pi) X.
Proof.
  intros H L. unfold take_rows.
  eapply Permutation_trans; [apply Permutation_map, H|].
  rewrite <- L, <- list_eta. reflexivity.
Qed.

Lemma same_width_Permutation a a' b b' :
  Permutation a a' -> Permutation b b' -> same_width a b = same_width a' b'.
Proof.
  intros Ha Hb.
  destruct (same_width a b) eqn:E, (same_width a' b') eqn:E'; auto.
  - rewrite <- E'. symmetry. apply same_width_spec. intros r1 r2 H1 H2.
    apply (proj1 (same_width_spec a b) E).
    + now apply (Permutation_in _ (Permutation_sym Ha)).
    + now apply (Permutation_in _ (Permutation_sym Hb)).
  - rewrite <- E. apply same_width_spec. intros r1 r2 H1 H2.
    apply (proj1 (same_width_spec a' b') E').
    + now apply (Permutation_in _ Ha).
    + now apply (Permutation_in _ Hb).
Qed.

(** The kernel table against the permuted rows: the columns are permuted. *)
Lemma kernel_table_take_rows n pi sigma (X1 X : matrix) :
  perm_of n pi -> length X = n ->
  map (fun r1 => map (fun r2 => kernel_value sigma r1 r2) (take_rows X pi)) X1
  = map (fun row => take row pi)
      (map (fun r1 => map (fun r2 => kernel_value sigma r1 r2) X) X1).
Proof.
  intros H L. rewrite map_map. apply map_ext. intros r1.
  unfold take_rows, take. rewrite map_map. apply map_ext_in. intros i Hi.
  apply (perm_of_In n pi i H) in Hi.
  rewrite (nth_indep _ 0 ((fun r2 => kernel_value sigma r1 r2) []))
    by (rewrite length_map; lia).
  now rewrite (map_nth (fun r2 => kernel_value sigma r1 r2)).
Qed.

Lemma kernel_gram_take_rows n pi sigma (X : matrix) :
  perm_of n pi -> length X = n ->
  map (fun r1 => map (fun r2 => kernel_value sigma r1 r2) (take_rows X pi))
    (take_rows X pi)
  = permute pi (map (fun r1 => map (fun r2 => kernel_value sigma r1 r2) X) X).
Proof.
  intros H L. rewrite (kernel_table_take_rows n) by assumption.
  unfold permute, take_rows. rewrite !map_map. apply map_ext_in. intros i Hi.
  apply (perm_of_In n pi i H) in Hi. f_equal.
  set (row := fun r1 => map (fun r2 => kernel_value sigma r1 r2) X).
  rewrite (nth_indep (map row X) [] (row [])) by (rewrite length_map; lia).
  now rewrite (map_nth row).
Qed.

Lemma nth_map2 f a b i :
  (i < length a)%nat -> (i < length b)%nat ->
  nth i (KRR.map2 f a b) 0 = f (nth i a 0) (nth i b 0).
Proof.
  revert b i; induction a as [|x a IH]; intros [|y b] [|i]; simpl; intros Ha Hb;
    try lia; auto. apply IH; lia.
Qed.

Lemma length_map2 f a b :
  length a = length b -> length (KRR.map2 f a b) = length a.
Proof.
  revert b; induction a as [|x a IH]; intros [|y b]; simpl; intros H; try easy.
  f_equal; apply IH; lia.
Qed.

Lemma length_add_scaled A c B :
  length A = length B -> length (add_scaled A c B) = length A.
Proof.
  revert B; induction A as [|ra A IH]; intros [|rb B]; simpl; intros H; try easy.
  f_equal; apply IH; lia.
Qed.

Lemma entry_add_scaled A c B i j :
  (i < length A)%nat -> (i < length B)%nat ->
  (j < length (nth i A []))%nat -> (j < length (nth i B []))%nat ->
  entry (add_scaled A c B) i j = entry A i j + c * entry B i j.
Proof.
  revert B i; induction A as [|ra A IH]; intros [|rb B] [|i]; simpl;
    intros Ha Hb Hja Hjb; try lia.
  - unfold entry; simpl. now apply (nth_map2 (fun a b => a + c * b)).
  - apply (IH B i); lia.
Qed.

Lemma rows_add_scaled m A c B :
  Forall (fun row => length row = m) A -> Forall (fun row => length row = m) B ->
  Forall (fun row => length row = m) (add_scaled A c B).
Proof.
  intros FA. revert B. induction FA as [|ra A Ha FA IH]; intros B FB; simpl.
  - destruct B; constructor.
  - destruct FB as [|rb B Hb FB]; constructor.
    + rewrite length_map2; congruence.
    + now apply IH.
Qed.

Lemma add_scaled_spec n A c B :
  shape n n A -> shape n n B ->
  shape n n (add_scaled A c B)
  /\ forall i j, (i < n)%nat -> (j < n)%nat ->
     entry (add_scaled A c B) i j = entry A i j + c * entry B i j.
Proof.
  intros HA HB. split.
  - destruct HA as [LA FA], HB as [LB FB]. split.
    + rewrite length_add_scaled; congruence.
    + now apply rows_add_scaled.
  - intros i j Hi Hj. apply entry_add_scaled.
    + destruct HA as [-> _]; exact Hi.
    + destruct HB as [-> _]; exact Hi.
    + now rewrite (shape_row n n A i HA Hi).
    + now rewrite (shape_row n n B i HB Hi).
Qed.

Lemma entry_eye n i j :
  (i < n)%nat -> (j < n)%nat -> entry (eye n) i j = if (i =? j)%nat then 1 else 0.
Proof. intros. unfold eye. now rewrite entry_mk_matrix. Qed.

Lemma perm_of_injective n pi i j :
  perm_of n pi -> (i < n)%nat -> (j < n)%nat ->
  nth i pi 0%nat = nth j pi 0%nat -> i = j.
Proof.
  intros H Hi Hj E. pose proof (perm_of_length n pi H) as L.
  apply (proj1 (NoDup_nth pi 0%nat) (perm_of_NoDup n pi H)); auto; lia.
Qed.

(** The regularised Gram matrix of the permuted rows. *)
Lemma add_scaled_eye_permute n pi K c :
  perm_of n pi -> shape n n K ->
  add_scaled (permute pi K) c (eye n) = permute pi (add_scaled K c (eye n)).
Proof.
  intros H HK. pose proof (perm_of_length n pi H) as L.
  assert (HE : shape n n (eye n)) by apply shape_mk_matrix.
  destruct (add_scaled_spec n K c (eye n) HK HE) as [S E].
  destruct (add_scaled_spec n (permute pi K) c (eye n) (shape_permute n pi K L) HE)
    as [S' E'].
  apply (matrix_ext n n); [exact S' | now apply shape_permute |].
  intros i j Hi Hj.
  rewrite E' by assumption. rewrite !(entry_permute n) by assumption.
  rewrite E by auto using perm_of_bound.
  rewrite !entry_eye by auto using perm_of_bound.
  destruct (Nat.eqb_spec i j) as [->|Hne].
  - now rewrite Nat.eqb_refl.
  - destruct (Nat.eqb_spec (nth i pi 0%nat) (nth j pi 0%nat)) as [E0|_]; [|reflexivity].
    exfalso. apply Hne. now apply (perm_of_injective n pi).
Qed.

Lemma linalg_solve_length A b alpha :
  linalg_solve A b = Ok alpha -> length alpha = length A.
Proof.
  unfold linalg_solve. destruct (length b =? length A)%nat eqn:E; [|discriminate].
  apply Nat.eqb_eq in E.
  destruct (excluded_middle_informative (invertible A)) as [Hi|]; [|discriminate].
  intros H; inversion H; subst alpha; clear H.
  match goal with |- context [epsilon ?i ?P] =>
    destruct (epsilon_spec i P) as [L _]; [|exact L] end.
  destruct (Hi b E) as (a & Ha & _). now exists a.
Qed.

Lemma linalg_solve_errors A b e :
  linalg_solve A b = Raise e -> e = LinAlgError \/ e = ValueError.
Proof.
  unfold linalg_solve. destruct (length b =? length A)%nat.
  - destruct (excluded_middle_informative (invertible A)); [discriminate|].
    intros H; inversion H; auto.
  - intros H; inversion H; auto.
Qed.

(** The last product: permuted columns against a permuted vector. *)
Lemma matvec_take_columns n pi (K : matrix) alpha :
  perm_of n pi -> Forall (fun row => length row = n) K -> length alpha = n ->
  matvec (map (fun row => take row pi) K) (take alpha pi) = matvec K alpha.
Proof.
  intros H F L. unfold matvec. rewrite map_map. apply map_ext_in. intros row Hr.
  rewrite Forall_forall in F. apply (dot_take n); auto.
Qed.

Lemma dual_weights_permute n pi A y :
  perm_of n pi -> shape n n A -> length y = n ->
  dual_weights (permute pi A) (take y pi)
  = match dual_weights A y with
    | Ok alpha => Ok (take alpha pi)
    | Raise e => Raise e
    end.
Proof.
  intros H HA Ly. unfold dual_weights.
  rewrite (linalg_solve_permute n) by assumption.
  destruct (linalg_solve A y) as [alpha|e] eqn:E; [reflexivity|].
  destruct (linalg_solve_errors A y e E) as [-> | ->]; [|reflexivity].
  rewrite (linalg_pinv_permute n) by assumption.
  rewrite (matvec_permute n); auto.
  destruct HA as [LA _]. rewrite <- LA. apply linalg_pinv_shape.
Qed.

Lemma dual_weights_length A y alpha :
  dual_weights A y = Ok alpha -> length alpha = length A.
Proof.
  unfold dual_weights. destruct (linalg_solve A y) as [a|e] eqn:E.
  - intros H; inversion H; subst. now apply linalg_solve_length in E.
  - destruct e; try discriminate. intros H; inversion H; subst.
    rewrite length_matvec. apply linalg_pinv_shape.
Qed.

(** *** C8 *)

(** C8 (row order of the training set).  For a training set of [n] rows [X]
    with [n] targets [y] and a permutation [pi] of the row indices, the model
    fitted on [X[pi]], [y[pi]] predicts on every test matrix what the model
    fitted on [X], [y] predicts (over the reals): the same vector or the same
    exception.  This covers the branch of [np.linalg.solve] and the branch of
    the pseudo-inverse. *)
Theorem predict_permutation_invariant
  (self : SimpleRBFKernelRegression) (X : matrix) (y : vector) (pi : list nat)
  (X_test : matrix) :
  length y = length X -> perm_of (length X) pi ->
  predict (fit self (take_rows X pi) (take y pi)) X_test
  = predict (fit self X y) X_test.
Proof.
  intros Ly H. set (n := length X) in *.
  pose proof (perm_of_length n pi H) as Lp.
  unfold predict, fit. cbn [_trained X_train y_train negb sigma lambda_reg].
  assert (LX' : length (take_rows X pi) = n) by (unfold take_rows; now rewrite length_map).
  rewrite LX'. fold n.
  destruct (n =? 0)%nat; [reflexivity|].
  rewrite !rbf_kernel_cases. cbn [sigma].
  destruct (Req_dec_T (2 * sigma self ^ 2) 0); [reflexivity|].
  pose proof (take_rows_Permutation n pi X H eq_refl) as PX.
  rewrite (same_width_Permutation X_test X_test (take_rows X pi) X
             (Permutation_refl _) PX).
  rewrite (same_width_Permutation (take_rows X pi) X (take_rows X pi) X PX PX).
  destruct (same_width X_test X); [|reflexivity].
  destruct (same_width X X); [|reflexivity].
  cbn [bind].
  rewrite (kernel_gram_take_rows n) by auto.
  rewrite (kernel_table_take_rows n) by auto.
  set (K := map (fun r1 => map (fun r2 => kernel_value (sigma self) r1 r2) X) X).
  set (Ktt := map (fun r1 => map (fun r2 => kernel_value (sigma self) r1 r2) X) X_test).
  assert (SK : shape n n K) by apply shape_table.
  assert (FK : Forall (fun row => length row = n) Ktt) by apply (shape_table _ X_test X).
  rewrite (add_scaled_eye_permute n) by assumption.
  set (A := add_scaled K (lambda_reg self) (eye n)).
  assert (SA : shape n n A)
    by (apply add_scaled_spec; [exact SK | apply shape_mk_matrix]).
  rewrite (dual_weights_permute n) by assumption.
  destruct (dual_weights A y) as [alpha|e] eqn:E; [|reflexivity].
  cbn [bind]. f_equal. apply (matvec_take_columns n); auto.
  apply dual_weights_length in E. destruct SA as [LA _]. congruence.
Qed.

Lemma predict_permutation_invariant_witness :
  predict (fit (__init__ 1 0) (take_rows [[0; 1]; [1; 1]; [3; 2]] [2; 0; 1]%nat)
             (take [5; 6; 7] [2; 0; 1]%nat)) [[2; 0]; [4; 1]]
  = predict (fit (__init__ 1 0) [[0; 1]; [1; 1]; [3; 2]] [5; 6; 7]) [[2; 0]; [4; 1]].
Proof.
  apply predict_permutation_invariant; [reflexivity|].
  unfold perm_of. simpl.
  apply (Permutation_cons_app [0; 1]%nat []%nat 2%nat).
  simpl. apply Permutation_refl.
Defined.
End PredictPermutation.

(** ** [loess_1d]: the result and its exceptions *)

Section LoessResult.
Local Open Scope Qc_scope.
Import Loess.

Lemma take_out_of_bounds a idx i :
  In i idx -> (length a <= i)%nat -> Np.take a idx = Raise IndexError.
Proof.
  unfold Np.take. induction idx as [|j idx IH]; simpl; intros Hi Hb; [easy|].
  destruct (nth_error a j) as [v|] eqn:E; simpl; [|reflexivity].
  destruct Hi as [->|Hi].
  - apply nth_error_None in Hb. congruence.
  - now rewrite IH.
Qed.

(** X1.  [loess_1d] returns one estimate per query point exactly when [y] has at
    least as many entries as [x] (an empty [x] included); with a shorter [y]
    the indexing [y[sort_indices]] raises IndexError, whatever the query
    points and the bandwidth.  It raises nothing else. *)
Theorem loess_1d_result (y x points : list Qc) (b : Qc) :
  match loess_1d y x points b with
  | Ok est => length est = length points /\ (length x <= length y)%nat
  | Raise e => e = IndexError /\ (length y < length x)%nat
  end.
Proof.
  destruct (le_lt_dec (length x) (length y)) as [L|L].
  - destruct (loess_1d_total y x points b L) as (est & -> & Le). now split.
  - unfold loess_1d.
    destruct (Nat.eqb_spec (length x) 0) as [E|E]; [lia|].
    rewrite take_map by (intros i Hi; now apply argsort_bound in Hi). simpl.
    rewrite (take_out_of_bounds y (Np.argsort x) (length y)); simpl; auto.
    apply (Permutation_in _ (Permutation_sym (argsort_perm x))), in_seq. lia.
Qed.
End LoessResult.

(** ** [loess_1d] on observations that lie on a line *)

Section LoessAffine.
Local Open Scope Qc_scope.
Import Loess.

Lemma mul_length a b : length a = length b -> length (Np.mul a b) = length a.
Proof. apply map2_length. Qed.

(** Sums against observations that lie on the line [a0 + b0 * x]. *)
Lemma sum_mul_affine (a0 b0 : Qc) (u xw : list Qc) :
  length u = length xw ->
  Np.sum (Np.mul u (map (fun xi => a0 + b0 * xi) xw))
  = a0 * Np.sum u + b0 * Np.sum (Np.mul u xw).
Proof.
  unfold Np.sum, Np.mul.
  revert xw; induction u as [|v u IH]; intros [|xi xw]; simpl; intros L; try easy.
  - ring.
  - rewrite IH by lia. ring.
Qed.

Lemma of_nat_pos n : (1 <= n)%nat -> 0 < Np.of_nat n.
Proof.
  intros H. apply Qclt_le_trans with eps; [apply eps_pos | now apply eps_le_of_nat].
Qed.

Lemma mean_affine (a0 b0 : Qc) (xw : list Qc) :
  xw <> [] ->
  Np.mean (map (fun xi => a0 + b0 * xi) xw) = a0 + b0 * Np.mean xw.
Proof.
  intros Hne. unfold Np.mean. rewrite length_map.
  pose proof (sum_mul_affine a0 b0 (repeat 1 (length xw)) xw) as H.
  rewrite repeat_length in H. specialize (H eq_refl).
  rewrite <- (length_map (fun xi => a0 + b0 * xi) xw) in H at 1.
  rewrite !mul_ones_l in H. rewrite H, sum_repeat.
  assert (Hn : Np.of_nat (length xw) <> 0).
  { intros E. pose proof (of_nat_pos (length xw)) as P.
    rewrite E in P. apply (Qclt_not_eq 0 0); [|reflexivity].
    apply P. destruct xw; [easy | simpl; lia]. }
  field. exact Hn.
Qed.

(** The local line of a window whose observations lie on [a0 + b0 * x]:
    that line when the system is regular, and the constant
    [a0 + b0 * xbar] otherwise, [xbar] being the mean of the window's x-values
    the handler uses. *)
Lemma local_fit_affine win weights (a0 b0 : Qc) :
  window_weights win = Ok weights ->
  length weights = length (x_window win) ->
  x_window win <> [] ->
  y_window win = map (fun xi => a0 + b0 * xi) (x_window win) ->
  let e := normal_equations weights (x_window win) (y_window win) in
  (det e <> 0 -> local_fit win = Ok (a0, b0))
  /\ (det e = 0 ->
      local_fit win
      = Ok (a0 + b0 * (if Qclt_le_dec (Np.sum weights) eps
                       then Np.mean (x_window win)
                       else Np.sum (Np.mul weights (x_window win)) / Np.sum weights), 0)).
Proof.
  intros Hw Lw Hne Hy e.
  assert (Ey : s_wy e = a0 * s_w e + b0 * s_wx e).
  { unfold e, normal_equations; simpl. rewrite Hy. now apply sum_mul_affine. }
  assert (Exy : s_wxy e = a0 * s_wx e + b0 * s_wxx e).
  { unfold e, normal_equations; simpl. rewrite Hy.
    apply sum_mul_affine. now rewrite mul_length. }
  split; intros Hd.
  - unfold local_fit. rewrite Hw. simpl. fold e.
    destruct (linalg_solve_cases e) as [[Hz _] | [_ [[a b] Hs]]]; [contradiction|].
    rewrite Hs. f_equal.
    destruct (linalg_solve_sound e a b Hs) as [E1 E2].
    destruct (linalg_solve_unique e a b a0 b0 Hd E1 E2) as [-> ->];
      [rewrite Ey; ring | rewrite Exy; ring | reflexivity].
  - unfold local_fit. rewrite Hw. simpl. fold e.
    destruct (linalg_solve_cases e) as [[_ ->] | [Hnz _]]; [|contradiction].
    f_equal. unfold fallback.
    destruct (Qclt_le_dec (Np.sum weights) eps) as [Hlt|Hle].
    + f_equal. rewrite Hy. now apply mean_affine.
    + f_equal. change (Np.sum (Np.mul weights (y_window win))) with (s_wy e).
      rewrite Ey. unfold e, normal_equations; simpl.
      assert (Hs : Np.sum weights <> 0).
      { intros E. rewrite E in Hle. exact (Qcle_not_lt _ _ Hle eps_pos). }
      field. exact Hs.
Qed.
End LoessAffine.

Section LoessEstimates.
Local Open Scope Qc_scope.
Import Loess.

Lemma nth_map_in {A B} (f : A -> B) (l : list A) i dA dB :
  (i < length l)%nat -> nth i (map f l) dB = f (nth i l dA).
Proof.
  intros H. rewrite (nth_indep _ dB (f dA)) by now rewrite length_map.
  apply map_nth.
Qed.

(** The window of a query point, written out. *)
Lemma window_at_explicit y x b p :
  (length x <= length y)%nat ->
  let xs := map (fun i => nth i x 0) (Np.argsort x) in
  let ys := map (fun i => nth i y 0) (Np.argsort x) in
  let distances := map (fun xi => Qcabs (xi - p)) xs in
  let nearest :=
    firstn (Z.to_nat (num_points_in_window b (length x))) (Np.argsort distances) in
  window_at y x b p
  = Ok {| nearest_indices := nearest;
          x_window := map (fun i => nth i xs 0) nearest;
          y_window := map (fun i => nth i ys 0) nearest;
          dist_window := map (fun i => nth i distances 0) nearest |}
  /\ length xs = length x /\ length ys = length x
  /\ (forall i, In i nearest -> (i < length x)%nat)
  /\ (x <> [] -> nearest <> []).
Proof.
  intros L xs ys distances nearest.
  assert (Lx : length xs = length x) by (unfold xs; now rewrite length_map, argsort_length).
  assert (Ly : length ys = length x) by (unfold ys; now rewrite length_map, argsort_length).
  assert (Ld : length distances = length x) by (unfold distances; now rewrite length_map).
  split; [|split; [exact Lx|split; [exact Ly|split]]].
  - unfold window_at.
    rewrite !take_map; simpl.
    + apply (select_window_total xs ys (length x) b p Lx Ly).
    + intros i Hi. apply argsort_bound in Hi. lia.
    + intros i Hi. now apply argsort_bound in Hi.
  - intros i Hi. apply firstn_subset, argsort_bound in Hi. lia.
  - intros Hne E.
    assert (Hn : (1 <= length x)%nat) by (destruct x; [easy | simpl; lia]).
    pose proof (num_points_in_window_bounds b (length x) Hn) as Hb.
    apply (f_equal (@length nat)) in E. unfold nearest in E.
    rewrite length_firstn, argsort_length, Ld in E. simpl in E. lia.
Qed.


(** The lengths inside a window of [loess_1d], and its weights. *)
Lemma window_at_weights y x b p :
  x <> [] -> (length x <= length y)%nat ->
  exists win weights,
    window_at y x b p = Ok win
    /\ window_weights win = Ok weights
    /\ x_window win <> []
    /\ length (x_window win) = length (nearest_indices win)
    /\ length (y_window win) = length (nearest_indices win)
    /\ length (dist_window win) = length (nearest_indices win)
    /\ length weights = length (nearest_indices win).
Proof.
  intros Hne L.
  destruct (window_at_explicit y x b p L) as (Hwin & _ & _ & _ & Hnear).
  specialize (Hnear Hne).
  match type of Hwin with _ = Ok ?w => set (win := w) in * end.
  assert (Hd : dist_window win <> []).
  { simpl. intros E. apply map_eq_nil in E. contradiction. }
  destruct (window_weights_total win Hd) as [weights Hw].
  exists win, weights. split; [exact Hwin|]. split; [exact Hw|].
  assert (Lxw : length (x_window win) = length (nearest_indices win))
    by (simpl; now rewrite length_map).
  split; [simpl; intros E; apply map_eq_nil in E; contradiction|].
  split; [exact Lxw|]. split; [simpl; now rewrite length_map|].
  split; [simpl; now rewrite length_map|].
  rewrite <- Lxw. apply window_weights_length; [exact Hw|].
  simpl. now rewrite !length_map.
Qed.
End LoessEstimates.

Section LoessLines.
Local Open Scope Qc_scope.
Import Loess.




(** The line fitted to constant observations, evaluated at any point. *)
Lemma estimate_of_constant (y x : list Qc) (b c p : Qc) :
  x <> [] -> (length x <= length y)%nat -> Forall (fun v => v = c) y ->
  (win <- window_at y x b p ;; ab <- local_fit win ;; Ok (fst ab + snd ab * p)) = Ok c.
Proof.
  intros Hne L Hc.
  destruct (window_at_weights y x b p Hne L)
    as (win & weights & Hwin & Hw & Hxne & Lxw & _ & _ & Lw).
  rewrite Hwin. simpl.
  assert (Hy : y_window win = map (fun xi => c + 0 * xi) (x_window win)).
  { destruct (window_at_explicit y x b p L) as (E & Lx & Ly & Hb & _).
    rewrite E in Hwin. inversion Hwin; subst win; clear Hwin E. simpl.
    match goal with |- map _ ?l = map ?f (map ?g ?l) =>
      transitivity (map (fun i => f (g i)) l); [apply map_ext_in | exact (eq_sym (map_map g f l))] end.
    intros i Hi. apply Hb in Hi.
    rewrite (nth_map_in _ _ i 0%nat 0) by now rewrite argsort_length.
    rewrite Forall_forall in Hc. rewrite (Hc (nth _ y 0)); [ring|].
    apply nth_In. 
    assert (nth i (Np.argsort x) 0 < length x)%nat; [|lia].
    apply argsort_bound, nth_In. now rewrite argsort_length. }
  destruct (local_fit_affine win weights c 0 Hw) as [Hreg Hsing];
    [congruence | exact Hxne | exact Hy |].
  cbv zeta in Hreg, Hsing.
  destruct (Qc_eq_dec (det (normal_equations weights (x_window win) (y_window win))) 0)
    as [Hd|Hd].
  - rewrite (Hsing Hd). simpl. f_equal. ring.
  - rewrite (Hreg Hd). simpl. f_equal. ring.
Qed.

Lemma loess_1d_of_constant (y x points : list Qc) (b c : Qc) :
  x <> [] -> (length x <= length y)%nat -> Forall (fun v => v = c) y ->
  loess_1d y x points b = Ok (map (fun _ => c) points).
Proof.
  intros Hne L Hc. rewrite (loess_1d_window_at y x points b Hne L).
  apply mapM_map. intros p _. now apply estimate_of_constant.
Qed.


End LoessLines.

(** ** [loess_1d]: the nearest observations and their weights *)

Section LoessNearest.
Local Open Scope Qc_scope.
Import Loess.

Lemma StronglySorted_app_cross {A} (R : A -> A -> Prop) l1 l2 a b :
  StronglySorted R (l1 ++ l2) -> In a l1 -> In b l2 -> R a b.
Proof.
  induction l1 as [|h l1 IH]; simpl; intros H Ha Hb; [easy|].
  apply StronglySorted_inv in H as [Hs Hh].
  destruct Ha as [->|Ha]; [|now apply IH].
  rewrite Forall_forall in Hh. apply Hh, in_or_app. now right.
Qed.

Lemma StronglySorted_firstn {A} (R : A -> A -> Prop) k l :
  StronglySorted R l -> StronglySorted R (firstn k l).
Proof.
  revert k; induction l as [|h l IH]; intros [|k] H; simpl; try constructor.
  - apply IH. now apply StronglySorted_inv in H.
  - apply StronglySorted_inv in H as [_ Hh]. rewrite Forall_forall in *.
    intros a Ha. apply Hh. now apply firstn_subset in Ha.
Qed.

Lemma StronglySorted_map {A B} (f : A -> B) (R : B -> B -> Prop) l :
  StronglySorted (fun a b => R (f a) (f b)) l -> StronglySorted R (map f l).
Proof.
  induction 1 as [|a l Hs IH Ha]; simpl; constructor; [exact IH|].
  rewrite Forall_forall in *. intros b Hb.
  apply in_map_iff in Hb as (c & <- & Hc). now apply Ha.
Qed.

(** X4.  The window of a query point [p] holds nearest observations: its indices
    are positions of the sorted [x], its distances are those of these
    positions to [p] in increasing order, and no observation outside the
    window is closer to [p] than one inside. *)
Theorem loess_window_nearest (y x : list Qc) (b p : Qc) :
  x <> [] -> (length x <= length y)%nat ->
  exists xs win,
    Np.take x (Np.argsort x) = Ok xs
    /\ window_at y x b p = Ok win
    /\ (forall i, In i (nearest_indices win) -> (i < length x)%nat)
    /\ dist_window win = map (fun i => Qcabs (nth i xs 0 - p)) (nearest_indices win)
    /\ StronglySorted Qcle (dist_window win)
    /\ forall i j, In i (nearest_indices win) -> (j < length x)%nat ->
         ~ In j (nearest_indices win) ->
         Qcabs (nth i xs 0 - p) <= Qcabs (nth j xs 0 - p).
Proof.
  intros Hne L.
  destruct (window_at_explicit y x b p L) as (Hwin & Lx & _ & Hb & _).
  cbv zeta in *.
  set (xs := map (fun i => nth i x 0) (Np.argsort x)) in *.
  set (distances := map (fun xi => Qcabs (xi - p)) xs) in *.
  set (w := Z.to_nat (num_points_in_window b (length x))) in *.
  assert (Ld : length distances = length x) by (unfold distances; now rewrite length_map).
  assert (Hdist : forall i, (i < length x)%nat ->
                            nth i distances 0 = Qcabs (nth i xs 0 - p)).
  { intros i Hi. unfold distances.
    apply (nth_map_in (fun xi => Qcabs (xi - p)) xs i 0 0). lia. }
  exists xs. eexists. split.
  { apply take_map. intros i Hi. now apply argsort_bound in Hi. }
  split; [exact Hwin|]. simpl.
  split; [exact Hb|].
  split; [apply map_ext_in; intros i Hi; apply Hdist, Hb, Hi|].
  pose proof (argsort_sorted distances) as Hs.
  split.
  - apply StronglySorted_map, StronglySorted_firstn, Hs.
  - intros i j Hi Hj Hnj.
    rewrite <- !Hdist by auto.
    rewrite <- (firstn_skipn w (Np.argsort distances)) in Hs.
    apply (StronglySorted_app_cross _ _ _ i j Hs Hi).
    assert (Hin : In j (Np.argsort distances)).
    { apply (Permutation_in _ (Permutation_sym (argsort_perm distances))), in_seq. lia. }
    rewrite <- (firstn_skipn w (Np.argsort distances)) in Hin.
    apply in_app_or in Hin as [Hin|Hin]; [contradiction | exact Hin].
Qed.

Lemma loess_window_nearest_witness :
  exists win,
    window_at [Q2Qc 1; Q2Qc 4; Q2Qc 9] [Q2Qc 2; 0; 1] (Q2Qc (1 # 2)) 1 = Ok win
    /\ StronglySorted Qcle (dist_window win).
Proof.
  destruct (loess_window_nearest [Q2Qc 1; Q2Qc 4; Q2Qc 9] [Q2Qc 2; 0; 1]
              (Q2Qc (1 # 2)) 1) as (xs & win & _ & H & _ & _ & Hs & _);
    [discriminate | simpl; lia |].
  exists win. split; [exact H | exact Hs].
Defined.

(** [np.max] returns an entry that bounds the others. *)
Lemma max_spec a m : Np.max a = Ok m -> In m a /\ forall v, In v a -> v <= m.
Proof.
  destruct a as [|x a]; simpl; [discriminate|]. intros H; inversion H; clear H.
  clear m H1. revert x. induction a as [|y a IH]; intros x; simpl.
  - split; [now left|]. intros v [<-|[]]. apply Qcle_refl.
  - destruct (Qclt_le_dec x y) as [Hlt|Hle].
    + destruct (IH y) as [Hin Hub]. split.
      * destruct Hin as [Hin|Hin]; auto.
      * intros v [<-|[<-|Hv]].
        -- apply Qcle_trans with y; [now apply Qclt_le_weak | apply Hub; now left].
        -- apply Hub. now left.
        -- apply Hub. now right.
    + destruct (IH x) as [Hin Hub]. split.
      * destruct Hin as [Hin|Hin]; auto.
      * intros v [<-|[<-|Hv]].
        -- apply Hub. now left.
        -- apply Qcle_trans with x; [exact Hle | apply Hub; now left].
        -- apply Hub. now right.
Qed.

Lemma unit_mult u v : 0 <= u <= 1 -> 0 <= v <= 1 -> 0 <= u * v <= 1.
Proof.
  intros [Hu0 Hu1] [Hv0 Hv1]. split.
  - rewrite <- (Qcmult_0_l v). now apply Qcmult_le_compat_r.
  - apply Qcle_trans with (1 * v); [now apply Qcmult_le_compat_r|].
    now rewrite Qcmult_1_l.
Qed.

Lemma unit_cube u : 0 <= u <= 1 -> 0 <= u ^ 3 <= 1.
Proof.
  intros H. simpl. rewrite Qcmult_1_r. auto using unit_mult.
Qed.

Lemma unit_complement u : 0 <= u <= 1 -> 0 <= 1 - u <= 1.
Proof.
  intros [H0 H1]. split.
  - apply (proj1 (Qcle_minus_iff u 1)) in H1. unfold Qcminus. exact H1.
  - apply (proj2 (Qcle_minus_iff (1 - u) 1)). 
    replace (1 + - (1 - u)) with u by ring. exact H0.
Qed.

(** The tricube weight of a distance [0 <= d <= m]. *)
Lemma tricube_range d m : 0 < m -> 0 <= d <= m -> 0 <= (1 - (d / m) ^ 3) ^ 3 <= 1.
Proof.
  intros Hm [Hd0 Hd1]. apply unit_cube, unit_complement, unit_cube.
  assert (E : d / m * m = d) by (field; intros E; rewrite E in Hm; now apply Qclt_not_eq in Hm).
  split; apply (Qcmult_lt_0_le_reg_r _ _ m Hm); rewrite E.
  - now rewrite Qcmult_0_l.
  - now rewrite Qcmult_1_l.
Qed.

Lemma cube_le u v : 0 <= u -> u <= v -> u ^ 3 <= v ^ 3.
Proof.
  intros Hu Huv. assert (Hv : 0 <= v) by (apply Qcle_trans with u; assumption).
  simpl. rewrite !Qcmult_1_r.
  assert (Huu : 0 <= u * u) by (rewrite <- (Qcmult_0_l u); now apply Qcmult_le_compat_r).
  assert (H1 : u * u <= v * v).
  { apply Qcle_trans with (v * u); [now apply Qcmult_le_compat_r|].
    rewrite (Qcmult_comm v u). now apply Qcmult_le_compat_r. }
  apply Qcle_trans with (v * (u * u)).
  - now apply Qcmult_le_compat_r.
  - rewrite (Qcmult_comm v (u * u)), (Qcmult_comm v (v * v)).
    now apply Qcmult_le_compat_r.
Qed.

(** The tricube weight does not increase with the distance. *)
Lemma tricube_decreasing d d' m :
  0 < m -> 0 <= d -> d <= d' -> d' <= m ->
  (1 - (d' / m) ^ 3) ^ 3 <= (1 - (d / m) ^ 3) ^ 3.
Proof.
  intros Hm Hd Hdd Hd'.
  assert (Hne : m <> 0) by (intros E; rewrite E in Hm; now apply Qclt_not_eq in Hm).
  assert (E : forall t, t / m * m = t) by (intros t; field; exact Hne).
  assert (H0 : 0 <= d / m).
  { apply (Qcmult_lt_0_le_reg_r _ _ m Hm). now rewrite E, Qcmult_0_l. }
  assert (H1 : d / m <= d' / m).
  { apply (Qcmult_lt_0_le_reg_r _ _ m Hm). now rewrite !E. }
  assert (H2 : d' / m <= 1).
  { apply (Qcmult_lt_0_le_reg_r _ _ m Hm). now rewrite E, Qcmult_1_l. }
  apply cube_le.
  - apply unit_complement, unit_cube. split; [|exact H2].
    apply Qcle_trans with (d / m); assumption.
  - unfold Qcminus. apply Qcplus_le_compat; [apply Qcle_refl|].
    apply Qcopp_le_compat. now apply cube_le.
Qed.

Lemma StronglySorted_map_in {A B} (f : A -> B) (R : A -> A -> Prop) (R' : B -> B -> Prop) l :
  (forall a b, In a l -> In b l -> R a b -> R' (f a) (f b)) ->
  StronglySorted R l -> StronglySorted R' (map f l).
Proof.
  intros H Hs. induction Hs as [|a l Hs IH Ha]; simpl; constructor.
  - apply IH. intros x y Hx Hy. apply H; now right.
  - rewrite Forall_forall in *. intros y Hy.
    apply in_map_iff in Hy as (c & <- & Hc). apply H; [now left | now right | now apply Ha].
Qed.

(** X5.  The tricube weights of a window: one weight per selected observation,
    each between 0 and 1, non-increasing along the window; all equal to 1 when
    the largest distance is below 1e-9, and otherwise 0 at every observation
    at the largest distance. *)
Theorem loess_weights_range (y x : list Qc) (b p : Qc) :
  x <> [] -> (length x <= length y)%nat ->
  exists win weights max_dist,
    window_at y x b p = Ok win
    /\ window_weights win = Ok weights
    /\ Np.max (dist_window win) = Ok max_dist
    /\ length weights = length (nearest_indices win)
    /\ Forall (fun w => 0 <= w <= 1) weights
    /\ StronglySorted (fun w w' => w' <= w) weights
    /\ (max_dist < eps -> Forall (fun w => w = 1) weights)
    /\ (eps <= max_dist ->
        forall k, nth_error (dist_window win) k = Some max_dist ->
                  nth_error weights k = Some 0).
Proof.
  intros Hne L.
  destruct (window_at_weights y x b p Hne L)
    as (win & weights & Hwin & Hw & _ & _ & _ & _ & Lw).
  destruct (window_at_explicit y x b p L) as (E & _ & _ & Hb & _).
  assert (Hd : Forall (fun d => 0 <= d) (dist_window win)).
  { rewrite E in Hwin. inversion Hwin; subst win; simpl.
    apply Forall_forall. intros d Hd. apply in_map_iff in Hd as (i & <- & Hi).
    apply Hb in Hi.
    rewrite (nth_map_in (fun xi => Qcabs (xi - p)) _ i 0 0)
      by now rewrite length_map, argsort_length.
    apply Qcabs_nonneg. }
  assert (Hsd : StronglySorted Qcle (dist_window win)).
  { rewrite E in Hwin. inversion Hwin; subst win; simpl.
    apply StronglySorted_map, StronglySorted_firstn, argsort_sorted. }
  clear E Hb.
  unfold window_weights in Hw.
  apply bind_ok in Hw as (m & Hm & Hw).
  exists win, weights, m.
  split; [exact Hwin|].
  split; [unfold window_weights; rewrite Hm; exact Hw|].
  split; [exact Hm|]. split; [exact Lw|].
  destruct (max_spec _ _ Hm) as [_ Hub].
  rewrite Forall_forall in Hd.
  destruct (Qclt_le_dec m eps) as [Hlt|Hle]; inversion Hw; subst weights; clear Hw.
  - assert (H1 : Forall (fun w => w = 1) (Np.ones_like (x_window win))).
    { apply Forall_forall. intros w Hw'. unfold Np.ones_like in Hw'.
      now apply in_map_iff in Hw' as (? & <- & _). }
    split; [|split; [|split]].
    + eapply Forall_impl; [|exact H1]. intros w ->. split; [easy | apply Qcle_refl].
    + unfold Np.ones_like.
      apply (StronglySorted_map_in _ (fun _ _ => True)).
      * intros; apply Qcle_refl.
      * clear. induction (x_window win); constructor; auto.
        apply Forall_forall. auto.
    + intros _. exact H1.
    + intros Hge. exfalso. exact (Qcle_not_lt _ _ Hge Hlt).
  - assert (Hpos : 0 < m) by (apply Qclt_le_trans with eps; [apply eps_pos | exact Hle]).
    rewrite map_map.
    split; [|split; [|split]].
    + apply Forall_forall. intros w Hw'.
      apply in_map_iff in Hw' as (d & <- & Hin).
      apply tricube_range; [exact Hpos|]. split; [now apply Hd | now apply Hub].
    + apply (StronglySorted_map_in _ Qcle); [|exact Hsd].
      intros d d' Hin Hin' Hdd. apply tricube_decreasing; auto.
    + intros Hlt. exfalso. exact (Qcle_not_lt _ _ Hle Hlt).
    + intros _ k Hk. rewrite nth_error_map, Hk. simpl. f_equal.
      apply tricube_at_edge. intros E0. rewrite E0 in Hpos.
      now apply Qclt_not_eq in Hpos.
Qed.

Lemma loess_weights_range_witness :
  exists win weights,
    window_at [Q2Qc 1; Q2Qc 4; Q2Qc 9] [Q2Qc 2; 0; 1] (Q2Qc (1 # 2)) 1 = Ok win
    /\ window_weights win = Ok weights
    /\ Forall (fun w => 0 <= w <= 1) weights.
Proof.
  destruct (loess_weights_range [Q2Qc 1; Q2Qc 4; Q2Qc 9] [Q2Qc 2; 0; 1]
              (Q2Qc (1 # 2)) 1) as (win & weights & m & H & Hw & _ & _ & Hr & _);
    [discriminate | simpl; lia |].
  exists win, weights. split; [exact H|]. split; [exact Hw | exact Hr].
Defined.
End LoessNearest.

(** ** [loess_1d]: the order of the observations *)

Section LoessOrder.
Local Open Scope Qc_scope.
Import Loess.

(** A list in strictly increasing order of its keys is determined by its
    elements. *)
Lemma sorted_perm_unique {A} (key : A -> Qc) (l l' : list A) :
  StronglySorted (fun a b => key a < key b) l ->
  StronglySorted (fun a b => key a < key b) l' ->
  Permutation l l' -> l = l'.
Proof.
  intros Hs. revert l'. induction Hs as [|a l Hs IH Ha]; intros l' Hs' P.
  - apply Permutation_nil in P. now subst.
  - destruct Hs' as [|a' l' Hs' Ha']; [apply Permutation_sym, Permutation_nil in P; easy|].
    rewrite Forall_forall in Ha, Ha'.
    assert (E : a = a').
    { assert (Hin : In a (a' :: l')) by (apply (Permutation_in _ P); now left).
      assert (Hin' : In a' (a :: l))
        by (apply (Permutation_in _ (Permutation_sym P)); now left).
      destruct Hin as [->|Hin]; [reflexivity|].
      destruct Hin' as [->|Hin']; [reflexivity|].
      exfalso. apply (Qclt_not_le _ _ (Ha _ Hin')), Qclt_le_weak, Ha', Hin. }
    subst a'. f_equal. apply IH; [exact Hs'|]. now apply Permutation_cons_inv in P.
Qed.

Lemma StronglySorted_NoDup {A} (R : A -> A -> Prop) l :
  StronglySorted R l -> NoDup l -> StronglySorted (fun a b => R a b /\ a <> b) l.
Proof.
  induction 1 as [|a l Hs IH Ha]; intros Hn; constructor.
  - apply IH. now inversion Hn.
  - rewrite Forall_forall in *. intros b Hb. split; [now apply Ha|].
    intros ->. now inversion Hn.
Qed.

Lemma combine_map_seq (x y : list Qc) :
  length x = length y ->
  map (fun i => (nth i x 0, nth i y 0)) (seq 0 (length x)) = combine x y.
Proof.
  revert y; induction x as [|u x IH]; intros [|v y]; simpl; intros L; try easy.
  f_equal. rewrite <- seq_shift, map_map. apply IH. lia.
Qed.

(** The observations sorted by x, as pairs. *)
Lemma sorted_pairs (x y : list Qc) :
  NoDup x -> length x = length y ->
  let ps := map (fun i => (nth i x 0, nth i y 0)) (Np.argsort x) in
  Permutation ps (combine x y)
  /\ StronglySorted (fun a b => fst a < fst b) ps
  /\ map fst ps = map (fun i => nth i x 0) (Np.argsort x)
  /\ map snd ps = map (fun i => nth i y 0) (Np.argsort x).
Proof.
  intros Hn L ps. split; [|split; [|split]].
  - unfold ps. rewrite <- (combine_map_seq x y L).
    apply Permutation_map, argsort_perm.
  - unfold ps.
    apply (StronglySorted_map_in _ (fun i j => nth i x 0 <= nth j x 0 /\ i <> j)).
    + intros i j Hi Hj [Hle Hne]. simpl.
      apply Qcle_lt_or_eq in Hle as [Hlt|E]; [exact Hlt|].
      exfalso. apply Hne.
      apply (proj1 (NoDup_nth x 0) Hn); auto using argsort_bound.
    + apply StronglySorted_NoDup; [apply argsort_sorted | apply argsort_NoDup].
  - unfold ps. now rewrite map_map.
  - unfold ps. now rewrite map_map.
Qed.

Lemma map_fst_combine (x y : list Qc) : length x = length y -> map fst (combine x y) = x.
Proof.
  revert y; induction x as [|u x IH]; intros [|v y]; simpl; intros L; try easy.
  f_equal. apply IH. lia.
Qed.

(** X6.  [loess_1d] does not depend on the order in which the observations are
    given: for pairwise distinct [x], listing the pairs [(x, y)] in another
    order gives the same result. *)
Theorem loess_1d_order (y x y' x' points : list Qc) (b : Qc) :
  NoDup x -> length y = length x -> length y' = length x' ->
  Permutation (combine x' y') (combine x y) ->
  loess_1d y' x' points b = loess_1d y x points b.
Proof.
  intros Hn L L' P.
  assert (Px : Permutation x' x).
  { rewrite <- (map_fst_combine x' y'), <- (map_fst_combine x y) by lia.
    now apply Permutation_map. }
  assert (Hn' : NoDup x') by (apply (Permutation_NoDup (Permutation_sym Px)), Hn).
  assert (Ln : length x' = length x) by apply (Permutation_length Px).
  destruct (sorted_pairs x y Hn) as (P1 & S1 & X1 & Y1); [lia|].
  destruct (sorted_pairs x' y' Hn') as (P2 & S2 & X2 & Y2); [lia|].
  cbv zeta in *.
  assert (E : map (fun i => (nth i x' 0, nth i y' 0)) (Np.argsort x')
              = map (fun i => (nth i x 0, nth i y 0)) (Np.argsort x)).
  { apply (sorted_perm_unique fst); auto.
    rewrite P2, P. now apply Permutation_sym. }
  rewrite E in X2, Y2. rewrite X1 in X2. rewrite Y1 in Y2.
  unfold loess_1d. rewrite Ln.
  destruct (length x =? 0)%nat; [reflexivity|].
  rewrite !take_map; simpl.
  - now rewrite <- X2, <- Y2.
  - intros i Hi. apply argsort_bound in Hi. lia.
  - intros i Hi. now apply argsort_bound in Hi.
  - intros i Hi. apply argsort_bound in Hi. lia.
  - intros i Hi. now apply argsort_bound in Hi.
Qed.

Lemma loess_1d_order_witness :
  loess_1d [Q2Qc 7; 1; Q2Qc 9] [Q2Qc 3; 0; Q2Qc 4] [1; Q2Qc 2] (Q2Qc (2 # 3))
  = loess_1d [1; Q2Qc 7; Q2Qc 9] [0; Q2Qc 3; Q2Qc 4] [1; Q2Qc 2] (Q2Qc (2 # 3)).
Proof.
  apply (loess_1d_order [1; Q2Qc 7; Q2Qc 9] [0; Q2Qc 3; Q2Qc 4]
           [Q2Qc 7; 1; Q2Qc 9] [Q2Qc 3; 0; Q2Qc 4]); try reflexivity.
  - repeat constructor; simpl; intuition discriminate.
  - simpl. apply perm_swap.
Defined.
End LoessOrder.

(** ** [loess_1d]: windows of at most two observations *)

Section SmallWindow.
Local Open Scope Qc_scope.
Import Loess.

Lemma mapM_pointwise {A} (f : A -> result Qc) (l : list A) (r : list Qc) (dA : A) :
  length r = length l ->
  (forall i, (i < length l)%nat -> f (nth i l dA) = Ok (nth i r 0)) ->
  mapM f l = Ok r.
Proof.
  revert r; induction l as [|a l IH]; intros [|v r]; simpl; intros L H; try easy.
  rewrite (H 0%nat) by lia. simpl.
  rewrite (IH r); [reflexivity | lia |].
  intros i Hi. apply (H (S i)). lia.
Qed.

Lemma Qcabs_zero q : Qcabs q = 0 -> q = 0.
Proof.
  intros H. destruct (Qc_eq_dec q 0) as [E|E]; [exact E|].
  exfalso. destruct (Qclt_le_dec q 0) as [Hlt|Hle].
  - rewrite Qcabs_neg in H by now apply Qclt_le_weak.
    apply E. rewrite <- (Qcopp_involutive q), H. reflexivity.
  - rewrite Qcabs_pos in H by exact Hle. contradiction.
Qed.

(** The nearest sorted observation to a query point that is an observation. *)
Lemma nearest_is_self (y x : list Qc) (i : nat) (k0 : nat) rest :
  NoDup x -> length y = length x -> (i < length x)%nat ->
  let xs := map (fun j => nth j x 0) (Np.argsort x) in
  let ys := map (fun j => nth j y 0) (Np.argsort x) in
  Np.argsort (map (fun xi => Qcabs (xi - nth i x 0)) xs) = k0 :: rest ->
  nth k0 xs 0 = nth i x 0 /\ nth k0 ys 0 = nth i y 0
  /\ forall k1, In k1 rest -> nth k1 xs 0 <> nth i x 0.
Proof.
  intros Hn L Hi xs ys E.
  set (p := nth i x 0) in *.
  set (distances := map (fun xi => Qcabs (xi - p)) xs) in *.
  assert (Lxs : length xs = length x) by (unfold xs; now rewrite length_map, argsort_length).
  assert (Ld : length distances = length x) by (unfold distances; now rewrite length_map).
  assert (Hdist : forall k, (k < length x)%nat -> nth k distances 0 = Qcabs (nth k xs 0 - p)).
  { intros k Hk. unfold distances.
    apply (nth_map_in (fun xi => Qcabs (xi - p)) xs k 0 0). lia. }
  assert (Hxs : forall k, (k < length x)%nat -> nth k xs 0 = nth (nth k (Np.argsort x) 0%nat) x 0).
  { intros k Hk. unfold xs.
    apply (nth_map_in (fun j => nth j x 0) _ k 0%nat 0). now rewrite argsort_length. }
  assert (Hys : forall k, (k < length x)%nat -> nth k ys 0 = nth (nth k (Np.argsort x) 0%nat) y 0).
  { intros k Hk. unfold ys.
    apply (nth_map_in (fun j => nth j y 0) _ k 0%nat 0). now rewrite argsort_length. }
  assert (Hb : forall k, (k < length x)%nat -> (nth k (Np.argsort x) 0 < length x)%nat).
  { intros k Hk. apply argsort_bound, nth_In. now rewrite argsort_length. }
  (* the position of the observation i among the sorted ones *)
  assert (Hpos : exists ks, (ks < length x)%nat /\ nth ks (Np.argsort x) 0%nat = i).
  { assert (Hin : In i (Np.argsort x)).
    { apply (Permutation_in _ (Permutation_sym (argsort_perm x))), in_seq. lia. }
    apply (In_nth _ _ 0%nat) in Hin as (ks & Hks & Eks).
    rewrite argsort_length in Hks. eauto. }
  destruct Hpos as (ks & Hks & Eks).
  assert (Hinj : forall a b, (a < length x)%nat -> (b < length x)%nat ->
                             nth a xs 0 = nth b xs 0 -> a = b).
  { intros a b Ha Hb' Eab. rewrite !Hxs in Eab by assumption.
    apply (proj1 (NoDup_nth x 0) Hn) in Eab; auto.
    apply (proj1 (NoDup_nth (Np.argsort x) 0%nat) (argsort_NoDup x)) in Eab;
      auto; now rewrite argsort_length. }
  pose proof (argsort_sorted distances) as Hs. rewrite E in Hs.
  pose proof (argsort_perm distances) as Hp. rewrite E, Ld in Hp.
  pose proof (argsort_NoDup distances) as Hnd. rewrite E in Hnd.
  assert (Hk0 : (k0 < length x)%nat).
  { apply (Permutation_in k0) in Hp; [apply in_seq in Hp; lia | now left]. }
  assert (Hall : forall k, In k rest -> (k < length x)%nat).
  { intros k Hk. apply (Permutation_in k) in Hp; [apply in_seq in Hp; lia | now right]. }
  assert (E0 : nth k0 xs 0 = p).
  { assert (Hle : nth k0 distances 0 <= nth ks distances 0).
    { assert (Hin : In ks (k0 :: rest))
        by (apply (Permutation_in _ (Permutation_sym Hp)), in_seq; lia).
      destruct Hin as [<-|Hin]; [apply Qcle_refl|].
      apply StronglySorted_inv in Hs as [_ Hf]. rewrite Forall_forall in Hf. now apply Hf. }
    rewrite !Hdist in Hle by assumption.
    rewrite (Hxs ks Hks), Eks in Hle. fold p in Hle.
    replace (p - p) with 0 in Hle by ring.
    assert (Hz : Qcabs (nth k0 xs 0 - p) = 0).
    { apply Qcle_antisym; [exact Hle | apply Qcabs_nonneg]. }
    apply Qcabs_zero in Hz.
    transitivity (nth k0 xs 0 - p + p); [ring | rewrite Hz; ring]. }
  assert (Ek : k0 = ks).
  { apply Hinj; auto. rewrite E0, (Hxs ks Hks), Eks. reflexivity. }
  split; [exact E0|]. split.
  - rewrite (Hys k0 Hk0), Ek, Eks. reflexivity.
  - intros k1 H1 E1. rewrite <- E0 in E1.
    apply Hinj in E1; auto. subst k1. now inversion Hnd.
Qed.

Lemma eps_le_1 : eps <= 1.
Proof. apply (eps_le_of_nat 1). lia. Qed.

(** The local line of a window that holds the query point alone. *)
Lemma local_fit_one idx (p v : Qc) :
  exists ab,
    local_fit {| nearest_indices := idx; x_window := p :: nil; y_window := v :: nil;
                 dist_window := 0 :: nil |} = Ok ab
    /\ fst ab + snd ab * p = v.
Proof.
  unfold local_fit, window_weights. cbn [dist_window x_window y_window Np.max fold_left bind].
  destruct (Qclt_le_dec 0 eps) as [_|H]; [|exfalso; exact (Qcle_not_lt _ _ H eps_pos)].
  cbn [Np.ones_like map bind].
  unfold linalg_solve, det, normal_equations, Np.sum, Np.mul.
  cbn [Np.map2 fold_right s_w s_wx s_wxx s_wy s_wxy].
  destruct (Qc_eq_dec _ 0) as [_|Hd]; [|exfalso; apply Hd; ring].
  unfold fallback, Np.sum, Np.mul. cbn [Np.map2 fold_right].
  destruct (Qclt_le_dec (1 + 0) eps) as [H|_].
  - exfalso. apply (Qcle_not_lt _ _ eps_le_1). now rewrite Qcplus_0_r in H.
  - eexists. split; [reflexivity|]. cbn [fst snd]. field. discriminate.
Qed.

(** The local line of a window of two observations, the nearer of which is
    the query point. *)
Lemma local_fit_two idx (p q v u d : Qc) :
  p <> q -> 0 < d ->
  exists ab,
    local_fit {| nearest_indices := idx; x_window := p :: q :: nil;
                 y_window := v :: u :: nil; dist_window := 0 :: d :: nil |} = Ok ab
    /\ fst ab + snd ab * p = v.
Proof.
  intros Hpq Hd.
  assert (Hd0 : d <> 0) by (intros E; rewrite E in Hd; now apply Qclt_not_eq in Hd).
  unfold local_fit, window_weights. cbn [dist_window x_window y_window Np.max fold_left].
  destruct (Qclt_le_dec 0 d) as [_|H]; [|exfalso; exact (Qcle_not_lt _ _ H Hd)].
  cbn [bind].
  destruct (Qclt_le_dec d eps) as [Hlt|Hle].
  - cbn [Np.ones_like map bind].
    set (e := normal_equations (1 :: 1 :: nil) (p :: q :: nil) (v :: u :: nil)).
    assert (Hdet : det e = (p - q) * (p - q)).
    { unfold det, e, normal_equations, Np.sum, Np.mul.
      cbn [Np.map2 fold_right s_w s_wx s_wxx s_wy s_wxy]. ring. }
    destruct (linalg_solve_cases e) as [[Hz _] | [_ [[a0 b0] Hs]]].
    + exfalso. rewrite Hdet in Hz. apply Qcmult_integral in Hz. apply Hpq.
      transitivity (p - q + q); [ring | destruct Hz as [-> | ->]; ring].
    + rewrite Hs. eexists. split; [reflexivity|]. cbn [fst snd].
      destruct (linalg_solve_sound e a0 b0 Hs) as [E1 E2].
      unfold e, normal_equations, Np.sum, Np.mul in E1, E2.
      cbn [Np.map2 fold_right s_w s_wx s_wxx s_wy s_wxy] in E1, E2.
      assert (Hc : (q - p) * (a0 + b0 * p - v) = 0).
      { transitivity (q * ((1 + (1 + 0)) * a0 + (1 * p + (1 * q + 0)) * b0)
                      - ((1 * p + (1 * q + 0)) * a0 + (1 * p * p + (1 * q * q + 0)) * b0)
                      - (q - p) * v);
          [ring | rewrite E1, E2; ring]. }
      apply Qcmult_integral in Hc. destruct Hc as [Hc|Hc].
      * exfalso. apply Hpq. transitivity (p + (q - p)); [rewrite Hc; ring | ring].
      * transitivity (a0 + b0 * p - v + v); [ring | rewrite Hc; ring].
  - cbn [map bind].
    assert (W0 : (1 - (0 / d) ^ 3) ^ 3 = 1) by (simpl; field; exact Hd0).
    rewrite W0, (tricube_at_edge d Hd0).
    unfold linalg_solve, det, normal_equations, Np.sum, Np.mul.
    cbn [Np.map2 fold_right s_w s_wx s_wxx s_wy s_wxy].
    destruct (Qc_eq_dec _ 0) as [_|Hn]; [|exfalso; apply Hn; ring].
    unfold fallback, Np.sum, Np.mul. cbn [Np.map2 fold_right].
    destruct (Qclt_le_dec (1 + (0 + 0)) eps) as [H|_].
    + exfalso. apply (Qcle_not_lt _ _ eps_le_1).
      now replace (1 + (0 + 0)) with 1 in H by ring.
    + eexists. split; [reflexivity|]. cbn [fst snd]. field. discriminate.
Qed.

(** With a window of at most two observations the estimate at an observed
    point is the observed value. *)
Lemma estimate_at_observation (y x : list Qc) (b : Qc) (i : nat) :
  NoDup x -> length y = length x ->
  (num_points_in_window b (length x) <= 2)%Z -> (i < length x)%nat ->
  (win <- window_at y x b (nth i x 0) ;;
   ab <- local_fit win ;;
   Ok (fst ab + snd ab * nth i x 0)) = Ok (nth i y 0).
Proof.
  intros Hn L Hw Hi.
  assert (Lx : (length x <= length y)%nat) by lia.
  destruct (window_at_explicit y x b (nth i x 0) Lx) as (-> & Lxs & Lys & Hb & _).
  set (xs := map (fun j => nth j x 0) (Np.argsort x)) in *.
  set (ys := map (fun j => nth j y 0) (Np.argsort x)) in *.
  set (p := nth i x 0) in *.
  set (distances := map (fun xi => Qcabs (xi - p)) xs) in *.
  assert (Ld : length distances = length x) by (unfold distances; now rewrite length_map).
  assert (H1 : (1 <= length x)%nat) by lia.
  pose proof (num_points_in_window_bounds b (length x) H1) as Hbd.
  assert (Hdist : forall k, (k < length x)%nat -> nth k distances 0 = Qcabs (nth k xs 0 - p)).
  { intros k Hk. unfold distances.
    apply (nth_map_in (fun xi => Qcabs (xi - p)) xs k 0 0). lia. }
  pose proof (argsort_length distances) as La. rewrite Ld in La.
  destruct (Np.argsort distances) as [|k0 rest] eqn:E; [simpl in La; lia|].
  destruct (nearest_is_self y x i k0 rest Hn L Hi E) as (E0 & Ey & Hrest).
  fold xs ys p in E0, Ey, Hrest.
  assert (Hk0 : (k0 < length x)%nat).
  { rewrite <- Ld. apply (argsort_bound distances). rewrite E. now left. }
  assert (D0 : nth k0 distances 0 = 0).
  { rewrite Hdist, E0 by exact Hk0. replace (p - p) with 0 by ring.
    apply Qcabs_pos, Qcle_refl. }
  cbn [bind].
  assert (Hcase : Z.to_nat (num_points_in_window b (length x)) = 1%nat
                  \/ Z.to_nat (num_points_in_window b (length x)) = 2%nat) by lia.
  destruct Hcase as [W|W]; rewrite W.
  - cbn [firstn map]. rewrite E0, Ey, D0.
    destruct (local_fit_one (k0 :: nil) p (nth i y 0)) as (ab & -> & Hab).
    cbn [bind]. now rewrite Hab.
  - destruct rest as [|k1 rest']; [change (length (k0 :: nil)) with 1%nat in La; lia|].
    cbn [firstn map]. rewrite E0, Ey, D0.
    assert (Hk1 : (k1 < length x)%nat).
    { rewrite <- Ld. apply (argsort_bound distances). rewrite E. right. now left. }
    assert (Hq : p <> nth k1 xs 0).
    { intros Eq. apply (Hrest k1); [now left | now symmetry]. }
    destruct (local_fit_two (k0 :: k1 :: nil) p (nth k1 xs 0) (nth i y 0) (nth k1 ys 0)
                (nth k1 distances 0) Hq) as (ab & -> & Hab).
    + rewrite Hdist by exact Hk1.
      destruct (Qc_eq_dec (Qcabs (nth k1 xs 0 - p)) 0) as [Ez|Ez].
      * exfalso. apply Qcabs_zero in Ez. apply Hq.
        transitivity (nth k1 xs 0 - p + p); [rewrite Ez; ring | ring].
      * destruct (Qcle_lt_or_eq _ _ (Qcabs_nonneg (nth k1 xs 0 - p))) as [Hlt|Heq];
          [exact Hlt | exfalso; apply Ez; now symmetry].
    + cbn [bind]. now rewrite Hab.
Qed.

(** X7.  When the window holds at most two observations and the x values are
    pairwise distinct, [loess_1d] evaluated at the observed x values returns
    the observed [y] unchanged: nothing is smoothed. *)
Theorem loess_1d_small_window (y x : list Qc) (b : Qc) :
  NoDup x -> length y = length x ->
  (num_points_in_window b (length x) <= 2)%Z ->
  loess_1d y x x b = Ok y.
Proof.
  intros Hn L Hw.
  destruct x as [|x0 x'].
  { destruct y; [reflexivity | discriminate]. }
  rewrite (loess_1d_window_at y (x0 :: x') (x0 :: x') b); [|discriminate|lia].
  apply (mapM_pointwise _ (x0 :: x') y 0); [exact L|].
  intros i Hi. now apply estimate_at_observation.
Qed.

Lemma loess_1d_small_window_witness :
  loess_1d [Q2Qc 7; 1; Q2Qc 9; Q2Qc 4] [Q2Qc 3; 0; Q2Qc 4; Q2Qc 10]
    [Q2Qc 3; 0; Q2Qc 4; Q2Qc 10] (Q2Qc (1 # 4))
  = Ok [Q2Qc 7; 1; Q2Qc 9; Q2Qc 4].
Proof.
  apply loess_1d_small_window.
  - repeat constructor; simpl; intuition discriminate.
  - reflexivity.
  - vm_compute. discriminate.
Defined.
End SmallWindow.

(** ** [SimpleSTL.fit]: the cycle-subseries of step 2 *)

Section SubseriesFacts.
Local Open Scope Qc_scope.

Lemma arange_length start stop step :
  length (Np.arange start stop step) = Nat.div (stop - start + (step - 1)) step.
Proof. unfold Np.arange. now rewrite length_map, length_seq. Qed.

Lemma arange_nth start stop step k :
  (k < length (Np.arange start stop step))%nat ->
  nth k (Np.arange start stop step) 0%nat = (start + k * step)%nat.
Proof.
  intros H. rewrite arange_length in H. unfold Np.arange.
  rewrite (nth_map_in (fun k => (start + k * step)%nat) _ k 0%nat 0%nat)
    by now rewrite length_seq.
  now rewrite seq_nth.
Qed.

(** The entries below [stop] of the progression [start, start + step, ...]. *)
Lemma arange_position start stop step k :
  (0 < step)%nat ->
  ((k < length (Np.arange start stop step))%nat <-> (start + k * step < stop)%nat).
Proof.
  intros Hs. rewrite arange_length. split; intros H.
  - pose proof (Nat.Div0.mul_div_le (stop - start + (step - 1)) step) as D. nia.
  - apply (Nat.lt_le_trans _ (S k)); [lia|].
    apply Nat.div_le_lower_bound; [lia | nia].
Qed.

Lemma arange_In start stop step j :
  (0 < step)%nat -> (start < step)%nat ->
  (In j (Np.arange start stop step) <-> (j < stop)%nat /\ (j mod step = start)%nat).
Proof.
  intros Hs Hlt. split.
  - intros H. split; [now apply (arange_bound start stop step)|].
    unfold Np.arange in H. apply in_map_iff in H as (k & <- & _).
    rewrite Nat.Div0.mod_add. now apply Nat.mod_small.
  - intros [Hj Hm].
    pose proof (Nat.div_mod_eq j step) as E. rewrite Hm in E.
    unfold Np.arange. apply in_map_iff. exists (j / step)%nat. split; [lia|].
    apply in_seq. split; [lia|]. simpl.
    pose proof (proj2 (arange_position start stop step (j / step) Hs)) as Q.
    rewrite arange_length in Q. apply Q. lia.
Qed.

Lemma arange_NoDup start stop step : (0 < step)%nat -> NoDup (Np.arange start stop step).
Proof.
  intros Hs. unfold Np.arange. apply NoDup_map_injective; [|apply seq_NoDup].
  intros a b _ _ E. nia.
Qed.

(** [a[i] = v] changes the entry [i] only. *)
Lemma set_nth_spec a i v a' :
  Np.set_nth a i v = Ok a' ->
  length a' = length a /\ forall j, nth j a' 0 = if (j =? i)%nat then v else nth j a 0.
Proof.
  revert i a'; induction a as [|x a IH]; intros i a'; simpl; [discriminate|].
  destruct i as [|i].
  - intros H; inversion H; subst. split; [reflexivity|]. now intros [|j].
  - intros H. apply bind_ok in H as (r & Hr & H). inversion H; subst.
    destruct (IH i r Hr) as [L Hn]. split; [simpl; lia|].
    intros [|j]; [reflexivity | apply Hn].
Qed.

(** [a[idx] = vals] for distinct indices: the entry [idx[k]] becomes
    [vals[k]], the other entries stay. *)
Lemma put_spec a idx vals :
  NoDup idx -> (forall i, In i idx -> (i < length a)%nat) -> length idx = length vals ->
  exists a',
    Np.put a idx vals = Ok a' /\ length a' = length a
    /\ (forall k, (k < length idx)%nat -> nth (nth k idx 0%nat) a' 0 = nth k vals 0)
    /\ (forall j, ~ In j idx -> nth j a' 0 = nth j a 0).
Proof.
  revert a vals; induction idx as [|i idx IH]; intros a [|v vals] Hn Hb L;
    simpl in *; try lia.
  - exists a. repeat split; auto. intros k Hk. lia.
  - inversion Hn as [|? ? Hni Hn']; subst.
    destruct (set_nth_total a i v) as (a1 & E1 & L1); [apply Hb; now left|].
    rewrite E1. simpl.
    destruct (set_nth_spec a i v a1 E1) as [_ S1].
    destruct (IH a1 vals Hn') as (a' & E' & L' & Hk & Ho);
      [intros j Hj; rewrite L1; apply Hb; now right | lia |].
    exists a'. split; [exact E'|]. split; [lia|]. split.
    + intros [|k] Hlt.
      * rewrite (Ho i Hni), S1. now rewrite Nat.eqb_refl.
      * apply Hk. lia.
    + intros j Hj. rewrite Ho by tauto. rewrite S1.
      destruct (Nat.eqb_spec j i); [subst; tauto | reflexivity].
Qed.
End SubseriesFacts.

Section SeasonalSmoothing.
Local Open Scope Qc_scope.
Import STL.
Variables (times des : list Qc) (n : nat) (period : Z) (s_span : Qc).
Hypothesis times_n : length times = n.
Hypothesis des_n : length des = n.
Hypothesis period_pos : (1 <= period)%Z.

Lemma subseries_loess_total r :
  exists sm, subseries_loess times des n period s_span r = Ok sm
             /\ length sm = length (Np.arange r n (Z.to_nat period)).
Proof.
  unfold subseries_loess.
  match goal with |- context [Loess.loess_1d ?y ?x ?pts ?b] =>
    destruct (loess_1d_total y x pts b) as (sm & -> & L) end;
    [now rewrite !length_map|].
  rewrite length_map in L. eauto.
Qed.

Lemma smooth_subseries_step i acc :
  (i < Z.to_nat period)%nat -> length acc = n ->
  exists sm acc',
    subseries_loess times des n period s_span i = Ok sm
    /\ smooth_subseries times n period s_span des i acc = Ok acc'
    /\ length acc' = n
    /\ forall t, (t < n)%nat ->
         nth t acc' 0 = if (t mod Z.to_nat period =? i)%nat
                        then nth (t / Z.to_nat period) sm 0 else nth t acc 0.
Proof.
  intros Hi La.
  set (P := Z.to_nat period) in *.
  assert (HP : (0 < P)%nat) by lia.
  destruct (subseries_loess_total i) as (sm & Hsm & Lsm). fold P in Lsm.
  exists sm. unfold smooth_subseries. fold P.
  set (idx := Np.arange i n P) in *.
  assert (Hb : forall j, In j idx -> (j < n)%nat) by (intros j; apply arange_bound, HP).
  destruct (Nat.ltb_spec 0 (length idx)) as [Hlen|Hlen].
  - rewrite !take_map by (intros j Hj; rewrite ?times_n, ?des_n; auto). simpl.
    pose proof Hsm as Hsm'. unfold subseries_loess in Hsm'. fold P idx in Hsm'. rewrite Hsm'. simpl.
    destruct (put_spec acc idx sm) as (acc' & -> & L' & Hk & Ho);
      [apply arange_NoDup, HP | intros j Hj; rewrite La; auto | lia |].
    exists acc'. split; [exact Hsm|]. split; [reflexivity|]. split; [lia|].
    intros t Ht. destruct (Nat.eqb_spec (t mod P) i) as [E|E].
    + assert (Hin : In t idx) by (apply arange_In; auto).
      pose proof (Nat.div_mod_eq t P) as D. rewrite E in D.
      assert (Hpos : (t / P < length idx)%nat) by (apply arange_position; lia).
      rewrite <- (Hk (t / P)%nat Hpos). f_equal.
      unfold idx. rewrite arange_nth by exact Hpos. lia.
    + apply Ho. intros Hin. apply arange_In in Hin; auto. tauto.
  - exists acc. split; [exact Hsm|]. split; [reflexivity|]. split; [exact La|].
    intros t Ht. destruct (Nat.eqb_spec (t mod P) i) as [E|E]; [|reflexivity].
    exfalso. assert (Hin : In t idx) by (apply arange_In; auto).
    destruct idx; [easy | simpl in Hlen; lia].
Qed.

(** Step 2 of the inner pass: position [t] of [seasonal_smoothed] holds the
    LOESS of the cycle-subseries [t mod period], at its point [t / period]. *)
Lemma seasonal_smoothed_spec :
  exists ss,
    foldM (smooth_subseries times n period s_span des) (range period) (Np.zeros n) = Ok ss
    /\ length ss = n
    /\ forall t, (t < n)%nat ->
         exists sm, subseries_loess times des n period s_span (t mod Z.to_nat period) = Ok sm
                    /\ (t / Z.to_nat period < length sm)%nat
                    /\ nth t ss 0 = nth (t / Z.to_nat period) sm 0.
Proof.
  set (P := Z.to_nat period).
  assert (HP : (0 < P)%nat) by (unfold P; lia).
  assert (G : forall len s acc, (s + len <= P)%nat -> length acc = n ->
            exists ss, foldM (smooth_subseries times n period s_span des) (seq s len) acc = Ok ss
                       /\ length ss = n
                       /\ forall t, (t < n)%nat ->
                            ((s <= t mod P < s + len)%nat ->
                               exists sm, subseries_loess times des n period s_span (t mod P) = Ok sm
                                          /\ nth t ss 0 = nth (t / P)%nat sm 0)
                            /\ (~ (s <= t mod P < s + len)%nat -> nth t ss 0 = nth t acc 0)).
  { induction len as [|len IH]; intros s acc Hs La; simpl.
    - exists acc. split; [reflexivity|]. split; [exact La|]. intros t Ht. split; [lia | auto].
    - destruct (smooth_subseries_step s acc) as (sm & acc' & Hsm & -> & L' & Hn); [lia | exact La|].
      simpl. destruct (IH (S s) acc') as (ss & -> & Lss & Hss); [lia | exact L'|].
      exists ss. split; [reflexivity|]. split; [exact Lss|].
      intros t Ht. destruct (Hss t Ht) as [Hin Hout]. specialize (Hn t Ht). fold P in Hn.
      split.
      + intros Hr. destruct (Nat.eq_dec (t mod P) s) as [E|E].
        * exists sm. rewrite E. split; [exact Hsm|].
          rewrite Hout by lia. rewrite Hn, E. now rewrite Nat.eqb_refl.
        * apply Hin. lia.
      + intros Hr. rewrite Hout by lia. rewrite Hn.
        destruct (Nat.eqb_spec (t mod P) s); [lia | reflexivity]. }
  destruct (G P 0%nat (Np.zeros n)) as (ss & Hss & Lss & Hspec); [lia | apply zeros_length|].
  exists ss. split; [exact Hss|]. split; [exact Lss|].
  intros t Ht. destruct (Hspec t Ht) as [Hin _].
  destruct Hin as (sm & Hsm & Hv); [split; [lia | apply Nat.mod_upper_bound; lia]|].
  exists sm. split; [exact Hsm|]. split; [|exact Hv].
  destruct (subseries_loess_total (t mod P)) as (sm' & Hsm' & L').
  rewrite Hsm in Hsm'. inversion Hsm'; subst sm'. rewrite L'. fold P.
  apply arange_position; [exact HP|].
  pose proof (Nat.div_mod_eq t P). lia.
Qed.
End SeasonalSmoothing.

(** ** [SimpleSTL.fit]: the last pass *)

Section STLPasses.
Local Open Scope Qc_scope.
Import STL.

Lemma sub_repeat a b n : Np.sub (repeat a n) (repeat b n) = repeat (a - b) n.
Proof. unfold Np.sub. induction n; simpl; [reflexivity | now f_equal]. Qed.

Lemma sub_zeros_r d : Np.sub d (Np.zeros (length d)) = d.
Proof.
  unfold Np.sub, Np.zeros. induction d as [|v d IH]; simpl; [reflexivity|].
  f_equal; [ring | exact IH].
Qed.

Lemma repeatM_last {S} k (f : S -> result S) st st' :
  (1 <= k)%nat -> repeatM k f st = Ok st' -> exists st0, f st0 = Ok st'.
Proof.
  revert st; induction k as [|k IH]; intros st Hk H; [lia|].
  simpl in H. apply bind_ok in H as (s1 & H1 & H).
  destruct k as [|k]; [simpl in H; inversion H; subst; eauto|].
  apply (IH s1); [lia | exact H].
Qed.

(** What [fit] stores on a non-empty series: the result of the loops, run
    with the spans given or their defaults. *)
Lemma fit_iterations self data :
  data <> [] ->
  let n := length data in
  let times := map Np.of_nat (seq 0 n) in
  let ss := or_default (seasonal_smoother_span self) (Q2Qc 7 / Np.of_nat n) in
  let ntb := or_default (n_trend_bandwidth self)
               (default_n_trend_bandwidth (seasonal_period self)) in
  let ts := or_default (trend_smoother_span self) (Np.of_Z ntb / Np.of_nat n) in
  exists c self',
    iterations data times n (seasonal_period self) ss ts
      (n_outer_iterations self) (n_inner_iterations self)
      {| c_seasonal := Np.zeros n; c_trend := Np.zeros n; c_residual := data |} = Ok c
    /\ fit self data = Ok self'
    /\ get_components self' = (Some (c_seasonal c), Some (c_trend c), Some (c_residual c))
    /\ seasonal_smoother_span self' = Some ss
    /\ trend_smoother_span self' = Some ts.
Proof.
  intros Hne n times ss ntb ts.
  destruct (iterations_total data times (seasonal_period self) ss ts (times_length _)
              (n_outer_iterations self) (n_inner_iterations self) _ (initial_decomposes data))
    as (c & Hc & _).
  exists c. unfold fit. fold n.
  destruct (Nat.eqb_spec n 0) as [E|E];
    [apply length_zero_iff_nil in E; contradiction|].
  cbv zeta. simpl. fold n times ss ntb ts. fold n in Hc. rewrite Hc. simpl.
  eexists. split; [reflexivity|]. split; [reflexivity|]. repeat split.
Qed.

Section OnePass.
Variables (data times : list Qc) (period : Z) (s_span t_span : Qc).
Let n := length data.
Hypothesis times_n : length times = n.

(** The three LOESS calls of a pass. *)
Lemma inner_pass_steps oi rw ii c c' :
  inner_pass data times n period s_span t_span oi rw ii c = Ok c' ->
  exists ss st,
    foldM (smooth_subseries times n period s_span (Np.sub data (c_trend c)))
      (range period) (Np.zeros n) = Ok ss
    /\ Loess.loess_1d ss times times t_span = Ok st
    /\ c_seasonal c' = Np.sub ss st
    /\ Loess.loess_1d (Np.sub data (c_seasonal c')) times times t_span = Ok (c_trend c')
    /\ c_residual c' = Np.sub (Np.sub data (c_seasonal c')) (c_trend c').
Proof.
  unfold inner_pass. intros H.
  apply bind_ok in H as (ss & Hss & H).
  apply bind_ok in H as (st & Hst & H).
  apply bind_ok in H as (tr & Htr & H).
  inversion H; subst c'; simpl. exists ss, st. auto.
Qed.
End OnePass.

(** X8.  For a series that is not empty, at least one inner iteration and an outer
    count that is not negative, the stored components are those of one pass: the seasonal component is a
    seasonal smoothing minus its LOESS under the trend span, the trend is the
    LOESS of [data - seasonal] under the trend span, and the residual is
    [data - seasonal - trend]. *)
Theorem stl_last_pass (self : SimpleSTL) (data : list Qc) :
  data <> [] -> (1 <= n_inner_iterations self)%Z -> (0 <= n_outer_iterations self)%Z ->
  let times := map Np.of_nat (seq 0 (length data)) in
  exists self' s t r ts seasonal_smoothed seasonal_trend,
    fit self data = Ok self'
    /\ get_components self' = (Some s, Some t, Some r)
    /\ trend_smoother_span self' = Some ts
    /\ Loess.loess_1d seasonal_smoothed times times ts = Ok seasonal_trend
    /\ s = Np.sub seasonal_smoothed seasonal_trend
    /\ Loess.loess_1d (Np.sub data s) times times ts = Ok t
    /\ r = Np.sub (Np.sub data s) t.
Proof.
  intros Hne Hm Hk times.
  destruct (fit_iterations self data Hne) as (c & self' & Hc & Hfit & Hg & _ & Hts).
  cbv zeta in *. fold times in Hc.
  rewrite iterations_repeatM in Hc.
  apply repeatM_last in Hc as [c0 Hc]; [|nia].
  apply inner_pass_steps in Hc as (ss & st & _ & Hst & Hs & Ht & Hr).
  exists self', (c_seasonal c), (c_trend c), (c_residual c). eexists. exists ss, st.
  split; [exact Hfit|]. split; [exact Hg|]. split; [exact Hts|]. auto.
Qed.

Lemma stl_last_pass_witness :
  exists self' s t r,
    fit (__init__ 2 None None None None None 2 0) [Q2Qc 1; Q2Qc 5; Q2Qc 2; Q2Qc 7] = Ok self'
    /\ get_components self' = (Some s, Some t, Some r)
    /\ r = Np.sub (Np.sub [Q2Qc 1; Q2Qc 5; Q2Qc 2; Q2Qc 7] s) t.
Proof.
  destruct (stl_last_pass (__init__ 2 None None None None None 2 0)
              [Q2Qc 1; Q2Qc 5; Q2Qc 2; Q2Qc 7])
    as (self' & s & t & r & ts & ss & st & H & Hg & _ & _ & _ & _ & Hr);
    [discriminate | simpl; lia | simpl; lia |].
  exists self', s, t, r. auto.
Defined.
End STLPasses.

(** ** [SimpleSTL.fit]: step 2, constant series, no seasonal period *)

Section STLEdge.
Local Open Scope Qc_scope.
Import STL.

Lemma map_const {A} (c : Qc) (l : list A) : map (fun _ => c) l = repeat c (length l).
Proof. induction l; simpl; [reflexivity | now f_equal]. Qed.

Lemma Forall_repeat (c : Qc) n : Forall (fun v => v = c) (repeat c n).
Proof. apply Forall_forall. intros v Hv. now apply repeat_spec in Hv. Qed.

(** [loess_1d] of a constant series over the times of [fit]. *)
Lemma loess_1d_repeat c n (times : list Qc) b :
  (1 <= n)%nat -> length times = n ->
  Loess.loess_1d (repeat c n) times times b = Ok (repeat c n).
Proof.
  intros Hn L.
  rewrite (loess_1d_of_constant (repeat c n) times times b c).
  - now rewrite map_const, L.
  - destruct times; [simpl in L; lia | discriminate].
  - rewrite repeat_length. lia.
  - apply Forall_repeat.
Qed.

Lemma repeatM_fixed {S} (I : S -> Prop) (f : S -> result S) (st1 : S) k st :
  (forall s, I s -> f s = Ok st1) -> I st1 -> I st -> (1 <= k)%nat ->
  repeatM k f st = Ok st1.
Proof.
  intros Hf H1 Hst Hk. revert st Hst. induction k as [|k IH]; intros st Hst; [lia|].
  simpl. rewrite (Hf st Hst). simpl.
  destruct k as [|k]; [reflexivity|]. apply IH; [lia | exact H1].
Qed.

(** X9.  Step 2 of a pass, for a period of at least 1 and as many times as values:
    the loop over the
    cycle-subseries never fails and fills every position of
    [seasonal_smoothed]; position [t] is entry [t / period] of the subseries
    [arange(t mod period, n, period)], and receives the LOESS of that
    subseries at that entry. *)
Theorem seasonal_smoothing_by_subseries (times des : list Qc) (period : Z) (s_span : Qc) :
  (1 <= period)%Z -> length times = length des ->
  let n := length des in
  let P := Z.to_nat period in
  exists seasonal_smoothed,
    foldM (smooth_subseries times n period s_span des) (range period) (Np.zeros n)
    = Ok seasonal_smoothed
    /\ length seasonal_smoothed = n
    /\ forall t, (t < n)%nat ->
       let period_indices := Np.arange (t mod P) n P in
       exists smoothed_values,
         Loess.loess_1d (map (fun k => nth k des 0) period_indices)
           (map (fun k => nth k times 0) period_indices)
           (map (fun k => nth k times 0) period_indices) s_span = Ok smoothed_values
         /\ nth_error period_indices (t / P) = Some t
         /\ nth_error seasonal_smoothed t = nth_error smoothed_values (t / P).
Proof.
  intros Hp L n P.
  destruct (seasonal_smoothed_spec times des n period s_span L eq_refl Hp)
    as (ss & Hss & Lss & Hspec).
  exists ss. split; [exact Hss|]. split; [exact Lss|].
  intros t Ht idx. destruct (Hspec t Ht) as (sm & Hsm & Hlt & Hv).
  exists sm. split; [exact Hsm|].
  assert (HP : (0 < P)%nat) by (unfold P; lia).
  cbv zeta in Hsm, Hlt, Hv. unfold subseries_loess in Hsm. fold P idx in Hsm, Hlt, Hv.
  assert (Lsm : length sm = length idx).
  { destruct (loess_1d_total (map (fun k => nth k des 0) idx)
                (map (fun k => nth k times 0) idx) (map (fun k => nth k times 0) idx) s_span)
      as (sm' & Hsm' & L'); [now rewrite !length_map|].
    rewrite Hsm in Hsm'. inversion Hsm'; subst sm'. now rewrite length_map in L'. }
  split.
  - rewrite (nth_error_nth' idx 0%nat) by lia. f_equal.
    unfold idx. rewrite arange_nth by (fold idx; lia).
    pose proof (Nat.div_mod_eq t P). lia.
  - rewrite (nth_error_nth' ss 0) by lia. rewrite (nth_error_nth' sm 0) by lia.
    now f_equal.
Qed.

Lemma seasonal_smoothing_by_subseries_witness :
  exists seasonal_smoothed,
    foldM (smooth_subseries [0; 1; Q2Qc 2; Q2Qc 3; Q2Qc 4] 5 2 (Q2Qc (1 # 2))
             [Q2Qc 4; 1; Q2Qc 6; 0; Q2Qc 5]) (range 2) (Np.zeros 5)
    = Ok seasonal_smoothed
    /\ length seasonal_smoothed = 5%nat.
Proof.
  destruct (seasonal_smoothing_by_subseries [0; 1; Q2Qc 2; Q2Qc 3; Q2Qc 4]
              [Q2Qc 4; 1; Q2Qc 6; 0; Q2Qc 5] 2 (Q2Qc (1 # 2)))
    as (ss & H & L & _); [lia | reflexivity |].
  exists ss. split; [exact H | exact L].
Defined.

Section ConstantPass.
Variables (c : Qc) (n : nat) (times : list Qc) (period : Z) (s_span t_span : Qc).
Hypothesis n_pos : (1 <= n)%nat.
Hypothesis times_n : length times = n.

(** Step 2 on a constant deseasonalized series. *)
Lemma seasonal_smoothed_constant d :
  exists e,
    foldM (smooth_subseries times n period s_span (repeat d n)) (range period) (Np.zeros n)
    = Ok (repeat e n).
Proof.
  destruct (Z_lt_le_dec period 1) as [Hp|Hp].
  - exists 0. unfold range. replace (Z.to_nat period) with 0%nat by lia. reflexivity.
  - exists d.
    destruct (seasonal_smoothed_spec times (repeat d n) n period s_span times_n
                (repeat_length d n) Hp) as (ss & Hss & Lss & Hspec).
    rewrite Hss. f_equal.
    apply (nth_ext _ _ 0 0); [now rewrite repeat_length|].
    intros t Ht. rewrite Lss in Ht.
    destruct (Hspec t Ht) as (sm & Hsm & Hlt & ->).
    rewrite nth_repeat_lt by exact Ht.
    unfold subseries_loess in Hsm. cbv zeta in Hsm.
    set (idx := Np.arange (t mod Z.to_nat period) n (Z.to_nat period)) in *.
    rewrite (loess_1d_of_constant _ _ _ s_span d) in Hsm.
    + inversion Hsm; subst sm. rewrite length_map in Hlt.
      now rewrite (nth_map_in (fun _ => d) _ _ 0 0).
    + intros E. apply map_eq_nil in E.
      destruct (loess_1d_total (map (fun k => nth k (repeat d n) 0) idx)
                  (map (fun k => nth k times 0) idx) (map (fun k => nth k times 0) idx) s_span)
        as (sm' & Hsm' & L'); [now rewrite !length_map|].
      rewrite Hsm in Hsm'. inversion Hsm'; subst sm'. rewrite E in L'. simpl in L'. lia.
    + now rewrite !length_map.
    + apply Forall_forall. intros v Hv. apply in_map_iff in Hv as (k & <- & Hk).
      apply (repeat_spec n). apply nth_In. rewrite repeat_length.
      apply (arange_bound (t mod Z.to_nat period) n (Z.to_nat period)); [lia | exact Hk].
Qed.

Lemma inner_pass_constant oi rw ii st :
  (exists t0, c_trend st = repeat t0 n) ->
  inner_pass (repeat c n) times n period s_span t_span oi rw ii st
  = Ok {| c_seasonal := Np.zeros n; c_trend := repeat c n; c_residual := Np.zeros n |}.
Proof.
  intros [t0 Ht]. unfold inner_pass. rewrite Ht, sub_repeat.
  destruct (seasonal_smoothed_constant (c - t0)) as [e ->]. simpl.
  rewrite (loess_1d_repeat e n times t_span n_pos times_n). simpl.
  rewrite !sub_repeat.
  replace (e - e) with 0 by ring. replace (c - 0) with c by ring.
  rewrite (loess_1d_repeat c n times t_span n_pos times_n). simpl.
  rewrite sub_repeat. replace (c - c) with 0 by ring. reflexivity.
Qed.
End ConstantPass.

(** X10.  A constant series of length at least 1, with at least one inner
    iteration and an outer count that is not negative: [fit] stores a zero seasonal component, the series itself as
    the trend and a zero residual, for every period and every span. *)
Theorem stl_constant_series (self : SimpleSTL) (c : Qc) (n : nat) :
  (1 <= n)%nat -> (1 <= n_inner_iterations self)%Z -> (0 <= n_outer_iterations self)%Z ->
  exists self',
    fit self (repeat c n) = Ok self'
    /\ get_components self' = (Some (Np.zeros n), Some (repeat c n), Some (Np.zeros n)).
Proof.
  intros Hn Hm Hk.
  assert (Hne : repeat c n <> []) by (destruct n; [lia | discriminate]).
  destruct (fit_iterations self (repeat c n) Hne) as (st & self' & Hc & Hfit & Hg & _).
  cbv zeta in Hc. rewrite repeat_length in Hc.
  exists self'. split; [exact Hfit|].
  rewrite iterations_repeatM in Hc.
  rewrite (repeatM_fixed (fun st => exists t0, c_trend st = repeat t0 n) _
             {| c_seasonal := Np.zeros n; c_trend := repeat c n; c_residual := Np.zeros n |})
    in Hc.
  - inversion Hc; subst st. exact Hg.
  - intros s Hs. apply inner_pass_constant; auto. apply times_length.
  - simpl. eauto.
  - simpl. exists 0. reflexivity.
  - nia.
Qed.

Lemma stl_constant_series_witness :
  exists self',
    fit (__init__ 2 None None None None None 2 0) (repeat (Q2Qc 3) 5) = Ok self'
    /\ get_components self' = (Some (Np.zeros 5), Some (repeat (Q2Qc 3) 5), Some (Np.zeros 5)).
Proof.
  apply (stl_constant_series (__init__ 2 None None None None None 2 0) (Q2Qc 3) 5);
    simpl; lia.
Defined.

(** X11.  A seasonal period of 0 or less raises nothing (series not empty, at least
    one inner iteration, outer count not negative): the loop of step 2 has no
    iteration, so the seasonal component is zero, the trend is the LOESS of
    the series under the trend span and the residual is [data - trend]. *)
Theorem stl_nonpositive_period (self : SimpleSTL) (data : list Qc) :
  data <> [] -> (seasonal_period self <= 0)%Z ->
  (1 <= n_inner_iterations self)%Z -> (0 <= n_outer_iterations self)%Z ->
  let n := length data in
  let times := map Np.of_nat (seq 0 n) in
  exists self' t ts,
    fit self data = Ok self'
    /\ trend_smoother_span self' = Some ts
    /\ Loess.loess_1d data times times ts = Ok t
    /\ get_components self' = (Some (Np.zeros n), Some t, Some (Np.sub data t)).
Proof.
  intros Hne Hp Hm Hk n times.
  destruct (fit_iterations self data Hne) as (st & self' & Hc & Hfit & Hg & _ & Hts).
  cbv zeta in Hc, Hts. fold n times in Hc.
  rewrite iterations_repeatM in Hc.
  apply repeatM_last in Hc as [c0 Hc]; [|nia].
  apply inner_pass_steps in Hc as (ss & sst & Hss & Hst & Hs & Ht & Hr).
  unfold range in Hss. replace (Z.to_nat (seasonal_period self)) with 0%nat in Hss by lia.
  simpl in Hss. inversion Hss; subst ss; clear Hss.
  assert (Hn : (1 <= n)%nat) by (unfold n; destruct data; [easy | simpl; lia]).
  unfold Np.zeros in Hst.
  rewrite (loess_1d_repeat 0 n times _ Hn (times_length n)) in Hst.
  inversion Hst; subst sst; clear Hst.
  unfold Np.zeros in Hs. rewrite sub_repeat in Hs. replace (0 - 0) with 0 in Hs by ring.
  fold (Np.zeros n) in Hs. rewrite Hs in Ht, Hr. unfold n in Ht, Hr at 1.
  rewrite sub_zeros_r in Ht, Hr.
  exists self', (c_trend st). eexists.
  split; [exact Hfit|]. split; [exact Hts|]. split; [exact Ht|].
  rewrite Hg, Hs, Hr. reflexivity.
Qed.

Lemma stl_nonpositive_period_witness :
  exists self' t,
    fit (__init__ 0 None None None None None 2 0) [Q2Qc 1; Q2Qc 5; Q2Qc 2] = Ok self'
    /\ get_components self'
       = (Some (Np.zeros 3), Some t, Some (Np.sub [Q2Qc 1; Q2Qc 5; Q2Qc 2] t)).
Proof.
  destruct (stl_nonpositive_period (__init__ 0 None None None None None 2 0)
              [Q2Qc 1; Q2Qc 5; Q2Qc 2]) as (self' & t & ts & H & _ & _ & Hg);
    [discriminate | simpl; lia | simpl; lia | simpl; lia |].
  exists self', t. split; [exact H | exact Hg].
Defined.
End STLEdge.

(** ** [SimpleSTL.fit]: the default window lengths and the default seasonal span *)

Section STLDefaults.
Local Open Scope Qc_scope.
Import STL.

Lemma odd_at_least_3_spec w :
  Z.odd (odd_at_least_3 w) = true
  /\ (Z.max 3 w <= odd_at_least_3 w <= Z.max 3 w + 1)%Z.
Proof.
  unfold odd_at_least_3.
  destruct (Z.eqb_spec (w mod 2) 0) as [E|E].
  - destruct (Z.ltb_spec (w + 1) 3); [split; [reflexivity | lia]|].
    split; [|lia]. rewrite Z.odd_add, <- Z.negb_even. 
    rewrite (Zeven_mod w), E. reflexivity.
  - destruct (Z.ltb_spec w 3); [split; [reflexivity | lia]|].
    split; [|lia]. rewrite Zodd_mod.
    pose proof (Z.mod_pos_bound w 2 ltac:(lia)).
    replace (w mod 2)%Z with 1%Z by lia. reflexivity.
Qed.

Lemma ceil_of_Z p : Np.ceil (Np.of_Z p) = p.
Proof.
  unfold Np.ceil, Np.of_Z. cbn [this Q2Qc].
  rewrite (Qceiling_comp _ _ (Qred_correct (inject_Z p))). apply Qceiling_Z.
Qed.

Lemma ceil_three_halves p : Np.ceil (Q2Qc (3 # 2) * Np.of_Z p) = ((3 * p + 1) / 2)%Z.
Proof.
  unfold Np.ceil, Np.of_Z, Qcmult. cbn [this Q2Qc].
  rewrite (Qceiling_comp _ ((3 # 2) * inject_Z p)%Q)
    by (rewrite !Qred_correct; reflexivity).
  unfold Qceiling, Qfloor, Qopp, Qmult, inject_Z. cbn [Qnum Qden].
  change (Z.pos (2 * 1)) with 2%Z.
  Z.div_mod_to_equations. lia.
Qed.

(** X12.  The default window lengths set by [fit] on a series that is not empty,
    when the instance has none:
    both are odd; the trend length is [ceil(1.5 * period)] or one more, and at
    least 3; the low-pass length is the period or one more, and at least 3. *)
Theorem default_window_lengths (self : SimpleSTL) (data : list Qc) :
  data <> [] -> n_trend_bandwidth self = None -> n_lowpass_bandwidth self = None ->
  let p := seasonal_period self in
  exists self' wt wl,
    fit self data = Ok self'
    /\ n_trend_bandwidth self' = Some wt
    /\ n_lowpass_bandwidth self' = Some wl
    /\ Z.odd wt = true /\ Z.odd wl = true
    /\ (Z.max 3 ((3 * p + 1) / 2) <= wt <= Z.max 3 ((3 * p + 1) / 2) + 1)%Z
    /\ (Z.max 3 p <= wl <= Z.max 3 p + 1)%Z.
Proof.
  intros Hne Ht Hl p.
  destruct (fit_total self data) as (self' & c & Hfit & _).
  destruct (fit_configuration self data self' Hfit) as (_ & _ & _ & _ & Hs).
  specialize (Hs Hne). cbv zeta in Hs. rewrite Ht, Hl in Hs. simpl in Hs.
  unfold smoothing in Hs. inversion Hs as [[H1 H2 H3 H4 H5]].
  exists self', (default_n_trend_bandwidth p), (default_n_lowpass_bandwidth p).
  split; [exact Hfit|]. split; [exact H1|]. split; [exact H2|].
  unfold default_n_trend_bandwidth, default_n_lowpass_bandwidth.
  rewrite ceil_of_Z, ceil_three_halves.
  destruct (odd_at_least_3_spec ((3 * p + 1) / 2)) as [O1 B1].
  destruct (odd_at_least_3_spec p) as [O2 B2]. auto.
Qed.

Lemma default_window_lengths_witness :
  exists self',
    fit (__init__ 12 None None None None None 2 0) [Q2Qc 1; Q2Qc 2] = Ok self'
    /\ n_trend_bandwidth self' = Some 19%Z /\ n_lowpass_bandwidth self' = Some 13%Z.
Proof.
  destruct (default_window_lengths (__init__ 12 None None None None None 2 0)
              [Q2Qc 1; Q2Qc 2]) as (self' & wt & wl & H & Ht & Hl & Ot & Ol & Bt & Bl);
    [discriminate | reflexivity | reflexivity |].
  exists self'. split; [exact H|].
  change ((3 * seasonal_period (__init__ 12 None None None None None 2 0) + 1) / 2)%Z
    with 18%Z in Bt.
  change (seasonal_period (__init__ 12 None None None None None 2 0)) with 12%Z in Bl.
  assert (wt = 19%Z) as ->.
  { assert (wt = 18 \/ wt = 19)%Z as [->| ->] by lia; [discriminate | reflexivity]. }
  assert (wl = 13%Z) as ->.
  { assert (wl = 12 \/ wl = 13)%Z as [->| ->] by lia; [discriminate | reflexivity]. }
  auto.
Defined.
End STLDefaults.

Section DefaultSeasonalSpan.
Local Open Scope Qc_scope.
Import STL.







End DefaultSeasonalSpan.

(** ** [loess_1d] and [SimpleSTL.fit] are linear in the series *)

Section Superposition.
Local Open Scope Qc_scope.
Import Loess.
Variables alpha beta : Qc.
Let comb := combination alpha beta.

Lemma comb_length a b : length a = length b -> length (comb a b) = length a.
Proof. apply map2_length. Qed.

Lemma nth_comb a b i :
  length a = length b -> nth i (comb a b) 0 = alpha * nth i a 0 + beta * nth i b 0.
Proof.
  unfold comb, combination. revert b i; induction a as [|u a IH]; intros [|v b] i; simpl; intros L; try easy.
  - destruct i; ring.
  - destruct i as [|i]; [reflexivity | apply IH; lia].
Qed.

Lemma comb_map {A} (f g : A -> Qc) l :
  comb (map f l) (map g l) = map (fun a => alpha * f a + beta * g a) l.
Proof. unfold comb, combination. induction l; simpl; [reflexivity | now f_equal]. Qed.

Lemma sum_comb a b :
  length a = length b -> Np.sum (comb a b) = alpha * Np.sum a + beta * Np.sum b.
Proof.
  unfold comb, combination, Np.sum. revert b; induction a as [|u a IH]; intros [|v b]; simpl; intros L;
    try easy; [ring|].
  rewrite IH by lia. ring.
Qed.

Lemma sum_mul_comb u a b :
  length a = length b ->
  Np.sum (Np.mul u (comb a b))
  = alpha * Np.sum (Np.mul u a) + beta * Np.sum (Np.mul u b).
Proof.
  unfold comb, combination, Np.sum, Np.mul.
  revert a b; induction u as [|w u IH]; intros [|x a] [|y b]; simpl; intros L;
    try easy; try ring.
  rewrite IH by lia. ring.
Qed.

Lemma mean_comb a b :
  length a = length b -> Np.mean (comb a b) = alpha * Np.mean a + beta * Np.mean b.
Proof.
  intros L. unfold Np.mean. rewrite sum_comb, comb_length, <- L by exact L.
  unfold Qcdiv. ring.
Qed.

(** The line fitted in a window is linear in the window's y-values. *)
Lemma local_fit_comb win1 win2 win ab1 ab2 :
  x_window win1 = x_window win -> x_window win2 = x_window win ->
  dist_window win1 = dist_window win -> dist_window win2 = dist_window win ->
  length (y_window win1) = length (y_window win2) ->
  y_window win = comb (y_window win1) (y_window win2) ->
  local_fit win1 = Ok ab1 -> local_fit win2 = Ok ab2 ->
  local_fit win
  = Ok (alpha * fst ab1 + beta * fst ab2, alpha * snd ab1 + beta * snd ab2).
Proof.
  intros X1 X2 D1 D2 L Hy. unfold local_fit.
  assert (W1 : window_weights win1 = window_weights win)
    by (unfold window_weights; now rewrite X1, D1).
  assert (W2 : window_weights win2 = window_weights win)
    by (unfold window_weights; now rewrite X2, D2).
  rewrite W1, W2. destruct (window_weights win) as [w|]; simpl; [|discriminate].
  rewrite X1, X2, Hy. unfold linalg_solve, det, normal_equations. simpl.
  destruct (Qc_eq_dec _ 0) as [_|Hd].
  - unfold fallback.
    destruct (Qclt_le_dec (Np.sum w) eps); intros H1 H2;
      inversion H1; inversion H2; subst; simpl; f_equal; f_equal; try ring.
    + now apply mean_comb.
    + rewrite sum_mul_comb by exact L. unfold Qcdiv. ring.
  - intros H1 H2; inversion H1; inversion H2; subst; simpl.
    rewrite !sum_mul_comb by exact L. f_equal. unfold Qcdiv. f_equal; ring.
Qed.

Lemma mapM_map2 {A} (f1 f2 f : A -> result Qc) (h : Qc -> Qc -> Qc) l r1 r2 :
  (forall a v1 v2, In a l -> f1 a = Ok v1 -> f2 a = Ok v2 -> f a = Ok (h v1 v2)) ->
  mapM f1 l = Ok r1 -> mapM f2 l = Ok r2 -> mapM f l = Ok (Np.map2 h r1 r2).
Proof.
  revert r1 r2; induction l as [|a l IH]; simpl; intros r1 r2 H H1 H2.
  - inversion H1; inversion H2; reflexivity.
  - destruct (f1 a) as [v1|] eqn:E1; simpl in H1; [|discriminate].
    destruct (mapM f1 l) as [t1|]; simpl in H1; [|discriminate].
    destruct (f2 a) as [v2|] eqn:E2; simpl in H2; [|discriminate].
    destruct (mapM f2 l) as [t2|]; simpl in H2; [|discriminate].
    inversion H1; inversion H2; subst.
    rewrite (H a v1 v2 (or_introl eq_refl) E1 E2). simpl.
    rewrite (IH t1 t2); auto.
Qed.

(** [loess_1d] of a combination of two series of observations. *)
Lemma loess_1d_comb (y1 y2 x points : list Qc) (b : Qc) e1 e2 :
  length y1 = length y2 ->
  loess_1d y1 x points b = Ok e1 -> loess_1d y2 x points b = Ok e2 ->
  loess_1d (comb y1 y2) x points b = Ok (comb e1 e2).
Proof.
  intros L H1 H2.
  destruct x as [|x0 x'].
  { unfold loess_1d in *. simpl in *. inversion H1; inversion H2.
    unfold Np.zeros_like. rewrite comb_map. f_equal. apply map_ext. intros; ring. }
  set (x := x0 :: x') in *.
  assert (Hne : x <> []) by discriminate.
  assert (Lx : (length x <= length y1)%nat).
  { destruct (le_lt_dec (length x) (length y1)) as [Hle|Hlt]; [exact Hle|].
    exfalso. unfold loess_1d in H1.
    destruct (Nat.eqb_spec (length x) 0) as [E|_]; [discriminate|].
    rewrite take_map in H1 by (intros i Hi; now apply argsort_bound in Hi).
    simpl in H1.
    rewrite (take_out_of_bounds y1 (Np.argsort x) (length y1)) in H1;
      [discriminate | | lia].
    apply (Permutation_in _ (Permutation_sym (argsort_perm x))), in_seq. lia. }
  assert (Lx2 : (length x <= length y2)%nat) by lia.
  assert (Lxc : (length x <= length (comb y1 y2))%nat) by (rewrite comb_length; lia).
  rewrite (loess_1d_window_at y1 x points b Hne Lx) in H1.
  rewrite (loess_1d_window_at y2 x points b Hne Lx2) in H2.
  rewrite (loess_1d_window_at (comb y1 y2) x points b Hne Lxc).
  eapply mapM_map2; [|exact H1|exact H2].
  intros p v1 v2 _ F1 F2.
  apply bind_ok in F1 as (w1 & Hw1 & F1). apply bind_ok in F1 as (ab1 & Hab1 & F1).
  apply bind_ok in F2 as (w2 & Hw2 & F2). apply bind_ok in F2 as (ab2 & Hab2 & F2).
  inversion F1; inversion F2; subst v1 v2; clear F1 F2.
  destruct (window_at_explicit y1 x b p Lx) as (E1 & _ & _ & Hb & _).
  destruct (window_at_explicit y2 x b p Lx2) as (E2 & _ & _ & _ & _).
  destruct (window_at_explicit (comb y1 y2) x b p Lxc) as (Ec & _ & _ & _ & _).
  rewrite E1 in Hw1. rewrite E2 in Hw2. rewrite Ec.
  inversion Hw1; inversion Hw2; clear Hw1 Hw2 E1 E2 Ec. simpl.
  match goal with |- context [local_fit ?w] =>
    rewrite (local_fit_comb w1 w2 w ab1 ab2) end; subst w1 w2; simpl; auto.
  - f_equal. ring.
  - now rewrite !length_map.
  - rewrite comb_map. apply map_ext_in. intros i Hi. apply Hb in Hi.
    rewrite !(nth_map_in _ _ i 0%nat 0) by now rewrite argsort_length.
    apply nth_comb. exact L.
Qed.


(** *** The decomposition of a combination of two series *)

Lemma sub_comb a1 a2 b1 b2 :
  length a1 = length a2 -> length b1 = length b2 -> length a1 = length b1 ->
  Np.sub (comb a1 a2) (comb b1 b2) = comb (Np.sub a1 b1) (Np.sub a2 b2).
Proof.
  unfold comb, combination, Np.sub.
  revert a2 b1 b2; induction a1 as [|x a1 IH]; intros [|y a2] [|u b1] [|v b2];
    simpl; intros L1 L2 L3; try easy.
  f_equal; [ring | apply IH; lia].
Qed.

Lemma comb_zeros n : comb (Np.zeros n) (Np.zeros n) = Np.zeros n.
Proof.
  unfold comb, combination, Np.zeros. induction n; simpl; [reflexivity|].
  rewrite IHn. f_equal. ring.
Qed.

Section PassOfCombination.
Import STL.
Variables (d1 d2 times : list Qc) (n : nat) (period : Z) (s_span t_span : Qc).
Hypothesis d1_n : length d1 = n.
Hypothesis d2_n : length d2 = n.
Hypothesis times_n : length times = n.

(** Step 2 on a combination. *)
Lemma seasonal_smoothed_comb des1 des2 ss1 ss2 :
  length des1 = n -> length des2 = n ->
  foldM (smooth_subseries times n period s_span des1) (range period) (Np.zeros n) = Ok ss1 ->
  foldM (smooth_subseries times n period s_span des2) (range period) (Np.zeros n) = Ok ss2 ->
  foldM (smooth_subseries times n period s_span (comb des1 des2)) (range period) (Np.zeros n)
  = Ok (comb ss1 ss2)
  /\ length ss1 = n /\ length ss2 = n.
Proof.
  intros L1 L2 H1 H2.
  destruct (Z_lt_le_dec period 1) as [Hp|Hp].
  - unfold range in *. replace (Z.to_nat period) with 0%nat in * by lia.
    simpl in *. inversion H1; inversion H2.
    rewrite comb_zeros. now rewrite zeros_length.
  - assert (Lc : length (comb des1 des2) = n) by (rewrite comb_length; congruence).
    destruct (seasonal_smoothed_spec times des1 n period s_span times_n L1 Hp)
      as (s1 & E1 & Ls1 & S1).
    destruct (seasonal_smoothed_spec times des2 n period s_span times_n L2 Hp)
      as (s2 & E2 & Ls2 & S2).
    destruct (seasonal_smoothed_spec times (comb des1 des2) n period s_span times_n Lc Hp)
      as (sc & Ec & Lsc & Sc).
    rewrite E1 in H1. rewrite E2 in H2. inversion H1; inversion H2; subst s1 s2.
    split; [|split; assumption]. rewrite Ec. f_equal.
    apply (nth_ext _ _ 0 0); [rewrite comb_length; congruence|].
    intros t Ht. rewrite Lsc in Ht.
    destruct (S1 t Ht) as (m1 & M1 & B1 & V1).
    destruct (S2 t Ht) as (m2 & M2 & B2 & V2).
    destruct (Sc t Ht) as (mc & Mc & Bc & Vc).
    rewrite Vc, nth_comb, V1, V2 by congruence.
    unfold subseries_loess in M1, M2, Mc. cbv zeta in M1, M2, Mc.
    set (idx := Np.arange (t mod Z.to_nat period) n (Z.to_nat period)) in *.
    assert (E : map (fun k => nth k (comb des1 des2) 0) idx
                = comb (map (fun k => nth k des1 0) idx) (map (fun k => nth k des2 0) idx)).
    { rewrite comb_map. apply map_ext. intros k. apply nth_comb. congruence. }
    rewrite E in Mc.
    rewrite (loess_1d_comb _ _ _ _ _ m1 m2) in Mc; [| now rewrite !length_map | assumption..].
    inversion Mc; subst mc. apply nth_comb.
    destruct (loess_1d_total (map (fun k => nth k des1 0) idx)
                (map (fun k => nth k times 0) idx) (map (fun k => nth k times 0) idx) s_span)
      as (m1' & M1' & Lm1); [now rewrite !length_map|].
    destruct (loess_1d_total (map (fun k => nth k des2 0) idx)
                (map (fun k => nth k times 0) idx) (map (fun k => nth k times 0) idx) s_span)
      as (m2' & M2' & Lm2); [now rewrite !length_map|].
    rewrite M1 in M1'. rewrite M2 in M2'. inversion M1'; inversion M2'; subst. congruence.
Qed.

Lemma loess_1d_length y x points b est :
  Loess.loess_1d y x points b = Ok est -> length est = length points.
Proof.
  unfold Loess.loess_1d. destruct (length x =? 0)%nat.
  - intros H; inversion H. unfold Np.zeros_like. apply length_map.
  - intros H. apply bind_ok in H as (xs & _ & H). apply bind_ok in H as (ys & _ & H).
    now apply mapM_length in H.
Qed.

Let comb_state := comb_components alpha beta.

Lemma inner_pass_comb oi rw ii c1 c2 r1 r2 :
  length (c_trend c1) = n -> length (c_trend c2) = n ->
  inner_pass d1 times n period s_span t_span oi rw ii c1 = Ok r1 ->
  inner_pass d2 times n period s_span t_span oi rw ii c2 = Ok r2 ->
  inner_pass (comb d1 d2) times n period s_span t_span oi rw ii (comb_state c1 c2)
  = Ok (comb_state r1 r2)
  /\ length (c_trend r1) = n /\ length (c_trend r2) = n.
Proof.
  intros Lt1 Lt2 H1 H2. unfold inner_pass in *.
  apply bind_ok in H1 as (ss1 & Hss1 & H1). apply bind_ok in H1 as (st1 & Hst1 & H1).
  apply bind_ok in H1 as (tr1 & Htr1 & H1).
  apply bind_ok in H2 as (ss2 & Hss2 & H2). apply bind_ok in H2 as (st2 & Hst2 & H2).
  apply bind_ok in H2 as (tr2 & Htr2 & H2).
  inversion H1; inversion H2; subst r1 r2; clear H1 H2.
  unfold comb_state, comb_components. fold comb.
  cbn [c_trend c_seasonal c_residual].
  rewrite sub_comb by congruence.
  destruct (seasonal_smoothed_comb (Np.sub d1 (c_trend c1)) (Np.sub d2 (c_trend c2)) ss1 ss2)
    as (-> & Ls1 & Ls2); auto; try (rewrite sub_length; congruence).
  cbn [bind].
  pose proof (loess_1d_length _ _ _ _ _ Hst1) as Lst1.
  pose proof (loess_1d_length _ _ _ _ _ Hst2) as Lst2.
  pose proof (loess_1d_length _ _ _ _ _ Htr1) as Ltr1.
  pose proof (loess_1d_length _ _ _ _ _ Htr2) as Ltr2.
  rewrite (loess_1d_comb ss1 ss2 times times t_span st1 st2) by congruence.
  cbn [bind].
  assert (La1 : length (Np.sub ss1 st1) = n) by (rewrite sub_length; congruence).
  assert (La2 : length (Np.sub ss2 st2) = n) by (rewrite sub_length; congruence).
  rewrite (sub_comb ss1 ss2 st1 st2) by congruence.
  rewrite (sub_comb d1 d2) by congruence.
  rewrite (loess_1d_comb _ _ times times t_span tr1 tr2);
    [| rewrite !sub_length; congruence | assumption..].
  cbn [bind].
  rewrite (sub_comb _ _ tr1 tr2); rewrite ?sub_length; try congruence.
  split; [reflexivity|]. split; congruence.
Qed.

Lemma repeatM_comb k oi rw ii c1 c2 r1 r2 :
  length (c_trend c1) = n -> length (c_trend c2) = n ->
  repeatM k (inner_pass d1 times n period s_span t_span oi rw ii) c1 = Ok r1 ->
  repeatM k (inner_pass d2 times n period s_span t_span oi rw ii) c2 = Ok r2 ->
  repeatM k (inner_pass (comb d1 d2) times n period s_span t_span oi rw ii)
    (comb_state c1 c2)
  = Ok (comb_state r1 r2).
Proof.
  revert c1 c2. induction k as [|k IH]; intros c1 c2 L1 L2 H1 H2; simpl in *.
  - inversion H1; inversion H2; reflexivity.
  - apply bind_ok in H1 as (m1 & P1 & H1). apply bind_ok in H2 as (m2 & P2 & H2).
    destruct (inner_pass_comb oi rw ii c1 c2 m1 m2 L1 L2 P1 P2) as (-> & M1 & M2).
    simpl. now apply IH.
Qed.
End PassOfCombination.

(** X15.  The decomposition is linear in the series: for two series of one length
    and one instance configuration, the seasonal, trend and residual
    components of [alpha * d1 + beta * d2] are the same combinations of the
    components of [d1] and [d2]. *)
Theorem stl_superposition (self : STL.SimpleSTL) (d1 d2 : list Qc) :
  length d1 = length d2 ->
  exists s1 t1 r1 s2 t2 r2,
    STL.decompose self d1 = Ok (Some s1, Some t1, Some r1)
    /\ STL.decompose self d2 = Ok (Some s2, Some t2, Some r2)
    /\ STL.decompose self (combination alpha beta d1 d2)
       = Ok (Some (combination alpha beta s1 s2),
             Some (combination alpha beta t1 t2),
             Some (combination alpha beta r1 r2)).
Proof.
  intros L. fold comb.
  destruct d1 as [|x1 d1'].
  { destruct d2; [|discriminate]. exists [], [], [], [], [], []. repeat split. }
  set (d1 := x1 :: d1') in *.
  assert (N1 : d1 <> []) by discriminate.
  assert (N2 : d2 <> []) by (destruct d2; [discriminate L | discriminate]).
  assert (Lc : length (comb d1 d2) = length d1) by (apply comb_length; exact L).
  assert (Nc : comb d1 d2 <> []) by (intros E; rewrite E in Lc; discriminate Lc).
  destruct (fit_iterations self d1 N1) as (c1 & self1 & I1 & F1 & G1 & _).
  destruct (fit_iterations self d2 N2) as (c2 & self2 & I2 & F2 & G2 & _).
  destruct (fit_iterations self (comb d1 d2) Nc) as (cc & selfc & Ic & Fc & Gc & _).
  cbv zeta in I1, I2, Ic. rewrite Lc in Ic. rewrite <- L in I2.
  set (n := length d1) in *.
  rewrite iterations_repeatM in I1, I2, Ic.
  rewrite <- (comb_zeros n) in Ic at 1 2.
  match type of Ic with repeatM ?k _ _ = _ =>
    pose proof (repeatM_comb d1 d2 (map Np.of_nat (seq 0 n)) n (STL.seasonal_period self)
                  _ _ eq_refl (eq_sym L) (times_length n) k 0%nat (Np.ones n) 0%nat
                  {| STL.c_seasonal := Np.zeros n; STL.c_trend := Np.zeros n;
                     STL.c_residual := d1 |}
                  {| STL.c_seasonal := Np.zeros n; STL.c_trend := Np.zeros n;
                     STL.c_residual := d2 |}
                  c1 c2 (zeros_length n) (zeros_length n) I1 I2) as R end.
  unfold comb_components in R. cbn [STL.c_seasonal STL.c_trend STL.c_residual] in R.
  fold comb in R. rewrite R in Ic. inversion Ic; subst cc; clear Ic R.
  exists (STL.c_seasonal c1), (STL.c_trend c1), (STL.c_residual c1),
         (STL.c_seasonal c2), (STL.c_trend c2), (STL.c_residual c2).
  unfold STL.decompose. rewrite F1, F2, Fc. simpl. rewrite G1, G2, Gc. repeat split.
Qed.

End Superposition.

Section SuperpositionWitnesses.
Local Open Scope Qc_scope.


Lemma stl_superposition_witness :
  exists s1 t1 r1 s2 t2 r2,
    STL.decompose (STL.__init__ 2 None None None None None 2 0)
      [Q2Qc 1; Q2Qc 5; Q2Qc 2; Q2Qc 7] = Ok (Some s1, Some t1, Some r1)
    /\ STL.decompose (STL.__init__ 2 None None None None None 2 0)
         [0; 1; 0; Q2Qc 2] = Ok (Some s2, Some t2, Some r2)
    /\ STL.decompose (STL.__init__ 2 None None None None None 2 0)
         (combination (Q2Qc 2) (Q2Qc 3) [Q2Qc 1; Q2Qc 5; Q2Qc 2; Q2Qc 7] [0; 1; 0; Q2Qc 2])
       = Ok (Some (combination (Q2Qc 2) (Q2Qc 3) s1 s2),
             Some (combination (Q2Qc 2) (Q2Qc 3) t1 t2),
             Some (combination (Q2Qc 2) (Q2Qc 3) r1 r2)).
Proof.
  apply (stl_superposition (Q2Qc 2) (Q2Qc 3)). reflexivity.
Defined.
End SuperpositionWitnesses.

(** ** [_rbf_kernel]: the entries of the kernel matrix *)

Section KernelEntries.
Local Open Scope R_scope.
Import KRR.

(** [|u - v|^2 = |u|^2 + |v|^2 - 2 u.v] for rows of one length. *)
Lemma sq_dist_expand u v :
  length u = length v ->
  sum (map2 (fun a b => (a - b) ^ 2) u v) = sum_sq u + sum_sq v - 2 * dot u v.
Proof.
  unfold sum_sq, dot, sum.
  revert v; induction u as [|a u IH]; intros [|b v];
    cbn [KRR.map2 map fold_right length]; intros L; try easy.
  - ring.
  - rewrite IH by lia. ring.
Qed.

Lemma sq_dist_nonneg u v : 0 <= sum (map2 (fun a b => (a - b) ^ 2) u v).
Proof.
  unfold sum. revert v; induction u as [|a u IH]; intros [|b v];
    cbn [KRR.map2 fold_right]; try lra.
  specialize (IH v). pose proof (pow2_ge_0 (a - b)). lra.
Qed.

Lemma kernel_value_sq_dist s u v :
  length u = length v ->
  kernel_value s u v
  = exp (- (1 / (2 * s ^ 2)) * sum (map2 (fun a b => (a - b) ^ 2) u v)).
Proof.
  intros L. unfold kernel_value. rewrite <- (sq_dist_expand u v L).
  unfold clamp. destruct (Rlt_dec _ 0) as [H|_]; [|reflexivity].
  pose proof (sq_dist_nonneg u v). lra.
Qed.

Lemma exp_nonpos x : x <= 0 -> 0 < exp x <= 1.
Proof.
  intros H. split; [apply exp_pos|].
  destruct H as [H | ->]; [|rewrite exp_0; lra].
  left. rewrite <- exp_0. now apply exp_increasing.
Qed.

Lemma kernel_value_range s u v : s <> 0 -> 0 < kernel_value s u v <= 1.
Proof.
  intros Hs. unfold kernel_value. apply exp_nonpos.
  assert (Hg : 0 < 1 / (2 * s ^ 2)).
  { apply Rdiv_lt_0_compat; [lra|].
    pose proof (pow2_ge_0 s). pose proof (sigma_nonzero s Hs). lra. }
  assert (Hc : 0 <= clamp (sum_sq u + sum_sq v - 2 * dot u v)).
  { unfold clamp. destruct (Rlt_dec _ 0); lra. }
  nra.
Qed.

(** X16.  For [sigma <> 0] and rows of one width, [_rbf_kernel] on two 2-D arrays
    returns a matrix with one row per row of [x1] and one column per row of
    [x2]; its entry [i, j] is the value [_rbf_kernel] gives on the two 1-D
    arrays [x1[i]] and [x2[j]] (the clamp at 0 changes nothing), and lies in
    the interval (0, 1]. *)
Theorem rbf_kernel_entries (self : SimpleRBFKernelRegression) (X1 X2 : matrix) (d : nat) :
  sigma self <> 0 ->
  Forall (fun row => length row = d) X1 -> Forall (fun row => length row = d) X2 ->
  exists K,
    _rbf_kernel self X1 X2 = Ok K
    /\ shape (length X1) (length X2) K
    /\ forall i j, (i < length X1)%nat -> (j < length X2)%nat ->
         _rbf_kernel_vectors self (nth i X1 []) (nth j X2 []) = Ok (entry K i j)
         /\ 0 < entry K i j <= 1.
Proof.
  intros Hs F1 F2. rewrite Forall_forall in F1, F2.
  rewrite rbf_kernel_cases.
  destruct (Req_dec_T (2 * sigma self ^ 2) 0) as [E|Hne];
    [now apply sigma_nonzero in E|].
  replace (same_width X1 X2) with true.
  2:{ symmetry. apply same_width_spec. intros r1 r2 H1 H2.
      now rewrite (F1 r1 H1), (F2 r2 H2). }
  eexists. split; [reflexivity|]. split; [apply shape_table|].
  intros i j Hi Hj. rewrite (entry_table _ X1 X2 [] []) by assumption.
  split; [|now apply kernel_value_range].
  assert (L : length (nth i X1 []) = length (nth j X2 [])).
  { rewrite (F1 (nth i X1 [])), (F2 (nth j X2 [])); auto using nth_In. }
  unfold _rbf_kernel_vectors.
  destruct (Req_dec_T (2 * sigma self ^ 2) 0) as [E|_]; [contradiction|].
  unfold broadcast. rewrite (proj2 (Nat.eqb_eq _ _) L). simpl.
  now rewrite kernel_value_sq_dist.
Qed.

Lemma rbf_kernel_entries_witness :
  exists K,
    _rbf_kernel (__init__ 1 0) [[1; 2]; [3; 4]] [[0; -1]; [1; 2]; [5; 5]] = Ok K
    /\ 0 < entry K 1 2 <= 1.
Proof.
  destruct (rbf_kernel_entries (__init__ 1 0) [[1; 2]; [3; 4]] [[0; -1]; [1; 2]; [5; 5]] 2)
    as (K & HK & _ & H).
  - simpl. lra.
  - repeat constructor.
  - repeat constructor.
  - exists K. split; [exact HK|]. apply H; simpl; lia.
Defined.
End KernelEntries.

(** ** [predict] on a fitted model *)

Section PredictFacts.
Local Open Scope R_scope.
Import KRR.

(** The steps of [predict] on a fitted instance. *)
Lemma predict_fit_cases self X y X_test :
  predict (fit self X y) X_test
  = if (length X =? 0)%nat then Ok (repeat 0 (length X_test))
    else if Req_dec_T (2 * sigma self ^ 2) 0 then Raise ZeroDivisionError
    else if same_width X_test X then
      if same_width X X then
        alpha <- dual_weights
                   (add_scaled (map (fun r1 => map (fun r2 => kernel_value (sigma self) r1 r2) X) X)
                      (lambda_reg self) (eye (length X))) y ;;
        Ok (matvec (map (fun r1 => map (fun r2 => kernel_value (sigma self) r1 r2) X) X_test)
              alpha)
      else Raise ValueError
    else Raise ValueError.
Proof.
  unfold predict, fit. cbn [_trained X_train y_train negb sigma lambda_reg].
  destruct (length X =? 0)%nat; [reflexivity|].
  rewrite !rbf_kernel_cases. cbn [sigma].
  destruct (Req_dec_T (2 * sigma self ^ 2) 0); [reflexivity|].
  destruct (same_width X_test X); [|reflexivity].
  destruct (same_width X X); reflexivity.
Qed.

Lemma dual_weights_cases A y :
  (length y <> length A /\ dual_weights A y = Raise ValueError)
  \/ (length y = length A
      /\ exists alpha, dual_weights A y = Ok alpha /\ length alpha = length A).
Proof.
  unfold dual_weights.
  destruct (linalg_solve A y) as [a|e] eqn:E.
  - right. pose proof (linalg_solve_length A y a E) as L.
    unfold linalg_solve in E.
    destruct (Nat.eqb_spec (length y) (length A)); [eauto | discriminate].
  - unfold linalg_solve in E.
    destruct (Nat.eqb_spec (length y) (length A)) as [L|L].
    + destruct (excluded_middle_informative (invertible A)); [discriminate|].
      inversion E; subst e. right. split; [exact L|].
      eexists. split; [reflexivity|].
      rewrite length_matvec. apply linalg_pinv_shape.
    + inversion E; subst e. now left.
Qed.

Lemma same_width_rows X1 X2 d :
  Forall (fun row => length row = d) X1 -> Forall (fun row => length row = d) X2 ->
  same_width X1 X2 = true.
Proof.
  rewrite !Forall_forall. intros F1 F2. apply same_width_spec. intros r1 r2 H1 H2.
  now rewrite (F1 r1 H1), (F2 r2 H2).
Qed.

Lemma regularised_length (K : matrix) c n :
  length K = n -> length (add_scaled K c (eye n)) = n.
Proof.
  intros L. rewrite length_add_scaled; [exact L|].
  rewrite L. symmetry. apply shape_mk_matrix.
Qed.

(** On well-shaped data [predict] returns the kernel table of the test rows
    applied to the weights. *)
Lemma predict_fit_ok self X y X_test d :
  sigma self <> 0 ->
  Forall (fun row => length row = d) X -> Forall (fun row => length row = d) X_test ->
  length y = length X -> X <> [] ->
  exists alpha,
    dual_weights
      (add_scaled (map (fun r1 => map (fun r2 => kernel_value (sigma self) r1 r2) X) X)
         (lambda_reg self) (eye (length X))) y = Ok alpha
    /\ length alpha = length X
    /\ predict (fit self X y) X_test
       = Ok (matvec (map (fun r1 => map (fun r2 => kernel_value (sigma self) r1 r2) X) X_test)
               alpha).
Proof.
  intros Hs FX FT Ly Hne. rewrite predict_fit_cases.
  destruct (Nat.eqb_spec (length X) 0) as [E|_];
    [apply length_zero_iff_nil in E; contradiction|].
  destruct (Req_dec_T (2 * sigma self ^ 2) 0) as [E|_]; [now apply sigma_nonzero in E|].
  rewrite (same_width_rows X_test X d FT FX), (same_width_rows X X d FX FX).
  match goal with |- context [dual_weights ?A y] =>
    destruct (dual_weights_cases A y) as [[Hl _] | [_ (alpha & Ha & La)]] end.
  - exfalso. apply Hl. rewrite regularised_length; [exact Ly | apply length_map].
  - exists alpha. rewrite Ha. split; [reflexivity|]. split; [|reflexivity].
    rewrite La. apply regularised_length, length_map.
Qed.

(** X17.  For [sigma <> 0], training and test rows of one width and one target per
    training row, [predict] after [fit] raises nothing and returns one
    prediction per test row, whether the regularised kernel matrix is
    singular or not. *)
Theorem predict_total (self : SimpleRBFKernelRegression) (X : matrix) (y : vector)
  (X_test : matrix) (d : nat) :
  sigma self <> 0 ->
  Forall (fun row => length row = d) X -> Forall (fun row => length row = d) X_test ->
  length y = length X ->
  exists predictions,
    predict (fit self X y) X_test = Ok predictions
    /\ length predictions = length X_test.
Proof.
  intros Hs FX FT Ly. destruct X as [|r X].
  - eexists. split; [reflexivity | apply repeat_length].
  - destruct (predict_fit_ok self (r :: X) y X_test d Hs FX FT Ly) as (alpha & _ & _ & ->);
      [discriminate|].
    eexists. split; [reflexivity|]. now rewrite length_matvec, length_map.
Qed.

Lemma predict_total_witness :
  exists predictions,
    predict (fit (__init__ 1 0) [[0; 1]; [0; 1]] [5; 6]) [[2; 0]; [4; 1]; [0; 0]]
    = Ok predictions
    /\ length predictions = 3%nat.
Proof.
  apply (predict_total (__init__ 1 0) [[0; 1]; [0; 1]] [5; 6] [[2; 0]; [4; 1]; [0; 0]] 2).
  - simpl. lra.
  - repeat constructor.
  - repeat constructor.
  - reflexivity.
Defined.






Section Combination.
Variables a b : R.
Let comb : vector -> vector -> vector := KRR.map2 (fun u v => a * u + b * v).

Lemma dot_comb r v1 v2 :
  length v1 = length v2 -> dot r (comb v1 v2) = a * dot r v1 + b * dot r v2.
Proof.
  unfold dot, comb, sum.
  revert v1 v2; induction r as [|x r IH]; intros [|u v1] [|v v2];
    cbn [KRR.map2 fold_right length]; intros L; try easy; try ring.
  rewrite IH by lia. ring.
Qed.

Lemma matvec_comb M v1 v2 :
  length v1 = length v2 ->
  matvec M (comb v1 v2) = comb (matvec M v1) (matvec M v2).
Proof.
  intros L. unfold matvec, comb.
  induction M as [|r M IH]; cbn [map KRR.map2]; [reflexivity|].
  rewrite IH. f_equal. now apply dot_comb.
Qed.

Lemma comb_repeat_0 n : comb (repeat 0 n) (repeat 0 n) = repeat 0 n.
Proof.
  unfold comb. induction n; cbn [repeat KRR.map2]; [reflexivity|].
  rewrite IHn. f_equal. ring.
Qed.

(** The weights [alpha] are linear in the targets. *)
Lemma dual_weights_comb A y1 y2 alpha1 alpha2 :
  length y1 = length y2 ->
  dual_weights A y1 = Ok alpha1 -> dual_weights A y2 = Ok alpha2 ->
  dual_weights A (comb y1 y2) = Ok (comb alpha1 alpha2).
Proof.
  intros L H1 H2.
  pose proof (dual_weights_length A y1 alpha1 H1) as L1.
  pose proof (dual_weights_length A y2 alpha2 H2) as L2.
  assert (Lc : length (comb y1 y2) = length y1) by (apply length_map2; exact L).
  unfold dual_weights in *.
  unfold linalg_solve in *. rewrite Lc.
  destruct (Nat.eqb_spec (length y1) (length A)) as [E1|E1]; [|discriminate].
  destruct (Nat.eqb_spec (length y2) (length A)) as [E2|E2]; [|discriminate].
  destruct (excluded_middle_informative (invertible A)) as [Hi|Hn].
  - inversion H1 as [Ha1]. inversion H2 as [Ha2]. rewrite Ha1, Ha2. f_equal.
    match goal with |- epsilon ?i ?P = _ =>
      destruct (epsilon_spec i P) as [Le He] end.
    { destruct (Hi (comb y1 y2)) as (x & Hx & _); [congruence | now exists x]. }
    destruct (Hi (comb y1 y2)) as (x & _ & Hu); [congruence|].
    rewrite <- (Hu _ (conj Le He)). apply Hu. split.
    + unfold comb. rewrite length_map2; congruence.
    + rewrite matvec_comb by congruence.
      assert (M1 : matvec A alpha1 = y1).
      { rewrite <- Ha1.
        match goal with |- context [epsilon ?i ?P] =>
          apply (epsilon_spec i P) end.
        destruct (Hi y1 E1) as (x1 & Hx1 & _). now exists x1. }
      assert (M2 : matvec A alpha2 = y2).
      { rewrite <- Ha2.
        match goal with |- context [epsilon ?i ?P] =>
          apply (epsilon_spec i P) end.
        destruct (Hi y2 E2) as (x2 & Hx2 & _). now exists x2. }
      now rewrite M1, M2.
  - inversion H1. inversion H2. f_equal. now apply matvec_comb.
Qed.

(** X19.  The predictions are linear in the training targets: for fixed training
    and test inputs, the predictions for the targets [a * y1 + b * y2] are
    [a * p1 + b * p2], where [p1] and [p2] are the predictions for [y1] and
    [y2]; this holds on the pseudo-inverse path as well. *)
Theorem predict_linear_in_targets (self : SimpleRBFKernelRegression) (X : matrix)
  (y1 y2 : vector) (X_test : matrix) (p1 p2 : vector) :
  length y1 = length y2 ->
  predict (fit self X y1) X_test = Ok p1 ->
  predict (fit self X y2) X_test = Ok p2 ->
  predict (fit self X (KRR.map2 (fun u v => a * u + b * v) y1 y2)) X_test
  = Ok (KRR.map2 (fun u v => a * u + b * v) p1 p2).
Proof.
  intros L. rewrite !predict_fit_cases. fold comb.
  destruct (length X =? 0)%nat.
  { intros H1 H2. inversion H1; inversion H2. now rewrite comb_repeat_0. }
  destruct (Req_dec_T (2 * sigma self ^ 2) 0); [discriminate|].
  destruct (same_width X_test X); [|discriminate].
  destruct (same_width X X); [|discriminate].
  intros H1 H2.
  apply bind_ok in H1 as (alpha1 & Ha1 & H1).
  apply bind_ok in H2 as (alpha2 & Ha2 & H2).
  rewrite (dual_weights_comb _ y1 y2 alpha1 alpha2 L Ha1 Ha2). simpl.
  inversion H1; inversion H2. f_equal. apply matvec_comb.
  apply dual_weights_length in Ha1, Ha2. congruence.
Qed.
End Combination.

Lemma predict_linear_in_targets_witness :
  exists p1 p2,
    predict (fit (__init__ 1 0) [[0; 1]; [0; 1]] [5; 6]) [[2; 0]; [4; 1]] = Ok p1
    /\ predict (fit (__init__ 1 0) [[0; 1]; [0; 1]] [1; -1]) [[2; 0]; [4; 1]] = Ok p2
    /\ predict (fit (__init__ 1 0) [[0; 1]; [0; 1]]
                  (KRR.map2 (fun u v => 2 * u + 3 * v) [5; 6] [1; -1])) [[2; 0]; [4; 1]]
       = Ok (KRR.map2 (fun u v => 2 * u + 3 * v) p1 p2).
Proof.
  assert (Hs : sigma (__init__ 1 0) <> 0) by (simpl; lra).
  destruct (predict_fit_ok (__init__ 1 0) [[0; 1]; [0; 1]] [5; 6] [[2; 0]; [4; 1]] 2 Hs)
    as (a1 & _ & _ & H1); try (repeat constructor); try discriminate.
  destruct (predict_fit_ok (__init__ 1 0) [[0; 1]; [0; 1]] [1; -1] [[2; 0]; [4; 1]] 2 Hs)
    as (a2 & _ & _ & H2); try (repeat constructor); try discriminate.
  eexists. eexists. split; [exact H1|]. split; [exact H2|].
  apply (predict_linear_in_targets 2 3); [reflexivity | exact H1 | exact H2].
Defined.
End PredictFacts.

Section PredictBatches.
Local Open Scope R_scope.
Import KRR.

Lemma same_width_app T1 T2 X :
  same_width (T1 ++ T2) X = (same_width T1 X && same_width T2 X)%bool.
Proof. unfold same_width. apply forallb_app. Qed.

Lemma dual_weights_errors A y e :
  dual_weights A y = Raise e -> e = ValueError.
Proof.
  intros H. destruct (dual_weights_cases A y) as [[_ E] | [_ (alpha & E & _)]];
    rewrite E in H; now inversion H.
Qed.

(** X20.  Each test row is predicted on its own: [predict] on the rows of [T1]
    followed by those of [T2] gives the predictions for [T1] followed by those
    for [T2], and raises when one of the two calls does. *)
Theorem predict_batches (self : SimpleRBFKernelRegression) (X : matrix) (y : vector)
  (T1 T2 : matrix) :
  predict (fit self X y) (T1 ++ T2)
  = (p1 <- predict (fit self X y) T1 ;;
     p2 <- predict (fit self X y) T2 ;;
     Ok (p1 ++ p2)).
Proof.
  rewrite !predict_fit_cases.
  destruct (length X =? 0)%nat.
  { simpl. now rewrite length_app, repeat_app. }
  destruct (Req_dec_T (2 * sigma self ^ 2) 0); [reflexivity|].
  rewrite same_width_app.
  destruct (same_width T1 X); cbn [andb bind].
  - destruct (same_width X X).
    + match goal with |- context [dual_weights ?A y] =>
        destruct (dual_weights A y) as [alpha|e] eqn:E end; cbn [bind].
      * destruct (same_width T2 X); cbn [bind]; [|reflexivity].
        unfold matvec. now rewrite !map_app.
      * apply dual_weights_errors in E. subst e. now destruct (same_width T2 X).
    + now destruct (same_width T2 X).
  - reflexivity.
Qed.
End PredictBatches.

Section Translation.
Local Open Scope R_scope.
Import KRR.

(** The rows translated by the vector [c]. *)
Let shift (c : vector) (X : matrix) : matrix := map (fun row => KRR.map2 Rplus row c) X.

Lemma sq_dist_shift u v c :
  length u = length c -> length v = length c ->
  map2 (fun a b => (a - b) ^ 2) (KRR.map2 Rplus u c) (KRR.map2 Rplus v c)
  = map2 (fun a b => (a - b) ^ 2) u v.
Proof.
  revert v c; induction u as [|a u IH]; intros [|b v] [|x c];
    cbn [KRR.map2 length]; intros Lu Lv; try easy.
  f_equal; [ring | apply IH; lia].
Qed.

Lemma kernel_value_shift s u v c :
  length u = length c -> length v = length c ->
  kernel_value s (KRR.map2 Rplus u c) (KRR.map2 Rplus v c) = kernel_value s u v.
Proof.
  intros Lu Lv.
  rewrite !kernel_value_sq_dist; [now rewrite sq_dist_shift | congruence |].
  rewrite !length_map2; congruence.
Qed.

Lemma shift_rows c X d :
  length c = d -> Forall (fun row => length row = d) X ->
  Forall (fun row => length row = d) (shift c X).
Proof.
  intros Lc F. unfold shift. apply Forall_forall. intros row H.
  apply in_map_iff in H as (r & <- & Hr). rewrite Forall_forall in F.
  rewrite length_map2; rewrite (F r Hr); congruence.
Qed.

(** X21.  Adding one vector [c] to every training row and every test row (all of
    the width of [c]) changes no prediction and no exception. *)
Theorem predict_translation_invariant (self : SimpleRBFKernelRegression)
  (X : matrix) (y : vector) (X_test : matrix) (c : vector) (d : nat) :
  Forall (fun row => length row = d) X -> Forall (fun row => length row = d) X_test ->
  length c = d ->
  predict (fit self (map (fun row => KRR.map2 Rplus row c) X) y)
    (map (fun row => KRR.map2 Rplus row c) X_test)
  = predict (fit self X y) X_test.
Proof.
  intros FX FT Lc. fold (shift c X) (shift c X_test).
  rewrite !predict_fit_cases.
  assert (Ls : length (shift c X) = length X) by apply length_map.
  rewrite Ls. destruct (length X =? 0)%nat; [unfold shift; now rewrite length_map|].
  destruct (Req_dec_T (2 * sigma self ^ 2) 0); [reflexivity|].
  rewrite (same_width_rows _ _ d (shift_rows c X_test d Lc FT) (shift_rows c X d Lc FX)).
  rewrite (same_width_rows _ _ d (shift_rows c X d Lc FX) (shift_rows c X d Lc FX)).
  rewrite (same_width_rows _ _ d FT FX), (same_width_rows _ _ d FX FX).
  rewrite Forall_forall in FX, FT.
  assert (E : forall A B : matrix,
             (forall r, In r A -> length r = d) -> (forall r, In r B -> length r = d) ->
             map (fun r1 => map (fun r2 => kernel_value (sigma self) r1 r2) (shift c B))
               (shift c A)
             = map (fun r1 => map (fun r2 => kernel_value (sigma self) r1 r2) B) A).
  { intros A B FA FB. unfold shift. rewrite map_map. apply map_ext_in. intros r1 H1.
    rewrite map_map. apply map_ext_in. intros r2 H2.
    apply kernel_value_shift; rewrite ?(FA r1 H1), ?(FB r2 H2); congruence. }
  now rewrite !E by assumption.
Qed.

Lemma predict_translation_invariant_witness :
  predict (fit (__init__ 1 0) (map (fun row => KRR.map2 Rplus row [10; -3]) [[0; 1]; [2; 1]])
             [5; 6])
    (map (fun row => KRR.map2 Rplus row [10; -3]) [[2; 0]; [4; 1]])
  = predict (fit (__init__ 1 0) [[0; 1]; [2; 1]] [5; 6]) [[2; 0]; [4; 1]].
Proof.
  apply (predict_translation_invariant (__init__ 1 0) [[0; 1]; [2; 1]] [5; 6]
           [[2; 0]; [4; 1]] [10; -3] 2); repeat constructor.
Defined.
End Translation.
